(** * Terminal manager: a shallow embedding and its verified properties

    The development models the [TerminalManager] class of the
    main-process terminal module:

    - JavaScript strings are lists of UTF-16 code units ([jstring]);
    - the regular expressions of the module are terms of a small regex
      syntax run by a backtracking matcher with ECMAScript's priorities;
    - the manager is a record holding the [terminals] map, the save timer,
      the rate-limit map, and the collaborators it talks to (pty processes,
      the session store, the renderer window, pending timeouts);
    - every method and every callback is a function on that record, and
      what it reads from the host (the clock, the window, the file system,
      whether [pty.spawn] or [kill] throws) comes in an [Env].

    Terminal objects live in a heap and the map holds references to them,
    because the callbacks of a pty keep the object they were created with
    even after the map has dropped or replaced it.

    What is assumed of the collaborators: the calls of the session store,
    [pty.write] and [pty.resize] return normally; the SHA-256 slug of a
    project path is not computed, the host maps a project path to its log
    directory; [console.log] is left out.

    The rate-limit store of the renderer, which keeps what the manager
    reports in [TERMINAL_RATE_LIMIT], is modelled beside it
    ([RateLimitStore]). *)

From Stdlib Require Import ZArith NArith Ascii String Decimal DecimalString.
From stdpp Require Import base option list sorting gmap.

Local Open Scope Z_scope.

(* ===================================================================== *)
(** * JavaScript strings *)
(* ===================================================================== *)

(** A string is its sequence of UTF-16 code units. *)
Abbreviation jstring := (list N).

(** A string literal made of ASCII characters. *)
Definition str (s : string) : jstring :=
  map N_of_ascii (list_ascii_of_string s).
Arguments str _%_string : simpl never.

(** [String(n)] for a non-negative integer. *)
Definition decimal (n : nat) : jstring :=
  str (NilEmpty.string_of_uint (Nat.to_uint n)).

(** Truthiness of [string | undefined]: the empty string and [undefined]
    are both falsy. *)
Definition truthy (o : option jstring) : bool :=
  match o with
  | Some (_ :: _) => true
  | _ => false
  end.

(** [a || b] on [string | undefined] with a string fallback. *)
Definition or_else (o : option jstring) (d : jstring) : jstring :=
  match o with
  | Some (c :: s) => c :: s
  | _ => d
  end.

(** [s.slice(start)]: a negative [start] counts from the end, and the
    resulting index is clamped to [0, s.length]. *)
Definition slice (start : Z) (s : jstring) : jstring :=
  let len := Z.of_nat (length s) in
  let from := if start <? 0 then Z.max (len + start) 0 else Z.min start len in
  drop (Z.to_nat from) s.

(** [s.endsWith(suffix)]. *)
Definition endsWith (suffix s : jstring) : bool :=
  bool_decide (drop (length s - length suffix) s = suffix).

(** [s.startsWith(prefix)], used by [replace]. *)
Fixpoint startsWith (prefix s : jstring) : bool :=
  match prefix, s with
  | [], _ => true
  | p :: prefix', c :: s' => (p =? c)%N && startsWith prefix' s'
  | _ :: _, [] => false
  end.

(** [s.replace(pat, by)] with a string pattern: only the first occurrence
    is replaced. *)
Fixpoint replace (pat by_ s : jstring) : jstring :=
  if startsWith pat s then by_ ++ drop (length pat) s
  else match s with
       | [] => []
       | c :: s' => c :: replace pat by_ s'
       end.

(** Line terminators and white space of ECMAScript ([\s], [trim], [.],
    [$] under the [m] flag). *)
Definition isLineTerminator (c : N) : bool :=
  ((c =? 10) || (c =? 13) || (c =? 8232) || (c =? 8233))%N.

Definition isWhiteSpace (c : N) : bool :=
  ((c =? 9) || (c =? 11) || (c =? 12) || (c =? 32) || (c =? 160)
   || (c =? 5760) || ((8192 <=? c) && (c <=? 8202)) || (c =? 8239)
   || (c =? 8287) || (c =? 12288) || (c =? 65279)
   || isLineTerminator c)%N.

Fixpoint trimStart (s : jstring) : jstring :=
  match s with
  | c :: s' => if isWhiteSpace c then trimStart s' else s
  | [] => []
  end.

(** [s.trim()]. *)
Definition trim (s : jstring) : jstring :=
  reverse (trimStart (reverse (trimStart s))).

(* ===================================================================== *)
(** * Regular expressions *)
(* ===================================================================== *)

Module Regex.

(** The fragment of the regex syntax that the module's patterns use.
    Quantifiers are applied to single-character matchers, except the
    optional group of the first session pattern. *)
Inductive citem :=
  | IChar (c : N)              (* a character in a class *)
  | IRange (lo hi : N)         (* lo-hi *)
  | ISpace.                    (* \s inside a class *)

Inductive cset :=
  | CChar (c : N)              (* a literal character *)
  | CSpace                     (* \s *)
  | CDot                       (* . *)
  | CClass (items : list citem). (* [...] *)

Inductive regex :=
  | REmpty
  | RSet (a : cset)
  | RSeq (r1 r2 : regex)
  | ROpt (r : regex)           (* (?:r)?  greedy *)
  | RStar (a : cset)           (* a*  greedy *)
  | RPlus (a : cset)           (* a+  greedy *)
  | RPlusLazy (a : cset)       (* a+? *)
  | RGroup (r : regex)         (* (r), capture group 1 *)
  | REol.                      (* $ *)

Record flags := { ignoreCase : bool; multiline : bool }.

(** Canonicalize of the non-unicode case-insensitive mode. Only ASCII
    letters are folded: the literal characters of the case-insensitive
    patterns are all ASCII, and Canonicalize never sends a code unit
    above 127 to one below 128. *)
Definition canonicalize (f : flags) (c : N) : N :=
  if (ignoreCase f && (97 <=? c) && (c <=? 122))%N then (c - 32)%N else c.

Definition swapcase (c : N) : N :=
  if ((97 <=? c) && (c <=? 122))%N then (c - 32)%N
  else if ((65 <=? c) && (c <=? 90))%N then (c + 32)%N
  else c.

Definition citem_mem (f : flags) (i : citem) (c : N) : bool :=
  match i with
  | IChar p => (canonicalize f p =? canonicalize f c)%N
  | IRange lo hi =>
      ((lo <=? c) && (c <=? hi))%N
      || (ignoreCase f && (lo <=? swapcase c) && (swapcase c <=? hi))%N
  | ISpace => isWhiteSpace c
  end.

Definition cset_mem (f : flags) (a : cset) (c : N) : bool :=
  match a with
  | CChar p => (canonicalize f p =? canonicalize f c)%N
  | CSpace => isWhiteSpace c
  | CDot => negb (isLineTerminator c)
  | CClass items => existsb (fun i => citem_mem f i c) items
  end.

(** [$]: end of input, or before a line terminator under the [m] flag. *)
Definition at_eol (f : flags) (s : jstring) : bool :=
  match s with
  | [] => true
  | c :: _ => multiline f && isLineTerminator c
  end.

Section Matcher.
Context {R : Type}.

(** Greedy [a*]: take as many characters as possible, give back one at
  a time. *)
Fixpoint star (p : N → bool) (s : jstring) (k : jstring → option R)
  : option R :=
  match s with
  | c :: s' =>
      if p c then
        match star p s' k with
        | Some r => Some r
        | None => k s
        end
      else k s
  | [] => k s
  end.

(** Lazy [a+?]: take one character, then try the continuation before
  taking more. *)
Fixpoint plus_lazy (p : N → bool) (s : jstring) (k : jstring → option R)
  : option R :=
  match s with
  | c :: s' =>
      if p c then
        match k s' with
        | Some r => Some r
        | None => plus_lazy p s' k
        end
      else None
  | [] => None
  end.

(** The backtracking matcher, in continuation-passing style: [k]
  receives the rest of the input and the current capture. *)
Fixpoint rmatch (f : flags) (r : regex) (s : jstring)
    (cap : option jstring)
    (k : jstring → option jstring → option R) : option R :=
  match r with
  | REmpty => k s cap
  | RSet a =>
      match s with
      | c :: s' => if cset_mem f a c then k s' cap else None
      | [] => None
      end
  | RSeq r1 r2 =>
      rmatch f r1 s cap (fun s' cap' => rmatch f r2 s' cap' k)
  | ROpt r1 =>
      match rmatch f r1 s cap k with
      | Some x => Some x
      | None => k s cap
      end
  | RStar a => star (cset_mem f a) s (fun s' => k s' cap)
  | RPlus a =>
      match s with
      | c :: s' =>
          if cset_mem f a c then star (cset_mem f a) s' (fun s'' => k s'' cap)
          else None
      | [] => None
      end
  | RPlusLazy a => plus_lazy (cset_mem f a) s (fun s' => k s' cap)
  | RGroup r1 =>
      rmatch f r1 s cap
        (fun s' _ => k s' (Some (take (length s - length s') s)))
  | REol => if at_eol f s then k s cap else None
  end.
End Matcher.

(** [s.match(re)] for a regex without the [g] flag: the leftmost start
    index at which the pattern matches; the result is capture group 1
    ([None] inside when the group did not take part). *)
Fixpoint exec (f : flags) (r : regex) (s : jstring)
  : option (option jstring) :=
  match rmatch f r s None (fun _ cap => Some cap) with
  | Some cap => Some cap
  | None =>
      match s with
      | [] => None
      | _ :: s' => exec f r s'
      end
  end.

(** A run of literal characters. *)
Definition lit_chars (cs : jstring) : regex :=
  foldr (fun c r => RSeq (RSet (CChar c)) r) REmpty cs.

Definition lit (s : string) : regex := lit_chars (str s).
Arguments lit _%_string.

Infix "⋅" := RSeq (at level 60, right associativity).

(** What the matcher can do, declaratively: [matches f r w rest cap cap']
    says that [r] can consume exactly [w] when [rest] follows, turning
    the capture [cap] into [cap']. *)
Fixpoint matches (f : flags) (r : regex) (w rest : jstring)
    (cap cap' : option jstring) : Prop :=
  match r with
  | REmpty => w = [] ∧ cap' = cap
  | RSet a => (∃ c, w = [c] ∧ cset_mem f a c = true) ∧ cap' = cap
  | RSeq r1 r2 =>
      ∃ w1 w2 capm, w = w1 ++ w2
        ∧ matches f r1 w1 (w2 ++ rest) cap capm
        ∧ matches f r2 w2 rest capm cap'
  | ROpt r1 => matches f r1 w rest cap cap' ∨ (w = [] ∧ cap' = cap)
  | RStar a => Forall (fun c => cset_mem f a c = true) w ∧ cap' = cap
  | RPlus a | RPlusLazy a =>
      (w ≠ [] ∧ Forall (fun c => cset_mem f a c = true) w) ∧ cap' = cap
  | RGroup r1 => (∃ c0, matches f r1 w rest cap c0) ∧ cap' = Some w
  | REol => (w = [] ∧ at_eol f rest = true) ∧ cap' = cap
  end.

End Regex.

Import Regex.

(* ===================================================================== *)
(** * The patterns of the module *)
(* ===================================================================== *)

(** [[a-zA-Z0-9_-]] *)
Definition token_class : cset :=
  CClass [IRange 97 122; IRange 65 90; IRange 48 57; IChar 95; IChar 45].

(** The class of the two key-value patterns: the double quote (code 34),
    [\s], [:] and [=]. *)
Definition separator_class : cset :=
  CClass [IChar 34; ISpace; IChar 58; IChar 61].

Definition flags_i : flags := {| ignoreCase := true; multiline := false |}.
Definition flags_m : flags := {| ignoreCase := false; multiline := true |}.

(** [/Session(?:\s+ID)?:\s*([a-zA-Z0-9_-]+)/i] *)
Definition SESSION_LABEL : regex :=
  lit "Session" ⋅ ROpt (RPlus CSpace ⋅ lit "ID") ⋅ lit ":" ⋅ RStar CSpace
    ⋅ RGroup (RPlus token_class).

(** [/session[_-]?id[Q\s:=]+([a-zA-Z0-9_-]+)/i], Q the double quote. *)
Definition SESSION_ID_KEY : regex :=
  lit "session" ⋅ ROpt (RSet (CClass [IChar 95; IChar 45])) ⋅ lit "id"
    ⋅ RPlus separator_class ⋅ RGroup (RPlus token_class).

(** [/Resuming session:\s*([a-zA-Z0-9_-]+)/i] *)
Definition RESUMING_SESSION : regex :=
  lit "Resuming session:" ⋅ RStar CSpace ⋅ RGroup (RPlus token_class).

(** [/conversation[_-]?id[Q\s:=]+([a-zA-Z0-9_-]+)/i], Q the double quote. *)
Definition CONVERSATION_ID_KEY : regex :=
  lit "conversation" ⋅ ROpt (RSet (CClass [IChar 95; IChar 45])) ⋅ lit "id"
    ⋅ RPlus separator_class ⋅ RGroup (RPlus token_class).

Definition CLAUDE_SESSION_PATTERNS : list regex :=
  [SESSION_LABEL; SESSION_ID_KEY; RESUMING_SESSION; CONVERSATION_ID_KEY].

(** [/Limit reached\s*[·•]\s*resets\s+(.+?)$/m]; the two separators are
    U+00B7 and U+2022. *)
Definition RATE_LIMIT_PATTERN : regex :=
  lit "Limit reached" ⋅ RStar CSpace ⋅ RSet (CClass [IChar 183; IChar 8226])
    ⋅ RStar CSpace ⋅ lit "resets" ⋅ RPlus CSpace ⋅ RGroup (RPlusLazy CDot)
    ⋅ REol.

(** The loop of [extractClaudeSessionId] over a pattern list: the first
    pattern with a match and a truthy group 1 returns. *)
Fixpoint first_match (patterns : list regex) (data : jstring)
  : option jstring :=
  match patterns with
  | [] => None
  | pattern :: rest =>
      match exec flags_i pattern data with
      | Some (Some (c :: tok)) => Some (c :: tok)
      | _ => first_match rest data
      end
  end.

Definition extractClaudeSessionId (data : jstring) : option jstring :=
  first_match CLAUDE_SESSION_PATTERNS data.

(** The priority list as the specification words it: the "Session:"
    label, then the session_id and conversation_id key-value forms, then
    the "Resuming session:" phrase. *)
Definition SPEC_PRIORITY : list regex :=
  [SESSION_LABEL; SESSION_ID_KEY; CONVERSATION_ID_KEY; RESUMING_SESSION].

Definition extract_by_spec_priority (data : jstring) : option jstring :=
  first_match SPEC_PRIORITY data.

(** A pattern whose last element is the capturing group
    [([a-zA-Z0-9_-]+)]. *)
Fixpoint ends_in_token (r : regex) : Prop :=
  match r with
  | RSeq _ r2 => ends_in_token r2
  | RGroup (RPlus a) => a = token_class
  | _ => False
  end.

(** The character set of a captured identifier. *)
Definition is_token_char (c : N) : bool :=
  (((48 <=? c) && (c <=? 57)) || ((65 <=? c) && (c <=? 90))
   || ((97 <=? c) && (c <=? 122)) || (c =? 95) || (c =? 45))%N.

(** [data.match(RATE_LIMIT_PATTERN)] followed by [match[1].trim()]; group
    1 takes part in every match of this pattern. *)
Definition rateLimitResetTime (data : jstring) : option jstring :=
  match exec flags_m RATE_LIMIT_PATTERN data with
  | Some (Some cap) => Some (trim cap)
  | Some None => Some []
  | None => None
  end.

(* ===================================================================== *)
(** * Data model *)
(* ===================================================================== *)

(** A persisted session, the shape handed to and received from the
    session store. The two dates are milliseconds since the epoch (the
    source stores their ISO rendering). *)
Record TerminalSession := {
  ts_id : jstring;
  ts_title : jstring;
  ts_cwd : jstring;
  ts_projectPath : jstring;
  ts_isClaudeMode : bool;
  ts_claudeSessionId : option jstring;
  ts_outputBuffer : jstring;
  ts_createdAt : Z;
  ts_lastActiveAt : Z
}.

(** The session store is a collaborator reached through
    [getTerminalSessionStore()]; the manager only uses these calls. *)
Class SessionStore (S : Type) := {
  saveSession : TerminalSession → S → S;
  getSession : jstring → jstring → S → option TerminalSession;
  removeSession : jstring → jstring → S → S;
  updateClaudeSessionId : jstring → jstring → jstring → S → S;
  getSessions : jstring → S → list TerminalSession;
  clearProjectSessions : jstring → S → S
}.

(** The in-memory record of a terminal; [tp_pty] is the handle of its
    pty process. *)
Record TerminalProcess := {
  tp_id : jstring;
  tp_pty : nat;
  tp_isClaudeMode : bool;
  tp_projectPath : option jstring;
  tp_cwd : jstring;
  tp_claudeSessionId : option jstring;
  tp_outputBuffer : jstring;
  tp_title : jstring
}.

Definition with_isClaudeMode (b : bool) (t : TerminalProcess) :=
  {| tp_id := tp_id t; tp_pty := tp_pty t; tp_isClaudeMode := b;
     tp_projectPath := tp_projectPath t; tp_cwd := tp_cwd t;
     tp_claudeSessionId := tp_claudeSessionId t;
     tp_outputBuffer := tp_outputBuffer t; tp_title := tp_title t |}.

Definition with_claudeSessionId (o : option jstring) (t : TerminalProcess) :=
  {| tp_id := tp_id t; tp_pty := tp_pty t; tp_isClaudeMode := tp_isClaudeMode t;
     tp_projectPath := tp_projectPath t; tp_cwd := tp_cwd t;
     tp_claudeSessionId := o;
     tp_outputBuffer := tp_outputBuffer t; tp_title := tp_title t |}.

Definition with_outputBuffer (b : jstring) (t : TerminalProcess) :=
  {| tp_id := tp_id t; tp_pty := tp_pty t; tp_isClaudeMode := tp_isClaudeMode t;
     tp_projectPath := tp_projectPath t; tp_cwd := tp_cwd t;
     tp_claudeSessionId := tp_claudeSessionId t;
     tp_outputBuffer := b; tp_title := tp_title t |}.

Definition with_title (s : jstring) (t : TerminalProcess) :=
  {| tp_id := tp_id t; tp_pty := tp_pty t; tp_isClaudeMode := tp_isClaudeMode t;
     tp_projectPath := tp_projectPath t; tp_cwd := tp_cwd t;
     tp_claudeSessionId := tp_claudeSessionId t;
     tp_outputBuffer := tp_outputBuffer t; tp_title := s |}.

(** A pty process as the manager sees it: the arguments of [pty.spawn],
    what was written to it, its size, whether it was killed or has
    exited, and the terminal object its [onData] and [onExit] closures
    captured. *)
Record Pty := {
  pty_file : jstring;
  pty_args : list jstring;
  pty_cols : Z;
  pty_rows : Z;
  pty_cwd : jstring;
  pty_input : list jstring;
  pty_killed : bool;
  pty_terminal : nat
}.

Definition pty_written (data : jstring) (p : Pty) :=
  {| pty_file := pty_file p; pty_args := pty_args p; pty_cols := pty_cols p;
     pty_rows := pty_rows p; pty_cwd := pty_cwd p;
     pty_input := pty_input p ++ [data]; pty_killed := pty_killed p;
     pty_terminal := pty_terminal p |}.

Definition pty_resized (cols rows : Z) (p : Pty) :=
  {| pty_file := pty_file p; pty_args := pty_args p; pty_cols := cols;
     pty_rows := rows; pty_cwd := pty_cwd p;
     pty_input := pty_input p; pty_killed := pty_killed p;
     pty_terminal := pty_terminal p |}.

Definition pty_dead (p : Pty) :=
  {| pty_file := pty_file p; pty_args := pty_args p; pty_cols := pty_cols p;
     pty_rows := pty_rows p; pty_cwd := pty_cwd p;
     pty_input := pty_input p; pty_killed := true;
     pty_terminal := pty_terminal p |}.

(** A value caught by [catch]: an [Error] with its message, or anything
    else. *)
Inductive thrown :=
  | ErrorObj (message : jstring)
  | NonError.

(** [error instanceof Error ? error.message : fallback] *)
Definition message_or (e : thrown) (fallback : jstring) : jstring :=
  match e with
  | ErrorObj m => m
  | NonError => fallback
  end.

(** What [webContents.send] delivered to the renderer. *)
Inductive Notification :=
  | TERMINAL_OUTPUT (id data : jstring)
  | TERMINAL_EXIT (id : jstring) (exitCode : Z)
  | TERMINAL_CLAUDE_SESSION (id sessionId : jstring)
  | TERMINAL_RATE_LIMIT (terminalId resetTime : jstring) (detectedAt : Z)
  | TERMINAL_TITLE_CHANGE (id title : jstring).

(** The callbacks handed to [setTimeout]. [CheckForSession] is the
    closure of [captureClaudeSessionId] with its [attempts] counter;
    [RestoreResume] is the rest of [restore] after its [await]. *)
Inductive TimerAction :=
  | CheckForSession (terminalId projectPath : jstring) (startTime : Z)
      (attempts : nat)
  | RestoreResume (session : TerminalSession) (terminal : nat).

Record Timer := { due : Z; action : TimerAction }.

(** A session log directory of the assistant tool. *)
Record File := { name : jstring; mtime : Z }.

Inductive Dir :=
  | DirMissing                 (* existsSync is false *)
  | DirError                   (* readdirSync or statSync throws *)
  | DirFiles (files : list File).

(** What a handler reads from the host while it runs. *)
Record Env := {
  now : Z;                          (* Date.now() *)
  window : bool;                    (* getWindow() is not null *)
  homedir : jstring;                (* os.homedir() *)
  platform : jstring;               (* process.platform *)
  COMSPEC : option jstring;
  SHELL : option jstring;
  spawnThrows : option thrown;      (* pty.spawn throws this *)
  killThrows : nat → option thrown; (* kill of this pty throws this *)
  claudeProjectDir : jstring → Dir  (* the log directory of a project *)
}.

(** What [create], [restore] and [destroy] resolve to. *)
Record Result := {
  success : bool;
  error : option jstring;
  res_outputBuffer : option jstring
}.

Definition ok : Result :=
  {| success := true; error := None; res_outputBuffer := None |}.
Definition failure (msg : jstring) : Result :=
  {| success := false; error := Some msg; res_outputBuffer := None |}.

Record TerminalCreateOptions := {
  opt_id : jstring;
  opt_cwd : option jstring;
  opt_cols : option Z;
  opt_rows : option Z;
  opt_projectPath : option jstring
}.

(* ===================================================================== *)
(** * The [terminals] map *)
(* ===================================================================== *)

(** A JavaScript [Map] keeps insertion order; values are references to
    terminal objects. *)
Abbreviation TerminalMap := (list (jstring * nat)).

Fixpoint Map_get (id : jstring) (m : TerminalMap) : option nat :=
  match m with
  | [] => None
  | (k, r) :: m' => if decide (k = id) then Some r else Map_get id m'
  end.

Definition Map_has (id : jstring) (m : TerminalMap) : bool :=
  match Map_get id m with Some _ => true | None => false end.

Fixpoint Map_set (id : jstring) (r : nat) (m : TerminalMap) : TerminalMap :=
  match m with
  | [] => [(id, r)]
  | (k, r') :: m' =>
      if decide (k = id) then (k, r) :: m' else (k, r') :: Map_set id r m'
  end.

Definition Map_delete (id : jstring) (m : TerminalMap) : TerminalMap :=
  filter (fun kr => kr.1 ≠ id) m.

(* ===================================================================== *)
(** * Directory scan *)
(* ===================================================================== *)

Definition JSONL : jstring := str ".jsonl".

(** [files.sort((a, b) => b.mtime - a.mtime)]: the stable sort, most
    recent first. *)
Fixpoint insert_desc (f : File) (l : list File) : list File :=
  match l with
  | [] => [f]
  | g :: l' => if mtime f <? mtime g then g :: insert_desc f l' else f :: l
  end.

Definition sort_desc (l : list File) : list File := foldr insert_desc [] l.

(** Most recent first. *)
Definition newer_first (a b : File) : Prop := mtime b ≤ mtime a.

(** A file that the scan with cutoff [afterTimestamp] considers. *)
Definition qualifies (afterTimestamp : Z) (f : File) : Prop :=
  endsWith JSONL (name f) = true ∧ afterTimestamp < mtime f.

Definition findMostRecentClaudeSession (e : Env) (projectPath : jstring)
  : option jstring :=
  match claudeProjectDir e projectPath with
  | DirMissing => None
  | DirError => None
  | DirFiles fs =>
      match sort_desc (filter (fun f => endsWith JSONL (name f) = true) fs) with
      | [] => None
      | f :: _ => Some (replace JSONL [] (name f))
      end
  end.

Definition findClaudeSessionAfter (e : Env) (projectPath : jstring)
    (afterTimestamp : Z) : option jstring :=
  match claudeProjectDir e projectPath with
  | DirMissing => None
  | DirError => None
  | DirFiles fs =>
      match sort_desc (filter (fun f => afterTimestamp < mtime f)
                         (filter (fun f => endsWith JSONL (name f) = true) fs)) with
      | [] => None
      | f :: _ => Some (replace JSONL [] (name f))
      end
  end.

(** The buffer of the [r]-th terminal object of a heap (empty when there
    is no such object yet). *)
Definition buf_at (r : nat) (hp : list TerminalProcess) : jstring :=
  match hp !! r with
  | Some t => tp_outputBuffer t
  | None => []
  end.

(** How the heap of terminal objects can change: objects are updated in
    place, each update being allowed by [ok], and new objects are added
    at the end; nothing is ever removed. *)
Inductive evolves (ok : TerminalProcess → TerminalProcess → Prop)
    : list TerminalProcess → list TerminalProcess → Prop :=
  | evolves_refl hp : evolves ok hp hp
  | evolves_alter hp hp' r f :
      evolves ok hp hp' →
      (∀ t, hp' !! r = Some t → ok t (f t)) →
      evolves ok hp (alter f r hp')
  | evolves_push hp hp' t :
      evolves ok hp hp' → evolves ok hp (hp' ++ [t]).

(** Two relations between the states of one terminal object. *)
Definition same_buffer (t t' : TerminalProcess) : Prop :=
  tp_outputBuffer t' = tp_outputBuffer t.

Definition keeps_session (t t' : TerminalProcess) : Prop :=
  truthy (tp_claudeSessionId t) = true →
  tp_claudeSessionId t' = tp_claudeSessionId t.

Definition same_mode (t t' : TerminalProcess) : Prop :=
  tp_id t' = tp_id t ∧ tp_isClaudeMode t' = tp_isClaudeMode t.

(** The rate-limit notifications among what was sent. *)
Definition rate_limits (ns : list Notification) : list Notification :=
  List.filter (fun n => match n with
                        | TERMINAL_RATE_LIMIT _ _ _ => true
                        | _ => false
                        end) ns.

(** The buffer update of [onData]. *)
Definition append_output (data : jstring) (t : TerminalProcess)
  : TerminalProcess :=
  with_outputBuffer (slice (-100000) (tp_outputBuffer t ++ data)) t.

(** The output notifications among what was sent. *)
Definition output_notifications (ns : list Notification) : list Notification :=
  List.filter (fun n => match n with
                        | TERMINAL_OUTPUT _ _ => true
                        | _ => false
                        end) ns.


(** What [create] fixes for good: of a terminal object, its id, its
    pty, its project path and its working directory ... *)
Definition identity (t : TerminalProcess)
  : jstring * nat * option jstring * jstring :=
  (tp_id t, tp_pty t, tp_projectPath t, tp_cwd t).

(** ... and of a pty, the arguments of [pty.spawn] and the terminal
    object that its callbacks captured. *)
Definition spawned (p : Pty) : jstring * list jstring * jstring * nat :=
  (pty_file p, pty_args p, pty_cwd p, pty_terminal p).

(** A terminal object that is in Claude mode stays in Claude mode. *)
Definition stays_claude (t t' : TerminalProcess) : Prop :=
  tp_isClaudeMode t = true → tp_isClaudeMode t' = true.

Definition same_title (t t' : TerminalProcess) : Prop :=
  tp_title t' = tp_title t.

(* ===================================================================== *)
(** * The manager *)
(* ===================================================================== *)

Section TerminalManager.
Context {S : Type} `{!SessionStore S}.

(** The fields of the class ([terminals], [saveTimer],
  [rateLimitNotifiedAt]) and the world around it. Terminal objects
  live in [heap] and are named by their index, so that a closure and
  the map can share one object. *)
Record Manager := {
  heap : list TerminalProcess;
  terminals : TerminalMap;
  saveTimer : option Z;                (* the interval, when it runs *)
  rateLimitNotifiedAt : gmap jstring Z;
  ptys : list Pty;
  store : S;
  sent : list Notification;
  timers : list Timer
}.

Definition set_heap (h : list TerminalProcess) (st : Manager) :=
  {| heap := h; terminals := terminals st; saveTimer := saveTimer st;
     rateLimitNotifiedAt := rateLimitNotifiedAt st; ptys := ptys st;
     store := store st; sent := sent st; timers := timers st |}.
Definition set_terminals (m : TerminalMap) (st : Manager) :=
  {| heap := heap st; terminals := m; saveTimer := saveTimer st;
     rateLimitNotifiedAt := rateLimitNotifiedAt st; ptys := ptys st;
     store := store st; sent := sent st; timers := timers st |}.
Definition set_saveTimer (t : option Z) (st : Manager) :=
  {| heap := heap st; terminals := terminals st; saveTimer := t;
     rateLimitNotifiedAt := rateLimitNotifiedAt st; ptys := ptys st;
     store := store st; sent := sent st; timers := timers st |}.
Definition set_rateLimitNotifiedAt (m : gmap jstring Z) (st : Manager) :=
  {| heap := heap st; terminals := terminals st; saveTimer := saveTimer st;
     rateLimitNotifiedAt := m; ptys := ptys st;
     store := store st; sent := sent st; timers := timers st |}.
Definition set_ptys (p : list Pty) (st : Manager) :=
  {| heap := heap st; terminals := terminals st; saveTimer := saveTimer st;
     rateLimitNotifiedAt := rateLimitNotifiedAt st; ptys := p;
     store := store st; sent := sent st; timers := timers st |}.
Definition set_store (s : S) (st : Manager) :=
  {| heap := heap st; terminals := terminals st; saveTimer := saveTimer st;
     rateLimitNotifiedAt := rateLimitNotifiedAt st; ptys := ptys st;
     store := s; sent := sent st; timers := timers st |}.
Definition set_sent (n : list Notification) (st : Manager) :=
  {| heap := heap st; terminals := terminals st; saveTimer := saveTimer st;
     rateLimitNotifiedAt := rateLimitNotifiedAt st; ptys := ptys st;
     store := store st; sent := n; timers := timers st |}.
Definition set_timers (t : list Timer) (st : Manager) :=
  {| heap := heap st; terminals := terminals st; saveTimer := saveTimer st;
     rateLimitNotifiedAt := rateLimitNotifiedAt st; ptys := ptys st;
     store := store st; sent := sent st; timers := t |}.

(** The constructor: empty maps, and the 30-second save interval. *)
Definition new_manager (s : S) : Manager :=
  {| heap := []; terminals := []; saveTimer := Some 30000;
     rateLimitNotifiedAt := ∅; ptys := []; store := s; sent := [];
     timers := [] |}.

(** [this.terminals.get(id)], with the object it refers to. *)
Definition lookup_terminal (id : jstring) (st : Manager)
  : option (nat * TerminalProcess) :=
  r ← Map_get id (terminals st);
  t ← heap st !! r;
  Some (r, t).

Definition update_terminal (r : nat) (f : TerminalProcess → TerminalProcess)
    (st : Manager) : Manager :=
  set_heap (alter f r (heap st)) st.

(** [win.webContents.send(...)] under [if (win)]. *)
Definition send (e : Env) (n : Notification) (st : Manager) : Manager :=
  if window e then set_sent (sent st ++ [n]) st else st.

Definition setTimeout (delay : Z) (a : TimerAction) (e : Env)
    (st : Manager) : Manager :=
  set_timers (timers st ++ [{| due := now e + delay; action := a |}]) st.

Definition pty_write (h : nat) (data : jstring) (st : Manager) : Manager :=
  set_ptys (alter (pty_written data) h (ptys st)) st.

(** [store.X(...)] under [if (terminal.projectPath)]. *)
Definition with_projectPath (o : option jstring) (f : jstring → S → S)
    (st : Manager) : Manager :=
  match o with
  | Some (c :: pp) => set_store (f (c :: pp) (store st)) st
  | _ => st
  end.

(** ** persistAllSessions *)

Definition snapshot (e : Env) (t : TerminalProcess) (projectPath : jstring)
  : TerminalSession :=
  {| ts_id := tp_id t; ts_title := tp_title t; ts_cwd := tp_cwd t;
     ts_projectPath := projectPath;
     ts_isClaudeMode := tp_isClaudeMode t;
     ts_claudeSessionId := tp_claudeSessionId t;
     ts_outputBuffer := tp_outputBuffer t;
     ts_createdAt := now e; ts_lastActiveAt := now e |}.

Definition persist_one (e : Env) (hp : list TerminalProcess) (s : S)
    (entry : jstring * nat) : S :=
  match hp !! entry.2 with
  | Some t =>
      match tp_projectPath t with
      | Some (c :: pp) => saveSession (snapshot e t (c :: pp)) s
      | _ => s
      end
  | None => s
  end.

Definition persistAllSessions (e : Env) (st : Manager) : Manager :=
  set_store (foldl (persist_one e (heap st)) (store st) (terminals st)) st.

(** ** create *)

Definition WIN32 : jstring := str "win32".

Definition shell_of (e : Env) : jstring :=
  if decide (platform e = WIN32) then or_else (COMSPEC e) (str "cmd.exe")
  else or_else (SHELL e) (str "/bin/zsh").

Definition shellArgs_of (e : Env) : list jstring :=
  if decide (platform e = WIN32) then [] else [str "-l"].

(** The pty that [pty.spawn] returns; [r] is the terminal object that
  its callbacks capture. *)
Definition new_pty (e : Env) (options : TerminalCreateOptions) (r : nat)
  : Pty :=
  {| pty_file := shell_of e; pty_args := shellArgs_of e;
     pty_cols := default 80 (opt_cols options);
     pty_rows := default 24 (opt_rows options);
     pty_cwd := or_else (opt_cwd options) (homedir e);
     pty_input := []; pty_killed := false; pty_terminal := r |}.

(** The [terminal] object literal; [h] is the pty handle and [size] is
  [this.terminals.size]. *)
Definition new_terminal (e : Env) (options : TerminalCreateOptions)
    (h size : nat) : TerminalProcess :=
  {| tp_id := opt_id options; tp_pty := h; tp_isClaudeMode := false;
     tp_projectPath := opt_projectPath options;
     tp_cwd := or_else (opt_cwd options) (homedir e);
     tp_claudeSessionId := None;
     tp_outputBuffer := [];
     tp_title := str "Terminal " ++ decimal (size + 1) |}.

Definition initial_session (e : Env) (terminal : TerminalProcess)
    (projectPath : jstring) : TerminalSession :=
  {| ts_id := tp_id terminal; ts_title := tp_title terminal;
     ts_cwd := tp_cwd terminal; ts_projectPath := projectPath;
     ts_isClaudeMode := false; ts_claudeSessionId := None;
     ts_outputBuffer := [];
     ts_createdAt := now e; ts_lastActiveAt := now e |}.

Definition create (e : Env) (options : TerminalCreateOptions)
    (st : Manager) : Manager * Result :=
  let id := opt_id options in
  if Map_has id (terminals st) then (st, ok)
  else
    match spawnThrows e with
    | Some err =>
        (st, failure (message_or err (str "Failed to create terminal")))
    | None =>
        let r := length (heap st) in
        let h := length (ptys st) in
        let terminal := new_terminal e options h (length (terminals st)) in
        let st1 := set_ptys (ptys st ++ [new_pty e options r]) st in
        let st2 := set_heap (heap st1 ++ [terminal]) st1 in
        let st3 := set_terminals (Map_set id r (terminals st2)) st2 in
        let st4 :=
          with_projectPath (opt_projectPath options)
            (fun pp => saveSession (initial_session e terminal pp)) st3 in
        (st4, ok)
    end.

(** ** The pty callbacks *)

(** The session-id part of [onData]; [r] is the captured terminal. *)
Definition onData_session (e : Env) (r : nat) (data : jstring)
    (st : Manager) : Manager :=
  match heap st !! r with
  | Some terminal =>
      if tp_isClaudeMode terminal && negb (truthy (tp_claudeSessionId terminal))
      then
        match extractClaudeSessionId data with
        | Some (c :: sid) =>
            let sessionId := c :: sid in
            let st1 := update_terminal r (with_claudeSessionId (Some sessionId)) st in
            let st2 :=
              with_projectPath (tp_projectPath terminal)
                (fun pp => updateClaudeSessionId pp (tp_id terminal) sessionId)
                st1 in
            send e (TERMINAL_CLAUDE_SESSION (tp_id terminal) sessionId) st2
        | _ => st
        end
      else st
  | None => st
  end.

(** The rate-limit part of [onData]. *)
Definition onData_rateLimit (e : Env) (r : nat) (data : jstring)
    (st : Manager) : Manager :=
  match heap st !! r with
  | Some terminal =>
      if tp_isClaudeMode terminal then
        match rateLimitResetTime data with
        | Some resetTime =>
            let id := tp_id terminal in
            let lastNotified := default 0 (rateLimitNotifiedAt st !! id) in
            if 60000 <? now e - lastNotified then
              let st1 :=
                set_rateLimitNotifiedAt
                  (<[id := now e]> (rateLimitNotifiedAt st)) st in
              send e (TERMINAL_RATE_LIMIT id resetTime (now e)) st1
            else st
        | None => st
        end
      else st
  | None => st
  end.

Definition onData (e : Env) (r : nat) (data : jstring) (st : Manager)
  : Manager :=
  match heap st !! r with
  | Some terminal =>
      let st1 := update_terminal r (append_output data) st in
      let st2 := onData_session e r data st1 in
      let st3 := onData_rateLimit e r data st2 in
      send e (TERMINAL_OUTPUT (tp_id terminal) data) st3
  | None => st
  end.

Definition onExit (e : Env) (r : nat) (exitCode : Z) (st : Manager)
  : Manager :=
  match heap st !! r with
  | Some terminal =>
      let id := tp_id terminal in
      let st1 := send e (TERMINAL_EXIT id exitCode) st in
      let st2 :=
        with_projectPath (tp_projectPath terminal)
          (fun pp => removeSession pp id) st1 in
      set_terminals (Map_delete id (terminals st2)) st2
  | None => st
  end.

(** ** Polling capture *)

Definition adopt_session (e : Env) (r : nat) (terminal : TerminalProcess)
    (terminalId sessionId : jstring) (st : Manager) : Manager :=
  let st1 := update_terminal r (with_claudeSessionId (Some sessionId)) st in
  let st2 :=
    with_projectPath (tp_projectPath terminal)
      (fun pp => updateClaudeSessionId pp terminalId sessionId) st1 in
  send e (TERMINAL_CLAUDE_SESSION terminalId sessionId) st2.

Definition maxAttempts : nat := 10.

(** One run of the [checkForSession] closure; [attempts] is the value
  of the counter before this run. *)
Definition checkForSession (e : Env) (terminalId projectPath : jstring)
    (startTime : Z) (attempts : nat) (st : Manager) : Manager :=
  let attempts := Datatypes.S attempts in
  match lookup_terminal terminalId st with
  | None => st
  | Some (r, currentTerminal) =>
      if negb (tp_isClaudeMode currentTerminal) then st
      else if truthy (tp_claudeSessionId currentTerminal) then st
      else
        match findClaudeSessionAfter e projectPath startTime with
        | Some (c :: sid) =>
            adopt_session e r currentTerminal terminalId (c :: sid) st
        | _ =>
            if (attempts <? maxAttempts)%nat then
              setTimeout 1000
                (CheckForSession terminalId projectPath startTime attempts)
                e st
            else st
        end
  end.

Definition captureClaudeSessionId (e : Env) (terminalId projectPath : jstring)
    (startTime : Z) (st : Manager) : Manager :=
  match Map_get terminalId (terminals st) with
  | None => st
  | Some _ =>
      setTimeout 2000 (CheckForSession terminalId projectPath startTime 0)
        e st
  end.

(** ** restore *)

Definition QUOTE : jstring := [34%N].
Definition CR : jstring := [13%N].
Definition CLAUDE : jstring := str "Claude".

(** The part of [restore] after the one-second [await]; [r] is the
  [terminal] object the first part looked up. *)
Definition restoreResume (e : Env) (session : TerminalSession) (r : nat)
    (st : Manager) : Manager * Result :=
  let result :=
    {| success := true; error := None;
       res_outputBuffer := Some (ts_outputBuffer session) |} in
  match heap st !! r with
  | None => (st, result)
  | Some terminal =>
      let st1 :=
        update_terminal r
          (fun t => with_claudeSessionId (ts_claudeSessionId session)
                      (with_isClaudeMode true t)) st in
      let projectDir := or_else (Some (ts_cwd session)) (ts_projectPath session) in
      let startTime := now e in
      let resumeCommand :=
        match ts_claudeSessionId session with
        | Some (c :: sid) =>
            str "clear && cd " ++ QUOTE ++ projectDir ++ QUOTE
              ++ str " && claude --resume " ++ QUOTE ++ (c :: sid) ++ QUOTE
        | _ =>
            str "clear && cd " ++ QUOTE ++ projectDir ++ QUOTE
              ++ str " && claude --resume"
        end in
      let st2 := pty_write (tp_pty terminal) (resumeCommand ++ CR) st1 in
      let st3 := send e (TERMINAL_TITLE_CHANGE (ts_id session) CLAUDE) st2 in
      let st4 :=
        if negb (truthy (ts_claudeSessionId session)) && truthy (Some projectDir)
        then captureClaudeSessionId e (ts_id session) projectDir startTime st3
        else st3 in
      (st4, result)
  end.

(** The options that [restore] passes to [create]. *)
Definition restore_options (session : TerminalSession) (cols rows : option Z)
  : TerminalCreateOptions :=
  {| opt_id := ts_id session; opt_cwd := Some (ts_cwd session);
     opt_cols := Some (default 80 cols); opt_rows := Some (default 24 rows);
     opt_projectPath := Some (ts_projectPath session) |}.

(** [restore] up to its [await]: the result is [None] while the
  promise is pending on the one-second timeout. *)
Definition restore (e : Env) (session : TerminalSession)
    (cols rows : option Z) (st : Manager) : Manager * option Result :=
  let '(st1, result) := create e (restore_options session cols rows) st in
  if negb (success result) then (st1, Some result)
  else
    match lookup_terminal (ts_id session) st1 with
    | None => (st1, Some (failure (str "Terminal not found after creation")))
    | Some (r, _) =>
        let st2 := update_terminal r (with_title (ts_title session)) st1 in
        if ts_isClaudeMode session then
          (setTimeout 1000 (RestoreResume session r) e st2, None)
        else
          (st2, Some {| success := true; error := None;
                        res_outputBuffer := Some (ts_outputBuffer session) |})
    end.

(** ** destroy, write, resize *)

Definition destroy (e : Env) (id : jstring) (st : Manager)
  : Manager * Result :=
  match lookup_terminal id st with
  | None => (st, failure (str "Terminal not found"))
  | Some (r, terminal) =>
      let st1 :=
        with_projectPath (tp_projectPath terminal)
          (fun pp => removeSession pp id) st in
      match killThrows e (tp_pty terminal) with
      | Some err =>
          (st1, failure (message_or err (str "Failed to destroy terminal")))
      | None =>
          let st2 := set_ptys (alter pty_dead (tp_pty terminal) (ptys st1)) st1 in
          (set_terminals (Map_delete id (terminals st2)) st2, ok)
      end
  end.

Definition write (id data : jstring) (st : Manager) : Manager :=
  match lookup_terminal id st with
  | Some (_, terminal) => pty_write (tp_pty terminal) data st
  | None => st
  end.

Definition resize (id : jstring) (cols rows : Z) (st : Manager) : Manager :=
  match lookup_terminal id st with
  | Some (_, terminal) =>
      set_ptys (alter (pty_resized cols rows) (tp_pty terminal) (ptys st)) st
  | None => st
  end.

(** ** invokeClaude, resumeClaude *)

Definition invokeClaude (e : Env) (id : jstring) (cwd : option jstring)
    (st : Manager) : Manager :=
  match lookup_terminal id st with
  | None => st
  | Some (r, terminal) =>
      let st1 :=
        update_terminal r
          (fun t => with_claudeSessionId None (with_isClaudeMode true t)) st in
      let startTime := now e in
      let projectPath :=
        or_else cwd (or_else (tp_projectPath terminal) (tp_cwd terminal)) in
      let cwdCommand :=
        match cwd with
        | Some (c :: d) => str "cd " ++ QUOTE ++ (c :: d) ++ QUOTE ++ str " && "
        | _ => []
        end in
      let st2 := pty_write (tp_pty terminal) (cwdCommand ++ str "claude" ++ CR) st1 in
      let st3 := send e (TERMINAL_TITLE_CHANGE id CLAUDE) st2 in
      let st4 :=
        with_projectPath (tp_projectPath terminal)
          (fun pp s =>
             match getSession pp id s with
             | Some session =>
                 saveSession
                   {| ts_id := ts_id session; ts_title := ts_title session;
                      ts_cwd := ts_cwd session;
                      ts_projectPath := ts_projectPath session;
                      ts_isClaudeMode := true;
                      ts_claudeSessionId := ts_claudeSessionId session;
                      ts_outputBuffer := ts_outputBuffer session;
                      ts_createdAt := ts_createdAt session;
                      ts_lastActiveAt := now e |} s
             | None => s
             end) st3 in
      if truthy (Some projectPath)
      then captureClaudeSessionId e id projectPath startTime st4
      else st4
  end.

Definition resumeClaude (e : Env) (id : jstring) (sessionId : option jstring)
    (st : Manager) : Manager :=
  match lookup_terminal id st with
  | None => st
  | Some (r, terminal) =>
      let st1 := update_terminal r (with_isClaudeMode true) st in
      let '(command, st2) :=
        match sessionId with
        | Some (c :: sid) =>
            (str "claude --resume " ++ QUOTE ++ (c :: sid) ++ QUOTE,
             update_terminal r (with_claudeSessionId (Some (c :: sid))) st1)
        | _ => (str "claude --continue", st1)
        end in
      let st3 := pty_write (tp_pty terminal) (command ++ CR) st2 in
      send e (TERMINAL_TITLE_CHANGE id CLAUDE) st3
  end.

(** ** killAll and the accessors *)

(** One turn of the kill loop: [try { terminal.pty.kill() } catch {}]. *)
Definition kill_quietly (e : Env) (hp : list TerminalProcess)
    (ps : list Pty) (entry : jstring * nat) : list Pty :=
  match hp !! entry.2 with
  | Some terminal =>
      match killThrows e (tp_pty terminal) with
      | Some _ => ps
      | None => alter pty_dead (tp_pty terminal) ps
      end
  | None => ps
  end.

Definition killAll (e : Env) (st : Manager) : Manager :=
  let st1 := persistAllSessions e st in
  let st2 :=
    match saveTimer st1 with
    | Some _ => set_saveTimer None st1
    | None => st1
    end in
  let st3 :=
    set_ptys (foldl (kill_quietly e (heap st2)) (ptys st2) (terminals st2)) st2 in
  set_terminals [] st3.

Definition getSavedSessions (projectPath : jstring) (st : Manager)
  : list TerminalSession :=
  getSessions projectPath (store st).

Definition clearSavedSessions (projectPath : jstring) (st : Manager)
  : Manager :=
  set_store (clearProjectSessions projectPath (store st)) st.

Definition getActiveTerminalIds (st : Manager) : list jstring :=
  (terminals st).*1.

Definition isClaudeMode (id : jstring) (st : Manager) : bool :=
  match lookup_terminal id st with
  | Some (_, terminal) => tp_isClaudeMode terminal
  | None => false
  end.

Definition getClaudeSessionId (id : jstring) (st : Manager)
  : option jstring :=
  match lookup_terminal id st with
  | Some (_, terminal) => tp_claudeSessionId terminal
  | None => None
  end.

Definition setTitle (id title : jstring) (st : Manager) : Manager :=
  match lookup_terminal id st with
  | Some (r, _) => update_terminal r (with_title title) st
  | None => st
  end.

(** ** Everything that can happen *)

(** The commands of the renderer, the callbacks of the ptys, the save
  interval, and a pending timeout coming due. *)
Inductive Event :=
  | Create (options : TerminalCreateOptions)
  | Restore (session : TerminalSession) (cols rows : option Z)
  | Destroy (id : jstring)
  | Write (id data : jstring)
  | Resize (id : jstring) (cols rows : Z)
  | InvokeClaude (id : jstring) (cwd : option jstring)
  | ResumeClaude (id : jstring) (sessionId : option jstring)
  | SetTitle (id title : jstring)
  | ClearSavedSessions (projectPath : jstring)
  | KillAll
  | PtyData (pty : nat) (data : jstring)
  | PtyExit (pty : nat) (exitCode : Z)
  | SaveTick
  | Timeout (k : nat).

Definition run_timer (e : Env) (a : TimerAction) (st : Manager) : Manager :=
  match a with
  | CheckForSession terminalId projectPath startTime attempts =>
      checkForSession e terminalId projectPath startTime attempts st
  | RestoreResume session r => (restoreResume e session r st).1
  end.

(** The [k]-th pending timeout fires, once it is due. *)
Definition fire (e : Env) (k : nat) (st : Manager) : Manager :=
  match timers st !! k with
  | Some tm =>
      if due tm <=? now e
      then run_timer e (action tm) (set_timers (delete k (timers st)) st)
      else st
  | None => st
  end.

Definition step (e : Env) (ev : Event) (st : Manager) : Manager :=
  match ev with
  | Create options => (create e options st).1
  | Restore session cols rows => (restore e session cols rows st).1
  | Destroy id => (destroy e id st).1
  | Write id data => write id data st
  | Resize id cols rows => resize id cols rows st
  | InvokeClaude id cwd => invokeClaude e id cwd st
  | ResumeClaude id sessionId => resumeClaude e id sessionId st
  | SetTitle id title => setTitle id title st
  | ClearSavedSessions projectPath => clearSavedSessions projectPath st
  | KillAll => killAll e st
  | PtyData h data =>
      match ptys st !! h with
      | Some p => onData e (pty_terminal p) data st
      | None => st
      end
  | PtyExit h exitCode =>
      match ptys st !! h with
      | Some p => onExit e (pty_terminal p) exitCode st
      | None => st
      end
  | SaveTick =>
      match saveTimer st with
      | Some _ => persistAllSessions e st
      | None => st
      end
  | Timeout k => fire e k st
  end.

(** A run: each event comes with the host state it observes. *)
Fixpoint run (tr : list (Env * Event)) (st : Manager) : Manager :=
  match tr with
  | [] => st
  | (e, ev) :: tr' => run tr' (step e ev st)
  end.

(** The chunk that an event delivers to the terminal object [r]. *)
Definition chunk_for (r : nat) (ev : Event) (st : Manager) : jstring :=
  match ev with
  | PtyData h data =>
      match ptys st !! h with
      | Some p => if decide (pty_terminal p = r) then data else []
      | None => []
      end
  | _ => []
  end.

(** The concatenation of the chunks that a run delivers to [r]. *)
Fixpoint received (r : nat) (tr : list (Env * Event)) (st : Manager)
  : jstring :=
  match tr with
  | [] => []
  | (e, ev) :: tr' => chunk_for r ev st ++ received r tr' (step e ev st)
  end.

(** The buffer of the terminal object [r] (empty before it exists). *)
Definition buffer_of (r : nat) (st : Manager) : jstring :=
  buf_at r (heap st).

(** The events that assign [claudeSessionId] without looking at its
    current value: [invokeClaude], [resumeClaude] with a session id, and
    the part of [restore] that runs after its delay. *)
Definition assigns_session (ev : Event) (st : Manager) : bool :=
  match ev with
  | InvokeClaude _ _ => true
  | ResumeClaude _ sessionId => truthy sessionId
  | Timeout k =>
      match timers st !! k with
      | Some {| action := RestoreResume _ _ |} => true
      | _ => false
      end
  | _ => false
  end.

Definition is_data (ev : Event) : bool :=
  match ev with
  | PtyData _ _ => true
  | _ => false
  end.

(** The counter of the probe that a probe left pending, if any: the
    timeout added by the step from [st] to [st']. *)
Definition next_attempt (st st' : Manager) : option nat :=
  match timers st' !! length (timers st) with
  | Some {| action := CheckForSession _ _ _ n |} => Some n
  | _ => None
  end.

(** The life of one capture: its probes run one after the other, each in
    the host and manager state it happens to meet, for as long as a probe
    leaves a next one pending. The result counts the probes run. *)
Fixpoint probes_run (terminalId projectPath : jstring) (startTime : Z)
    (attempts : nat) (meets : list (Env * Manager)) : nat :=
  match meets with
  | [] => 0
  | (e, st) :: rest =>
      match next_attempt st
              (checkForSession e terminalId projectPath startTime attempts st)
      with
      | Some n =>
          Datatypes.S (probes_run terminalId projectPath startTime n rest)
      | None => 1
      end
  end.

(** What [persistAllSessions] hands to [saveSession], in map order. *)
Definition live_sessions (e : Env) (st : Manager) : list TerminalSession :=
  omap (fun entry : jstring * nat =>
          t ← heap st !! entry.2;
          match tp_projectPath t with
          | Some (c :: pp) => Some (snapshot e t (c :: pp))
          | _ => None
          end) (terminals st).

(** The handles of the registered terminals whose [kill] returns. *)
Definition killed_handles (e : Env) (st : Manager) : list nat :=
  omap (fun entry : jstring * nat =>
          t ← heap st !! entry.2;
          match killThrows e (tp_pty t) with
          | None => Some (tp_pty t)
          | Some _ => None
          end) (terminals st).

(** The timeouts that an event may leave pending on top of those that
    were pending before it: [invokeClaude] arms the first probe of a
    capture, [restore] arms its delayed part. *)
Definition arms (ev : Event) : nat :=
  match ev with
  | InvokeClaude _ _ | Restore _ _ _ => 1
  | _ => 0
  end.

(** The event that stops the save interval. *)
Definition stops_saving (ev : Event) : bool :=
  match ev with
  | KillAll => true
  | _ => false
  end.

(** The terminal object whose title an event assigns: the one that
    [setTitle], or [restore] after its [create], finds under the id. *)
Definition retitled (e : Env) (ev : Event) (st : Manager) : option nat :=
  match ev with
  | SetTitle id _ => Map_get id (terminals st)
  | Restore session cols rows =>
      let created := create e (restore_options session cols rows) st in
      if success created.2
      then Map_get (ts_id session) (terminals created.1)
      else None
  | _ => None
  end.

(** The options of the terminal that an event makes, when it makes one:
    [create], called directly or by [restore], on an id that is not
    registered and with a [pty.spawn] that returns. *)
Definition creating (e : Env) (ev : Event) (st : Manager)
  : option TerminalCreateOptions :=
  let attempt options :=
    if Map_has (opt_id options) (terminals st) then None
    else match spawnThrows e with Some _ => None | None => Some options end in
  match ev with
  | Create options => attempt options
  | Restore session cols rows => attempt (restore_options session cols rows)
  | _ => None
  end.

(** The shape of the manager's data: the registered ids are distinct,
    each is bound to a terminal object that carries this id, and the
    terminal objects and the ptys come in pairs that refer to each other
    and share the working directory. *)
Definition well_formed (st : Manager) : Prop :=
  NoDup (getActiveTerminalIds st)
  ∧ (∀ id r, (id, r) ∈ terminals st →
       ∃ t, heap st !! r = Some t ∧ tp_id t = id)
  ∧ length (ptys st) = length (heap st)
  ∧ (∀ r t, heap st !! r = Some t → tp_pty t = r)
  ∧ (∀ r t p, heap st !! r = Some t → ptys st !! r = Some p →
       pty_terminal p = r ∧ pty_cwd p = tp_cwd t).

(** [sends e st st' ns]: from [st] to [st'] the notifications [ns] were
    handed to the window, when there is one. *)
Definition sends (e : Env) (st st' : Manager) (ns : list Notification)
  : Prop :=
  sent st' = sent st ++ (if window e then ns else []).

(** The output notification that an event owes to the window: one for
    each chunk that a pty delivers, under the id of the terminal object
    that the callback of this pty captured. *)
Definition delivery (ev : Event) (st : Manager) : list Notification :=
  match ev with
  | PtyData h data =>
      match ptys st !! h with
      | Some p =>
          match heap st !! pty_terminal p with
          | Some terminal => [TERMINAL_OUTPUT (tp_id terminal) data]
          | None => []
          end
      | None => []
      end
  | _ => []
  end.

(** The output notifications that a run owes to the window, given at
    each event whether there is a window. *)
Fixpoint forwarded (tr : list (Env * Event)) (st : Manager)
  : list Notification :=
  match tr with
  | [] => []
  | (e, ev) :: tr' =>
      (if window e then delivery ev st else []) ++ forwarded tr' (step e ev st)
  end.

End TerminalManager.

Arguments Manager S : clear implicits.

(* ===================================================================== *)
(** * A session store *)
(* ===================================================================== *)

(** Modelled from the spec: the durable session store
    (terminal-session-store), which is not part of the module. The
    specification describes its writes as idempotent upserts keyed by
    (projectPath, id) and its deletes as idempotent removals. *)
Abbreviation SpecStore := (gmap (jstring * jstring) TerminalSession).

Definition session_with_claudeSessionId (sid : jstring) (s : TerminalSession) :=
  {| ts_id := ts_id s; ts_title := ts_title s; ts_cwd := ts_cwd s;
     ts_projectPath := ts_projectPath s; ts_isClaudeMode := ts_isClaudeMode s;
     ts_claudeSessionId := Some sid; ts_outputBuffer := ts_outputBuffer s;
     ts_createdAt := ts_createdAt s; ts_lastActiveAt := ts_lastActiveAt s |}.

#[export] Instance spec_store : SessionStore SpecStore := {|
  saveSession s m := <[(ts_projectPath s, ts_id s) := s]> m;
  getSession pp id m := m !! (pp, id);
  removeSession pp id m := delete (pp, id) m;
  updateClaudeSessionId pp id sid m :=
    alter (session_with_claudeSessionId sid) (pp, id) m;
  getSessions pp m := (map_to_list (filter (fun kv => kv.1.1 = pp) m)).*2;
  clearProjectSessions pp m := filter (fun kv => kv.1.1 ≠ pp) m
|}.

(* ===================================================================== *)
(** * The rate-limit store of the renderer *)
(* ===================================================================== *)

Module RateLimitStore.
Section Store.
(** [RateLimitInfo] comes from the shared types; the store only holds it. *)
Context {RateLimitInfo : Type}.

Record RateLimitState := {
  isModalOpen : bool;
  rateLimitInfo : option RateLimitInfo      (* null before the first notice *)
}.

(** The argument of the [set] of the store library: the fields to
  overwrite, the others being kept. *)
Record Patch := {
  patch_isModalOpen : option bool;
  patch_rateLimitInfo : option (option RateLimitInfo)
}.

Definition set_state (p : Patch) (s : RateLimitState) : RateLimitState :=
  {| isModalOpen := default (isModalOpen s) (patch_isModalOpen p);
     rateLimitInfo := default (rateLimitInfo s) (patch_rateLimitInfo p) |}.

Definition initial_state : RateLimitState :=
  {| isModalOpen := false; rateLimitInfo := None |}.

Definition showRateLimitModal (info : RateLimitInfo)
  : RateLimitState → RateLimitState :=
  set_state {| patch_isModalOpen := Some true;
               patch_rateLimitInfo := Some (Some info) |}.

Definition hideRateLimitModal : RateLimitState → RateLimitState :=
  set_state {| patch_isModalOpen := Some false; patch_rateLimitInfo := None |}.

(** The calls that the components make. *)
Inductive Action :=
  | ShowModal (info : RateLimitInfo)
  | HideModal.

Definition dispatch (s : RateLimitState) (a : Action) : RateLimitState :=
  match a with
  | ShowModal info => showRateLimitModal info s
  | HideModal => hideRateLimitModal s
  end.

Definition shown (a : Action) : option RateLimitInfo :=
  match a with
  | ShowModal info => Some info
  | HideModal => None
  end.
End Store.
Arguments RateLimitState : clear implicits.
Arguments Action : clear implicits.
End RateLimitStore.

(* ===================================================================== *)
(** * A small scenario *)
(* ===================================================================== *)

(** A host with a window, a working [pty.spawn] and no session logs. *)
Definition host (t : Z) : Env :=
  {| now := t; window := true; homedir := str "/home/u";
     platform := str "linux"; COMSPEC := None; SHELL := Some (str "/bin/bash");
     spawnThrows := None; killThrows := fun _ => None;
     claudeProjectDir := fun _ => DirMissing |}.

(** The same host when [kill] throws an [Error]. *)
Definition host_kill_fails (t : Z) : Env :=
  {| now := t; window := true; homedir := str "/home/u";
     platform := str "linux"; COMSPEC := None; SHELL := Some (str "/bin/bash");
     spawnThrows := None;
     killThrows := fun _ => Some (ErrorObj (str "kill EPERM"));
     claudeProjectDir := fun _ => DirMissing |}.

Definition T1 : jstring := str "t1".

Definition t1_options : TerminalCreateOptions :=
  {| opt_id := T1; opt_cwd := Some (str "/tmp"); opt_cols := None;
     opt_rows := None; opt_projectPath := Some (str "/proj") |}.

Definition MIDDOT : jstring := [183%N].

Definition LIMIT_MESSAGE : jstring :=
  str "Limit reached " ++ MIDDOT ++ str " resets Dec 17 at 6am (Europe/Oslo)".

Definition fresh : Manager SpecStore := new_manager ∅.

(** The manager after [create] of "t1" with cwd "/tmp" and project path
    "/proj". *)
Definition one_terminal : Manager SpecStore :=
  (create (host 1700000000000) t1_options fresh).1.

(** ... after [invokeClaude("t1")] ... *)
Definition in_claude : Manager SpecStore :=
  invokeClaude (host 1700000001000) T1 None one_terminal.

(** ... and after its pty printed the rate-limit notice. *)
Definition limited : Manager SpecStore :=
  step (host 1700000002000) (PtyData 0 LIMIT_MESSAGE) in_claude.

(** ... and after its pty announced a session. *)
Definition discovered : Manager SpecStore :=
  step (host 1700000002000) (PtyData 0 (str "Session: abc-123")) in_claude.

(** A persisted session of "t1" in Claude mode, with no session id. *)
Definition t1_session : TerminalSession :=
  {| ts_id := T1; ts_title := str "Claude"; ts_cwd := str "/tmp";
     ts_projectPath := str "/proj"; ts_isClaudeMode := true;
     ts_claudeSessionId := None; ts_outputBuffer := [];
     ts_createdAt := 1690000000000; ts_lastActiveAt := 1690000000000 |}.

(** A host whose log directory holds one log, written half a second
    after 1700000000000. *)
Definition host_with_log (t : Z) : Env :=
  {| now := t; window := true; homedir := str "/home/u";
     platform := str "linux"; COMSPEC := None; SHELL := Some (str "/bin/bash");
     spawnThrows := None; killThrows := fun _ => None;
     claudeProjectDir := fun _ =>
       DirFiles [{| name := str "abc.jsonl"; mtime := 1700000000500 |}] |}.

(** [restore] of that session at 1700000000000 on a fresh manager, and
    the manager once the one-second timeout has fired. *)
Definition restoring : Manager SpecStore :=
  (restore (host_with_log 1700000000000) t1_session None None fresh).1.

Definition restored : Manager SpecStore :=
  step (host_with_log 1700000001000) (Timeout 0) restoring.

(** The session notifications among what was sent. *)
Definition session_notifications (ns : list Notification) : list Notification :=
  List.filter (fun n => match n with
                        | TERMINAL_CLAUDE_SESSION _ _ => true
                        | _ => false
                        end) ns.

(** The same host without a window. *)
Definition host_no_window (t : Z) : Env :=
  {| now := t; window := false; homedir := str "/home/u";
     platform := str "linux"; COMSPEC := None; SHELL := Some (str "/bin/bash");
     spawnThrows := None; killThrows := fun _ => None;
     claudeProjectDir := fun _ => DirMissing |}.

(** The manager after [destroy] of "t1" and a second [create] of "t1":
    the pty 0 of the first terminal has been killed but its exit has not
    been delivered yet. *)
Definition recreated : Manager SpecStore :=
  run [(host 1700000001000, Destroy T1);
       (host 1700000001100, Create t1_options)] one_terminal.

(** A persisted session of a terminal "t2" that was a plain shell. *)
Definition t2_session : TerminalSession :=
  {| ts_id := str "t2"; ts_title := str "build"; ts_cwd := str "/srv";
     ts_projectPath := str "/proj"; ts_isClaudeMode := false;
     ts_claudeSessionId := None; ts_outputBuffer := str "$ make";
     ts_createdAt := 1690000000000; ts_lastActiveAt := 1690000000000 |}.


(* ===================================================================== *)
(** * Properties *)
(* ===================================================================== *)

(** ** The output buffer *)

Lemma slice_negative (k : Z) (s : jstring) :
  0 < k → slice (- k) s = drop (Z.to_nat (Z.of_nat (length s) - k)) s.
Proof.
  intros Hk. unfold slice.
  destruct (Z.ltb_spec (- k) 0) as [_|?]; [|lia].
  f_equal. lia.
Qed.

Lemma slice_negative_length (k : Z) (s : jstring) :
  0 < k → Z.of_nat (length (slice (- k) s)) = Z.min (Z.of_nat (length s)) k.
Proof.
  intros Hk. rewrite slice_negative by done. rewrite length_drop. lia.
Qed.

Lemma slice_negative_short (k : Z) (s : jstring) :
  0 < k → Z.of_nat (length s) ≤ k → slice (- k) s = s.
Proof.
  intros Hk Hs. rewrite slice_negative by done.
  replace (Z.to_nat _) with 0%nat by lia. done.
Qed.

(** Truncating after every append is the same as truncating once. *)
Lemma slice_negative_app (k : Z) (a b : jstring) :
  0 < k → slice (- k) (slice (- k) a ++ b) = slice (- k) (a ++ b).
Proof.
  intros Hk. rewrite !slice_negative by done.
  rewrite !length_app, length_drop.
  destruct (Z.le_gt_cases (Z.of_nat (length a)) k) as [Hle|Hgt].
  - replace (Z.to_nat (Z.of_nat (length a) - k)) with 0%nat by lia.
    rewrite drop_0. f_equal. lia.
  - set (d := Z.to_nat (Z.of_nat (length a) - k)).
    replace (Z.to_nat (Z.of_nat (length a + length b) - k))
      with (d + length b)%nat by lia.
    replace (Z.to_nat (Z.of_nat (length a - d + length b) - k))
      with (length b) by lia.
    rewrite <- drop_drop.
    rewrite (drop_app_le a b d) by (subst d; lia). done.
Qed.

(** ** The [terminals] map *)

Lemma Map_get_set_eq id r (m : TerminalMap) : Map_get id (Map_set id r m) = Some r.
Proof.
  induction m as [|[k r'] m IH]; simpl.
  - by rewrite decide_True.
  - destruct (decide (k = id)); simpl.
    + by rewrite decide_True.
    + by rewrite decide_False.
Qed.

Lemma Map_get_set_ne id id' r (m : TerminalMap) :
  id ≠ id' → Map_get id' (Map_set id r m) = Map_get id' m.
Proof.
  intros Hne. induction m as [|[k r'] m IH]; simpl.
  - by rewrite decide_False.
  - destruct (decide (k = id)) as [->|]; simpl.
    + by rewrite !decide_False.
    + destruct (decide (k = id')); [done|]. apply IH.
Qed.

Lemma Map_get_delete_eq id (m : TerminalMap) : Map_get id (Map_delete id m) = None.
Proof.
  unfold Map_delete. induction m as [|[k r'] m IH]; [done|].
  rewrite filter_cons. simpl. destruct (decide (k ≠ id)); simpl; [|done].
  by rewrite decide_False.
Qed.

Lemma Map_get_delete_ne id id' (m : TerminalMap) :
  id ≠ id' → Map_get id' (Map_delete id m) = Map_get id' m.
Proof.
  intros Hne. unfold Map_delete. induction m as [|[k r'] m IH]; [done|].
  rewrite filter_cons. simpl. destruct (decide (k ≠ id)) as [?|Heq]; simpl.
  - destruct (decide (k = id')); [done|]. apply IH.
  - apply dec_stable in Heq as ->. by rewrite decide_False.
Qed.

Lemma Map_has_get id (m : TerminalMap) :
  Map_has id m = true ↔ is_Some (Map_get id m).
Proof.
  unfold Map_has. destruct (Map_get id m) as [r|]; split; intros Hx.
  - by eexists.
  - done.
  - done.
  - by destruct Hx.
Qed.

(** The same three facts at the cap of the output buffer. *)
Lemma cap_length (s : jstring) :
  Z.of_nat (length (slice (-100000) s)) = Z.min (Z.of_nat (length s)) 100000.
Proof. by apply (slice_negative_length 100000). Qed.

Lemma cap_short (s : jstring) :
  Z.of_nat (length s) ≤ 100000 → slice (-100000) s = s.
Proof. by apply (slice_negative_short 100000). Qed.

Lemma cap_app (a b : jstring) :
  slice (-100000) (slice (-100000) a ++ b) = slice (-100000) (a ++ b).
Proof. by apply (slice_negative_app 100000). Qed.

Lemma cap_drop (s : jstring) :
  slice (-100000) s = drop (Z.to_nat (Z.of_nat (length s) - 100000)) s.
Proof. by apply (slice_negative 100000). Qed.

(** ** The matcher *)

Section MatcherFacts.
Context {R : Type}.
Implicit Types (k : jstring → option R) (p : N → bool).

Lemma star_sound p s k res :
  star p s k = Some res →
  ∃ w rest, s = w ++ rest ∧ Forall (fun c => p c = true) w ∧ k rest = Some res.
Proof.
  revert res. induction s as [|c s IH]; intros res; simpl.
  - intros Hk. by exists [], [].
  - destruct (p c) eqn:Hc.
    + destruct (star p s k) as [res'|] eqn:Hs.
      * intros [= <-]. destruct (IH _ eq_refl) as (w & rest & -> & Hw & Hk).
        exists (c :: w), rest. by repeat constructor.
      * intros Hk. by exists [], (c :: s).
    + intros Hk. by exists [], (c :: s).
Qed.

Lemma star_complete p w rest k :
  Forall (fun c => p c = true) w → is_Some (k rest) →
  is_Some (star p (w ++ rest) k).
Proof.
  intros Hw Hk. induction Hw as [|c w Hc _ IH]; simpl.
  - destruct rest as [|c s]; simpl; [done|].
    destruct (p c); [|done]. by destruct (star p s k).
  - rewrite Hc. by destruct IH as [res ->].
Qed.

Lemma plus_lazy_sound p s k res :
  plus_lazy p s k = Some res →
  ∃ w rest, s = w ++ rest ∧ w ≠ [] ∧ Forall (fun c => p c = true) w
            ∧ k rest = Some res.
Proof.
  revert res. induction s as [|c s IH]; intros res; simpl; [done|].
  destruct (p c) eqn:Hc; [|done].
  destruct (k s) as [res'|] eqn:Hk.
  - intros [= <-]. exists [c], s. by repeat constructor.
  - intros (w & rest & -> & _ & Hw & Hk')%IH.
    exists (c :: w), rest. by repeat constructor.
Qed.

Lemma plus_lazy_complete p w rest k :
  w ≠ [] → Forall (fun c => p c = true) w → is_Some (k rest) →
  is_Some (plus_lazy p (w ++ rest) k).
Proof.
  intros Hne Hw Hk. induction Hw as [|c w Hc Hw IH]; [done|]. simpl.
  rewrite Hc. destruct (k (w ++ rest)) eqn:Hk'; [done|].
  destruct w as [|c' w]; [simpl in Hk'; rewrite Hk' in Hk; by destruct Hk|].
  by apply IH.
Qed.
End MatcherFacts.

(** The matcher finds only what [matches] allows ... *)
Lemma rmatch_sound {R} f r s cap (k : jstring → option jstring → option R) res :
  rmatch f r s cap k = Some res →
  ∃ w rest cap', s = w ++ rest ∧ matches f r w rest cap cap'
                 ∧ k rest cap' = Some res.
Proof.
  revert s cap k res.
  induction r as [|a|r1 IH1 r2 IH2|r1 IH1|a|a|a|r1 IH1|];
    intros s cap k res; simpl.
  - intros Hk. by exists [], s, cap.
  - destruct s as [|c s]; [done|]. destruct (cset_mem f a c) eqn:Hc; [|done].
    intros Hk. exists [c], s, cap. split; [done|]. split; [|done].
    split; [|done]. by exists c.
  - intros (w1 & rest1 & cap1 & -> & Hm1 & Hk1)%IH1.
    apply IH2 in Hk1 as (w2 & rest & cap' & -> & Hm2 & Hk).
    exists (w1 ++ w2), rest, cap'. rewrite <- app_assoc. split; [done|].
    split; [|done]. by exists w1, w2, cap1.
  - destruct (rmatch f r1 s cap k) as [res'|] eqn:Hr.
    + intros [= <-]. apply IH1 in Hr as (w & rest & cap' & -> & Hm & Hk).
      exists w, rest, cap'. split; [done|]. split; [by left|done].
    + intros Hk. exists [], s, cap. split; [done|]. split; [by right|done].
  - intros (w & rest & -> & Hw & Hk)%star_sound.
    by exists w, rest, cap.
  - destruct s as [|c s]; [done|]. destruct (cset_mem f a c) eqn:Hc; [|done].
    intros (w & rest & -> & Hw & Hk)%star_sound.
    exists (c :: w), rest, cap. split; [done|]. split; [|done].
    split; [|done]. split; [done|by constructor].
  - intros (w & rest & -> & Hne & Hw & Hk)%plus_lazy_sound.
    by exists w, rest, cap.
  - intros (w & rest & cap1 & -> & Hm & Hk)%IH1.
    rewrite length_app, Nat.add_sub, take_app_length in Hk.
    exists w, rest, (Some w). split; [done|]. split; [|done].
    split; [by exists cap1|done].
  - destruct (at_eol f s) eqn:He; [|done].
    intros Hk. by exists [], s, cap.
Qed.

(** ... and finds something whenever [matches] allows something that
    the continuation accepts. *)
Lemma rmatch_complete {R} f r w rest cap cap'
    (k : jstring → option jstring → option R) :
  matches f r w rest cap cap' → is_Some (k rest cap') →
  is_Some (rmatch f r (w ++ rest) cap k).
Proof.
  revert w rest cap cap' k.
  induction r as [|a|r1 IH1 r2 IH2|r1 IH1|a|a|a|r1 IH1|];
    intros w rest cap cap' k; simpl.
  - by intros [-> ->].
  - intros [(c & -> & Hc) ->] Hk. simpl. by rewrite Hc.
  - intros (w1 & w2 & capm & -> & Hm1 & Hm2) Hk. rewrite <- app_assoc.
    eapply IH1; [done|]. by eapply IH2.
  - intros [Hm|[-> ->]] Hk.
    + destruct (IH1 _ _ _ _ k Hm Hk) as [res ->]. done.
    + simpl. by destruct (rmatch f r1 rest cap k).
  - intros [Hw ->] Hk. by apply star_complete.
  - intros [[Hne Hw] ->] Hk. destruct Hw as [|c w Hc Hw]; [done|].
    simpl. rewrite Hc. by apply star_complete.
  - intros [[Hne Hw] ->] Hk. by apply plus_lazy_complete.
  - intros [[c0 Hm] ->] Hk. eapply IH1; [done|].
    by rewrite length_app, Nat.add_sub, take_app_length.
  - intros [[-> He] ->] Hk. simpl. by rewrite He.
Qed.

(** [exec]: a result comes from a match somewhere in the string, and
    a match somewhere in the string gives a result. *)
Lemma exec_sound f r s cap :
  exec f r s = Some cap →
  ∃ pre w rest, s = pre ++ w ++ rest ∧ matches f r w rest None cap.
Proof.
  induction s as [|c s IH]; simpl.
  - destruct (rmatch f r [] None _) as [cap0|] eqn:Hm; [|done].
    intros [= <-]. apply rmatch_sound in Hm as (w & rest & cap' & Hs & Hm & [= <-]).
    by exists [], w, rest.
  - destruct (rmatch f r (c :: s) None _) as [cap0|] eqn:Hm.
    + intros [= <-].
      apply rmatch_sound in Hm as (w & rest & cap' & Hs & Hm & [= <-]).
      by exists [], w, rest.
    + intros (pre & w & rest & -> & Hw)%IH. by exists (c :: pre), w, rest.
Qed.

Lemma exec_complete f r pre w rest cap :
  matches f r w rest None cap → is_Some (exec f r (pre ++ w ++ rest)).
Proof.
  intros Hm.
  assert (is_Some (rmatch f r (w ++ rest) None (fun _ cap => Some cap))) as Hhere
    by (by eapply rmatch_complete).
  induction pre as [|c pre IH]; simpl.
  - destruct Hhere as [cap0 Hhere].
    destruct (w ++ rest); simpl; by rewrite Hhere.
  - by destruct (rmatch f r (c :: pre ++ w ++ rest) None _).
Qed.

#[local] Arguments N.eqb : simpl never.
#[local] Arguments N.leb : simpl never.

(** The capture of a pattern that ends in the identifier group. *)
Lemma token_class_mem c :
  cset_mem flags_i token_class c = true → is_token_char c = true.
Proof.
  unfold cset_mem, token_class, is_token_char, citem_mem, canonicalize, swapcase.
  simpl.
  destruct (N.leb_spec 97 c), (N.leb_spec c 122); simpl; try done.
  all: destruct (N.leb_spec 65 c), (N.leb_spec c 90); simpl; try done.
  all: destruct (N.leb_spec 48 c), (N.leb_spec c 57); simpl; try done.
  all: destruct (N.eqb_spec c 95), (N.eqb_spec c 45); simpl; try done.
  all: repeat match goal with
         | |- context [(?a <=? ?b)%N] => destruct (N.leb_spec a b); simpl
         | |- context [(?a =? ?b)%N] => destruct (N.eqb_spec a b); simpl
         end; try done; try lia.
Qed.

Lemma ends_in_token_capture r w rest cap cap' :
  ends_in_token r → matches flags_i r w rest cap cap' →
  ∃ c tok, cap' = Some (c :: tok)
           ∧ Forall (fun c => is_token_char c = true) (c :: tok).
Proof.
  revert w cap. induction r as [|a|r1 _ r2 IH2|r1 _|a|a|a|r1 _|];
    intros w cap; simpl; try done.
  - intros He (w1 & w2 & capm & -> & _ & Hm2). by eapply IH2.
  - destruct r1 as [| | | | |a| | |]; try done. simpl.
    intros -> [[c0 [[Hne Hw] _]] ->].
    destruct w as [|c tok]; [done|]. exists c, tok. split; [done|].
    eapply Forall_impl; [exact Hw|]. apply token_class_mem.
Qed.

(** A run of literal characters matches a string of the same length,
    character by character. *)
Lemma matches_lit_chars f cs w rest cap cap' :
  matches f (lit_chars cs) w rest cap cap'
  ↔ cap' = cap ∧ Forall2 (fun p c => cset_mem f (CChar p) c = true) cs w.
Proof.
  revert w cap. induction cs as [|p cs IH]; intros w cap; simpl.
  - split.
    + intros [-> ->]. by split.
    + intros [-> ->%Forall2_nil_inv_l]. by split.
  - split.
    + intros (w1 & w2 & capm & -> & [(c & -> & Hc) ->] & [-> Hcs]%IH).
      split; [done|]. by constructor.
    + intros [-> Hw]. apply Forall2_cons_inv_l in Hw as (c & w' & Hc & Hw' & ->).
      exists [c], w', cap. split; [done|]. split; [by split; [exists c|]|].
      by apply IH.
Qed.

(** Under the [i] flag a literal character is compared after
    canonicalization. *)
Lemma literal_case f cs cs' w :
  canonicalize f <$> cs = canonicalize f <$> cs' →
  Forall2 (fun p c => cset_mem f (CChar p) c = true) cs w →
  Forall2 (fun p c => cset_mem f (CChar p) c = true) cs' w.
Proof.
  intros Heq Hw. revert cs' Heq.
  induction Hw as [|p c cs w Hc _ IH]; intros [|p' cs'] Heq; try done.
  injection Heq as Hp Hcs. constructor; [|by apply IH].
  simpl in *. by rewrite <- Hp.
Qed.

(** Whatever the "Resuming session:" pattern matches ends with a match
    of the "Session:" pattern: from the word "session" on. *)
Lemma resuming_contains_label w rest cap :
  matches flags_i RESUMING_SESSION w rest None cap →
  ∃ pre' w', w = pre' ++ w' ∧ matches flags_i SESSION_LABEL w' rest None cap.
Proof.
  unfold RESUMING_SESSION, SESSION_LABEL, lit.
  change (str "Resuming session:")
    with (str "Resuming " ++ str "session" ++ str ":").
  intros (w1 & w2 & capm & -> & [-> Hlit]%matches_lit_chars & Htail).
  apply Forall2_app_inv_l in Hlit as (wa & w1' & Ha & Hlit & ->).
  apply Forall2_app_inv_l in Hlit as (wb & wc & Hb & Hc & ->).
  exists wa, (wb ++ wc ++ w2). split; [by rewrite <- !app_assoc|].
  exists wb, (wc ++ w2), None. split; [done|]. split.
  { apply matches_lit_chars. split; [done|].
    by apply (literal_case flags_i (str "session")). }
  exists [], (wc ++ w2), None. split; [done|]. split; [by right|].
  exists wc, w2, None. split; [done|]. split; [|done].
  by apply matches_lit_chars.
Qed.

Lemma exec_resuming_label data :
  is_Some (exec flags_i RESUMING_SESSION data) →
  is_Some (exec flags_i SESSION_LABEL data).
Proof.
  intros [cap (pre & w & rest & -> & Hm)%exec_sound].
  apply resuming_contains_label in Hm as (pre' & w' & -> & Hm).
  rewrite <- app_assoc, (app_assoc pre pre').
  by eapply exec_complete.
Qed.

Lemma exec_token r data cap :
  ends_in_token r → exec flags_i r data = Some cap →
  ∃ c tok, cap = Some (c :: tok)
           ∧ Forall (fun c => is_token_char c = true) (c :: tok).
Proof.
  intros He (pre & w & rest & -> & Hm)%exec_sound.
  by eapply ends_in_token_capture.
Qed.

(** The loop over a list of patterns that end in the identifier group:
    the first pattern that matches anywhere decides. *)
Lemma first_match_spec ps data :
  Forall ends_in_token ps →
  match first_match ps data with
  | None => Forall (fun p => exec flags_i p data = None) ps
  | Some tok =>
      ∃ before p after,
        ps = before ++ p :: after
        ∧ Forall (fun q => exec flags_i q data = None) before
        ∧ exec flags_i p data = Some (Some tok)
        ∧ tok ≠ [] ∧ Forall (fun c => is_token_char c = true) tok
  end.
Proof.
  induction 1 as [|p ps Hp _ IH]; simpl; [done|].
  destruct (exec flags_i p data) as [cap|] eqn:He.
  - destruct (exec_token p data cap Hp He) as (c & tok & -> & Htok).
    by exists [], p, ps.
  - destruct (first_match ps data) as [tok|].
    + destruct IH as (before & q & after & -> & Hb & Hq & Htok).
      exists (p :: before), q, after. split; [done|]. split; [|done].
      by constructor.
    + by constructor.
Qed.

Lemma CLAUDE_SESSION_PATTERNS_end_in_token :
  Forall ends_in_token CLAUDE_SESSION_PATTERNS.
Proof. repeat constructor. Qed.

(** The two orders of the patterns give one function. *)
Lemma priority_orders_agree data :
  extractClaudeSessionId data = extract_by_spec_priority data.
Proof.
  unfold extractClaudeSessionId, extract_by_spec_priority,
    CLAUDE_SESSION_PATTERNS, SPEC_PRIORITY. simpl.
  destruct (exec flags_i SESSION_LABEL data) as [cap|] eqn:H1.
  { destruct (exec_token SESSION_LABEL data cap eq_refl H1)
      as (c & tok & -> & _).
    done. }
  assert (exec flags_i RESUMING_SESSION data = None) as ->.
  { destruct (exec flags_i RESUMING_SESSION data) eqn:H3; [|done].
    destruct (exec_resuming_label data) as [? ?]; [by eexists|congruence]. }
  destruct (exec flags_i SESSION_ID_KEY data) as [[[|c tok]|]|]; try done.
  all: by destruct (exec flags_i CONVERSATION_ID_KEY data) as [[[|c tok]|]|].
Qed.

(** C4. The extractor gives the examples of the documentation their
    values. It returns the capture of the first pattern of its list that
    matches anywhere in the chunk, and nothing when none matches; the
    capture is a non-empty run of letters, digits, [-] and [_]. The list
    is the "Session:" label, the session_id key, the "Resuming session:"
    phrase and the conversation_id key; trying them in the order label,
    session_id key, conversation_id key, "Resuming session:" phrase
    returns the same value on every chunk. *)
Theorem session_id_extraction :
  extractClaudeSessionId (str "Session: abc-123") = Some (str "abc-123")
  ∧ extractClaudeSessionId (str "session_id=xy9") = Some (str "xy9")
  ∧ extractClaudeSessionId (str "total 48 drwxr-xr-x user staff") = None
  ∧ (∀ data,
       match extractClaudeSessionId data with
       | None =>
           Forall (fun p => exec flags_i p data = None) CLAUDE_SESSION_PATTERNS
       | Some tok =>
           ∃ before p after,
             CLAUDE_SESSION_PATTERNS = before ++ p :: after
             ∧ Forall (fun q => exec flags_i q data = None) before
             ∧ exec flags_i p data = Some (Some tok)
             ∧ tok ≠ [] ∧ Forall (fun c => is_token_char c = true) tok
       end)
  ∧ (∀ data, extractClaudeSessionId data = extract_by_spec_priority data).
Proof.
  split; [by vm_compute|]. split; [by vm_compute|]. split; [by vm_compute|].
  split; [|apply priority_orders_agree].
  intros data. apply first_match_spec, CLAUDE_SESSION_PATTERNS_end_in_token.
Qed.

(** What the rate-limit pattern captures: a non-empty piece of the
    chunk, free of line terminators, that runs up to the end of its line;
    the reset text is that piece, trimmed. *)
Lemma rate_limit_capture data reset :
  rateLimitResetTime data = Some reset →
  ∃ pre head text rest,
    data = pre ++ head ++ text ++ rest
    ∧ reset = trim text
    ∧ text ≠ []
    ∧ Forall (fun c => isLineTerminator c = false) text
    ∧ at_eol flags_m rest = true.
Proof.
  unfold rateLimitResetTime.
  destruct (exec flags_m RATE_LIMIT_PATTERN data) as [cap|] eqn:He; [|done].
  apply exec_sound in He as (pre & w & rest & -> & Hm).
  unfold RATE_LIMIT_PATTERN in Hm. simpl in Hm.
  destruct Hm as (w1 & ? & c1 & -> & _ & w2 & ? & c2 & -> & _
                  & w3 & ? & c3 & -> & _ & w4 & ? & c4 & -> & _
                  & w5 & ? & c5 & -> & _ & w6 & ? & c6 & -> & _
                  & text & w8 & c7 & -> & [[c0 [[Hne Hdot] _]] ->]
                  & [[-> Heol] ->]).
  intros [= <-].
  exists pre, (w1 ++ w2 ++ w3 ++ w4 ++ w5 ++ w6), text, rest.
  split; [by rewrite <- !app_assoc|]. split; [done|]. split; [done|].
  split; [|done]. eapply Forall_impl; [exact Hdot|].
  simpl. intros c Hc. by destruct (isLineTerminator c).
Qed.

(** ** The directory scan *)

Lemma insert_desc_perm f l : insert_desc f l ≡ₚ f :: l.
Proof.
  induction l as [|g l IH]; simpl; [done|].
  destruct (mtime f <? mtime g); [|done].
  rewrite IH. apply Permutation_swap.
Qed.

Lemma sort_desc_perm l : sort_desc l ≡ₚ l.
Proof.
  induction l as [|f l IH]; simpl; [done|].
  by rewrite insert_desc_perm, IH.
Qed.

Lemma insert_desc_sorted f l :
  StronglySorted newer_first l → StronglySorted newer_first (insert_desc f l).
Proof.
  induction 1 as [|g l Hl IH Hg]; simpl.
  - by repeat constructor.
  - destruct (Z.ltb_spec (mtime f) (mtime g)).
    + constructor; [done|]. rewrite insert_desc_perm.
      constructor; [unfold newer_first; lia|done].
    + constructor; [by constructor|].
      constructor; [done|]. eapply Forall_impl; [exact Hg|].
      unfold newer_first. intros; simpl in *; lia.
Qed.

Lemma sort_desc_sorted l : StronglySorted newer_first (sort_desc l).
Proof.
  induction l as [|f l IH]; simpl; [constructor|by apply insert_desc_sorted].
Qed.

(** The head of the sorted list is a most recent file of the input. *)
Lemma sort_desc_head l f rest :
  sort_desc l = f :: rest → f ∈ l ∧ ∀ g, g ∈ l → mtime g ≤ mtime f.
Proof.
  intros Hs. pose proof (sort_desc_sorted l) as Hsorted.
  pose proof (sort_desc_perm l) as Hperm. rewrite Hs in Hsorted, Hperm.
  split.
  - rewrite <- Hperm. apply list_elem_of_here.
  - intros g Hg. rewrite <- Hperm in Hg.
    apply elem_of_cons in Hg as [->|Hg]; [done|].
    apply StronglySorted_inv in Hsorted as [_ Hall].
    by apply (proj1 (Forall_forall _ _) Hall).
Qed.

(** What the scan returns: nothing when the directory is absent or
    unreadable or holds no qualifying file; otherwise the name, without
    its extension, of a qualifying file that no qualifying file is more
    recent than. *)
Lemma findClaudeSessionAfter_spec e projectPath T :
  match findClaudeSessionAfter e projectPath T with
  | None =>
      claudeProjectDir e projectPath = DirMissing
      ∨ claudeProjectDir e projectPath = DirError
      ∨ ∃ fs, claudeProjectDir e projectPath = DirFiles fs
              ∧ ∀ f, f ∈ fs → ¬ qualifies T f
  | Some sessionId =>
      ∃ fs f, claudeProjectDir e projectPath = DirFiles fs
              ∧ f ∈ fs ∧ qualifies T f
              ∧ sessionId = replace JSONL [] (name f)
              ∧ ∀ g, g ∈ fs → qualifies T g → mtime g ≤ mtime f
  end.
Proof.
  unfold findClaudeSessionAfter.
  destruct (claudeProjectDir e projectPath) as [| |fs]; [by left|by right; left|].
  set (qs := filter (fun f => T < mtime f)
               (filter (fun f => endsWith JSONL (name f) = true) fs)).
  assert (∀ f, f ∈ qs ↔ f ∈ fs ∧ qualifies T f) as Hqs.
  { intros f. subst qs. rewrite !list_elem_of_filter. unfold qualifies. tauto. }
  destruct (sort_desc qs) as [|f rest] eqn:Hsort.
  - right; right. exists fs. split; [done|]. intros f Hf Hq.
    assert (f ∈ qs) as Hin by (by apply Hqs).
    rewrite <- (sort_desc_perm qs), Hsort in Hin. by apply elem_of_nil in Hin.
  - apply sort_desc_head in Hsort as [Hin Hmax].
    apply Hqs in Hin as [Hin Hq].
    exists fs, f. repeat split; try done; try apply Hq.
    intros g Hg Hgq. apply Hmax. by apply Hqs.
Qed.

(** ** The directory scan, continued *)

Lemma sort_desc_nil l : sort_desc l = [] → l = [].
Proof.
  intros Hs. apply Permutation_nil_r. by rewrite <- Hs, sort_desc_perm.
Qed.

(** The head of the sorted list is the first of the most recent files. *)
Lemma sort_desc_first l f rest :
  sort_desc l = f :: rest →
  ∃ l1 l2, l = l1 ++ f :: l2
    ∧ Forall (fun g => mtime g < mtime f) l1
    ∧ Forall (fun g => mtime g ≤ mtime f) l2.
Proof.
  revert f rest. induction l as [|g l IH]; intros f rest; [done|].
  simpl. destruct (sort_desc l) as [|h t] eqn:Hs.
  - apply sort_desc_nil in Hs as ->. intros [= <- <-]. by exists [], [].
  - destruct (IH h t eq_refl) as (l1 & l2 & -> & H1 & H2).
    simpl. destruct (Z.ltb_spec (mtime g) (mtime h)).
    + intros [= <- <-]. exists (g :: l1), l2. by repeat constructor.
    + intros [= <- <-]. exists [], (l1 ++ h :: l2). split; [done|].
      split; [constructor|]. apply Forall_app. split.
      * eapply Forall_impl; [exact H1|]. intros; simpl in *; lia.
      * constructor; [done|]. eapply Forall_impl; [exact H2|].
        intros; simpl in *; lia.
Qed.

Lemma filter_app_cons_inv {A} (P : A → Prop) `{!∀ x, Decision (P x)}
    (l l1 l2 : list A) x :
  filter P l = l1 ++ x :: l2 →
  ∃ k1 k2, l = k1 ++ x :: k2 ∧ filter P k1 = l1 ∧ filter P k2 = l2.
Proof.
  revert l1. induction l as [|y l IH]; intros l1.
  - by destruct l1.
  - rewrite filter_cons. destruct (decide (P y)) as [Hy|Hy].
    + destruct l1 as [|z l1]; simpl.
      * intros [= -> Hl]. exists [], l. by rewrite filter_nil.
      * intros [= -> Hl]. destruct (IH _ Hl) as (k1 & k2 & -> & H1 & H2).
        exists (z :: k1), k2. rewrite filter_cons, decide_True by done.
        by rewrite H1.
    + intros Hl. destruct (IH _ Hl) as (k1 & k2 & -> & H1 & H2).
      exists (y :: k1), k2. by rewrite filter_cons, decide_False.
Qed.

(** Filtering commutes with inserting into a sorted list ... *)
Lemma insert_desc_filter (P : File → Prop) `{!∀ x, Decision (P x)} f l :
  StronglySorted newer_first l →
  filter P (insert_desc f l)
  = if decide (P f) then insert_desc f (filter P l) else filter P l.
Proof.
  induction 1 as [|g l Hl IH Hg]; simpl.
  - rewrite filter_cons, filter_nil. by destruct (decide (P f)).
  - destruct (Z.ltb_spec (mtime f) (mtime g)) as [Hlt|Hge].
    + rewrite !filter_cons, IH.
      destruct (decide (P g)), (decide (P f)); simpl; try done.
      by destruct (Z.ltb_spec (mtime f) (mtime g)); [|lia].
    + rewrite !filter_cons.
      destruct (decide (P f)) as [Hf|Hf]; [|done].
      destruct (decide (P g)) as [Hgp|Hgp]; simpl.
      * by destruct (Z.ltb_spec (mtime f) (mtime g)); [lia|].
      * clear IH. induction Hg as [|h l Hh Hg IH']; [done|].
        apply StronglySorted_inv in Hl as [Hl Hhl].
        rewrite filter_cons. destruct (decide (P h)); simpl.
        -- unfold newer_first in Hh.
           by destruct (Z.ltb_spec (mtime f) (mtime h)); [lia|].
        -- by apply IH'.
Qed.

(** ... and so with sorting. *)
Lemma sort_desc_filter (P : File → Prop) `{!∀ x, Decision (P x)} l :
  sort_desc (filter P l) = filter P (sort_desc l).
Proof.
  induction l as [|f l IH]; [done|].
  rewrite filter_cons. simpl.
  rewrite insert_desc_filter by apply sort_desc_sorted.
  destruct (decide (P f)); simpl; by rewrite IH.
Qed.

(** Of a sorted list, the files newer than a cutoff are a prefix. *)
Lemma newer_head T l f rest :
  StronglySorted newer_first l →
  filter (fun g => T < mtime g) l = f :: rest →
  ∃ rest', l = f :: rest'.
Proof.
  intros Hl. destruct l as [|g l]; [done|].
  apply StronglySorted_inv in Hl as [_ Hg].
  rewrite filter_cons. destruct (decide (T < mtime g)) as [?|Hold].
  - intros [= <- _]. by eexists.
  - intros Hf. assert (f ∈ filter (fun g => T < mtime g) l) as Hin
      by (rewrite Hf; apply list_elem_of_here).
    apply list_elem_of_filter in Hin as [Hnew Hin].
    apply (proj1 (Forall_forall _ _) Hg) in Hin. unfold newer_first in Hin. lia.
Qed.

(** X1. [findMostRecentClaudeSession] returns nothing when the log
    directory of the project is absent or unreadable or holds no file
    whose name ends in ".jsonl". Otherwise it returns the name, with its
    first ".jsonl" removed, of the most recently modified such file,
    which is, among those modified at the same time, the one the
    directory lists first. *)
Theorem most_recent_session e projectPath :
  match findMostRecentClaudeSession e projectPath with
  | None =>
      claudeProjectDir e projectPath = DirMissing
      ∨ claudeProjectDir e projectPath = DirError
      ∨ ∃ fs, claudeProjectDir e projectPath = DirFiles fs
              ∧ ∀ f, f ∈ fs → endsWith JSONL (name f) = false
  | Some sessionId =>
      ∃ before f after,
        claudeProjectDir e projectPath = DirFiles (before ++ f :: after)
        ∧ endsWith JSONL (name f) = true
        ∧ sessionId = replace JSONL [] (name f)
        ∧ (∀ g, g ∈ before → endsWith JSONL (name g) = true →
                mtime g < mtime f)
        ∧ (∀ g, g ∈ after → endsWith JSONL (name g) = true →
                mtime g ≤ mtime f)
  end.
Proof.
  unfold findMostRecentClaudeSession.
  destruct (claudeProjectDir e projectPath) as [| |fs]; [by left|by right; left|].
  set (logs := filter (fun f => endsWith JSONL (name f) = true) fs).
  destruct (sort_desc logs) as [|f rest] eqn:Hsort.
  - right; right. exists fs. split; [done|]. intros f Hf.
    apply sort_desc_nil in Hsort.
    destruct (endsWith JSONL (name f)) eqn:Hlog; [|done].
    assert (f ∈ logs) as Hin by (by apply list_elem_of_filter).
    rewrite Hsort in Hin. by apply elem_of_nil in Hin.
  - apply sort_desc_first in Hsort as (l1 & l2 & Hlogs & H1 & H2).
    assert (f ∈ logs) as [Hlog _]%list_elem_of_filter
      by (rewrite Hlogs, elem_of_app, elem_of_cons; auto).
    apply filter_app_cons_inv in Hlogs as (k1 & k2 & -> & <- & <-).
    exists k1, f, k2. repeat split; try done.
    + intros g Hg Hglog. apply (proj1 (Forall_forall _ _) H1).
      by apply list_elem_of_filter.
    + intros g Hg Hglog. apply (proj1 (Forall_forall _ _) H2).
      by apply list_elem_of_filter.
Qed.

(** X2. The two scans agree: [findClaudeSessionAfter] returns either
    nothing or what [findMostRecentClaudeSession] returns; and raising
    the cutoff can only turn its answer into nothing, never into another
    session. *)
Theorem scan_after_is_most_recent e projectPath T :
  (findClaudeSessionAfter e projectPath T = None
   ∨ findClaudeSessionAfter e projectPath T
     = findMostRecentClaudeSession e projectPath)
  ∧ (∀ T', T ≤ T' →
       findClaudeSessionAfter e projectPath T' = None
       ∨ findClaudeSessionAfter e projectPath T'
         = findClaudeSessionAfter e projectPath T).
Proof.
  unfold findClaudeSessionAfter, findMostRecentClaudeSession.
  destruct (claudeProjectDir e projectPath) as [| |fs]; [by split; [left|left]..|].
  set (logs := filter (fun f => endsWith JSONL (name f) = true) fs).
  pose proof (sort_desc_sorted logs) as Hsorted.
  split.
  - rewrite sort_desc_filter.
    destruct (filter _ (sort_desc logs)) as [|f rest] eqn:Hnew; [by left|].
    apply newer_head in Hnew as [rest' ->]; [|done]. by right.
  - intros T' HT. rewrite !sort_desc_filter.
    destruct (filter (fun f => T' < mtime f) (sort_desc logs))
      as [|f rest] eqn:Hnew; [by left|]. right.
    assert (T' < mtime f) as Hf.
    { assert (f ∈ f :: rest) as Hin by apply list_elem_of_here.
      rewrite <- Hnew in Hin. by apply list_elem_of_filter in Hin as [? _]. }
    apply newer_head in Hnew as [rest' ->]; [|done].
    rewrite filter_cons, decide_True by lia. done.
Qed.

(** ** String helpers *)

Lemma startsWith_spec pat s :
  startsWith pat s = true ↔ ∃ post, s = pat ++ post.
Proof.
  revert s. induction pat as [|p pat IH]; intros s; simpl.
  - split; [by exists s|done].
  - destruct s as [|c s]; [split; [done|by intros [? ?]]|].
    rewrite andb_true_iff, N.eqb_eq, IH. split.
    + intros [-> [post ->]]. by exists post.
    + intros [post [= -> ->]]. split; [done|by exists post].
Qed.

(** [replace] rewrites the first occurrence of the pattern, and only
    that one. *)
Lemma replace_first pat by_ s :
  (∃ pre post, s = pre ++ pat ++ post) →
  ∃ pre post,
    s = pre ++ pat ++ post
    ∧ replace pat by_ s = pre ++ by_ ++ post
    ∧ ∀ pre' post', s = pre' ++ pat ++ post' → (length pre ≤ length pre')%nat.
Proof.
  induction s as [|c s IH]; intros (pre0 & post0 & Hs).
  - symmetry in Hs. apply app_eq_nil in Hs as [-> [-> ->]%app_eq_nil].
    exists [], []. split; [done|]. split; [simpl; by rewrite app_nil_r|].
    intros; simpl; lia.
  - simpl. destruct (startsWith pat (c :: s)) eqn:Hstart.
    + apply startsWith_spec in Hstart as [post Hpost].
      exists [], post. rewrite Hpost, drop_app_length.
      split; [done|]. split; [done|]. intros; simpl; lia.
    + assert (∀ pre' post', c :: s = pre' ++ pat ++ post' →
                ∃ pre1, pre' = c :: pre1 ∧ s = pre1 ++ pat ++ post') as Hshift.
      { intros [|c' pre1] post' Heq.
        - assert (startsWith pat (c :: s) = true) as Hyes
            by (apply startsWith_spec; by exists post').
          congruence.
        - injection Heq as -> ->. by exists pre1. }
      destruct (Hshift _ _ Hs) as (pre1 & -> & Hs').
      destruct IH as (pre & post & -> & Hrep & Hmin); [by eauto|].
      exists (c :: pre), post. split; [done|]. split; [by rewrite Hrep|].
      intros pre' post' (pre2 & -> & Heq)%Hshift. simpl.
      specialize (Hmin _ _ Heq). lia.
Qed.

Lemma endsWith_spec suffix s :
  endsWith suffix s = true ↔ ∃ pre, s = pre ++ suffix.
Proof.
  unfold endsWith. rewrite bool_decide_eq_true. split.
  - intros Hd. exists (take (length s - length suffix) s).
    by rewrite <- Hd at 2; rewrite take_drop.
  - intros [pre ->]. rewrite length_app, Nat.add_sub. apply drop_app_length.
Qed.

Lemma JSONL_unfold : JSONL = 46%N :: str "jsonl".
Proof. done. Qed.

(** X3. The session id that the scans derive from a log file: for a
    name that ends in ".jsonl", [name.replace('.jsonl', '')] removes the
    first occurrence of ".jsonl" in the name, so the id is six characters
    shorter than the name; when the part before the extension contains
    no ".", the id is that part. *)
Theorem session_id_of_log_name (fname : jstring) :
  endsWith JSONL fname = true →
  (∃ pre post,
     fname = pre ++ JSONL ++ post
     ∧ replace JSONL [] fname = pre ++ post
     ∧ ∀ pre' post', fname = pre' ++ JSONL ++ post' →
         (length pre ≤ length pre')%nat)
  ∧ (length (replace JSONL [] fname) + 6 = length fname)%nat
  ∧ (∀ base, fname = base ++ JSONL → Forall (fun c => c ≠ 46%N) base →
       replace JSONL [] fname = base).
Proof.
  intros [pre0 Hname]%endsWith_spec.
  destruct (replace_first JSONL [] fname) as (pre & post & Hs & Hrep & Hmin).
  { exists pre0, []. by rewrite app_nil_r. }
  split; [by exists pre, post|]. split.
  - rewrite Hrep, Hs, !length_app. change (length JSONL) with 6%nat. simpl. lia.
  - intros base -> Hbase. clear -Hbase.
    induction Hbase as [|c base Hc _ IH].
    + by vm_compute.
    + cbn [app replace]. rewrite JSONL_unfold at 1. cbn [startsWith].
      destruct (N.eqb_spec 46 c) as [<-|_]; [done|]. simpl. by rewrite IH.
Qed.

(** [trimStart] removes a run of white space and stops at the first
    character that is none. *)
Lemma trimStart_spec s :
  ∃ ws, s = ws ++ trimStart s
    ∧ Forall (fun c => isWhiteSpace c = true) ws
    ∧ ∀ c, head (trimStart s) = Some c → isWhiteSpace c = false.
Proof.
  induction s as [|c s (ws & Hs & Hws & Hhead)]; simpl.
  - by exists [].
  - destruct (isWhiteSpace c) eqn:Hc.
    + exists (c :: ws). split; [by rewrite Hs at 1|]. split; [by constructor|done].
    + exists []. split; [done|]. split; [done|]. by intros ? [= <-].
Qed.

Lemma trim_spec s :
  ∃ ws1 ws2, s = ws1 ++ trim s ++ ws2
    ∧ Forall (fun c => isWhiteSpace c = true) ws1
    ∧ Forall (fun c => isWhiteSpace c = true) ws2
    ∧ (∀ c, head (trim s) = Some c → isWhiteSpace c = false)
    ∧ (∀ c, last (trim s) = Some c → isWhiteSpace c = false).
Proof.
  unfold trim.
  destruct (trimStart_spec s) as (ws1 & Hs & Hws1 & Hhead).
  destruct (trimStart_spec (reverse (trimStart s))) as (ws2 & Hr & Hws2 & Hlast).
  set (u := trimStart s) in *. set (v := trimStart (reverse u)) in *.
  assert (u = reverse v ++ reverse ws2) as Hu.
  { by rewrite <- reverse_app, <- Hr, reverse_involutive. }
  exists ws1, (reverse ws2). split; [by rewrite <- Hu|]. split; [done|].
  split; [by apply Forall_reverse|]. split.
  - intros c Hc. apply Hhead. rewrite Hu.
    destruct (reverse v); [done|]. exact Hc.
  - intros c Hc. apply Hlast. by rewrite <- last_reverse.
Qed.

(** X4. The reset text of a rate-limit match is a piece of the chunk,
    with white space on either side of it up to the end of the line; it
    neither starts nor ends with white space and holds no line
    terminator. *)
Theorem reset_time_is_trimmed data reset :
  rateLimitResetTime data = Some reset →
  (∃ pre ws1 ws2 post,
     data = pre ++ ws1 ++ reset ++ ws2 ++ post
     ∧ Forall (fun c => isWhiteSpace c = true) ws1
     ∧ Forall (fun c => isWhiteSpace c = true) ws2
     ∧ at_eol flags_m post = true)
  ∧ (∀ c, head reset = Some c → isWhiteSpace c = false)
  ∧ (∀ c, last reset = Some c → isWhiteSpace c = false)
  ∧ Forall (fun c => isLineTerminator c = false) reset.
Proof.
  intros (pre & lead & text & rest & -> & -> & _ & Hline & Heol)%rate_limit_capture.
  destruct (trim_spec text) as (ws1 & ws2 & Htext & Hws1 & Hws2 & Hh & Hl).
  split; [|split; [done|split; [done|]]].
  - exists (pre ++ lead), ws1, ws2, rest. split; [|done].
    rewrite Htext at 1. by rewrite <- !app_assoc.
  - rewrite Htext in Hline.
    by apply Forall_app in Hline as [_ [? _]%Forall_app].
Qed.

(** ** The matcher on a labelled identifier *)

(** Greedy repetition takes the whole run when what follows the run is
    accepted by the continuation. *)
Lemma star_greedy {R} (p : N → bool) w rest (k : jstring → option R) x :
  Forall (fun c => p c = true) w →
  (∀ c, head rest = Some c → p c = false) →
  k rest = Some x →
  star p (w ++ rest) k = Some x.
Proof.
  intros Hw Hrest Hk. induction Hw as [|c w Hc _ IH]; simpl.
  - destruct rest as [|c rest]; [done|]. simpl. by rewrite (Hrest c).
  - by rewrite Hc, IH.
Qed.

Lemma rmatch_lit_chars {R} f cs w s cap
    (k : jstring → option jstring → option R) :
  Forall2 (fun p c => cset_mem f (CChar p) c = true) cs w →
  rmatch f (lit_chars cs) (w ++ s) cap k = k s cap.
Proof.
  induction 1 as [|p c cs w Hc _ IH]; [done|].
  cbn [lit_chars foldr rmatch app]. rewrite Hc. apply IH.
Qed.

Lemma is_token_char_mem c :
  is_token_char c = true → cset_mem flags_i token_class c = true.
Proof.
  unfold cset_mem, token_class, is_token_char, citem_mem, canonicalize, swapcase.
  simpl.
  destruct (N.leb_spec 48 c), (N.leb_spec c 57); simpl;
    rewrite ?orb_true_r; try done.
  all: destruct (N.leb_spec 65 c), (N.leb_spec c 90); simpl;
    rewrite ?orb_true_r; try done.
  all: destruct (N.leb_spec 97 c), (N.leb_spec c 122); simpl;
    rewrite ?orb_true_r; try done.
  all: destruct (N.eqb_spec c 95), (N.eqb_spec c 45); simpl; try done.
  all: subst; try done.
Qed.

Lemma token_char_not_space c :
  is_token_char c = true → isWhiteSpace c = false.
Proof.
  unfold is_token_char, isWhiteSpace, isLineTerminator.
  rewrite !orb_true_iff, !andb_true_iff, !N.leb_le, !N.eqb_eq.
  intros Hc. rewrite !orb_false_iff, !andb_false_iff, !N.leb_gt, !N.eqb_neq. lia.
Qed.

(** The matcher skips a position whose character is not the first
    character of the pattern. *)
Lemma exec_skip f p cs r pre s :
  Forall (fun c => cset_mem f (CChar p) c = false) pre →
  exec f (lit_chars (p :: cs) ⋅ r) (pre ++ s)
  = exec f (lit_chars (p :: cs) ⋅ r) s.
Proof.
  induction 1 as [|c pre Hc _ IH]; [done|].
  cbn [app exec rmatch lit_chars foldr]. by rewrite Hc.
Qed.

(** X5. A chunk that shows "Session:" followed by white space and an
    identifier yields that identifier, in full: the identifier is any
    non-empty run of letters, digits, [-] and [_] that is followed by the
    end of the chunk or by a character of another kind; what precedes
    the label is free, as long as it holds no letter s. *)
Theorem labelled_session_is_captured (pre ws tok rest : jstring) :
  Forall (fun c => c ≠ 83%N ∧ c ≠ 115%N) pre →
  Forall (fun c => isWhiteSpace c = true) ws →
  tok ≠ [] →
  Forall (fun c => is_token_char c = true) tok →
  (∀ c, head rest = Some c → is_token_char c = false) →
  extractClaudeSessionId (pre ++ str "Session:" ++ ws ++ tok ++ rest)
  = Some tok.
Proof.
  intros Hpre Hws Hne Htok Hrest.
  destruct tok as [|c tok]; [done|]. apply Forall_cons in Htok as [Hc Htok].
  assert (exec flags_i SESSION_LABEL
            (pre ++ str "Session:" ++ ws ++ (c :: tok) ++ rest)
          = Some (Some (c :: tok))) as Hexec.
  { unfold SESSION_LABEL, lit.
    change (str "Session") with (83%N :: str "ession").
    rewrite exec_skip.
    2: { eapply Forall_impl; [exact Hpre|]. intros c' [H1 H2].
         unfold cset_mem, canonicalize. simpl.
         destruct (N.leb_spec 97 c'), (N.leb_spec c' 122); simpl;
           apply N.eqb_neq; lia. }
    change (str "Session:") with (83%N :: str "ession" ++ [58%N]).
    cbn [app exec].
    change (83%N :: (str "ession" ++ [58%N]) ++ ws ++ c :: tok ++ rest)
      with ((83%N :: str "ession") ++ 58%N :: ws ++ c :: tok ++ rest).
    cbn [rmatch].
    rewrite rmatch_lit_chars by (by repeat constructor).
    change (cset_mem flags_i CSpace 58) with false. cbv iota.
    change (58%N :: ws ++ c :: tok ++ rest)
      with ([58%N] ++ ws ++ c :: tok ++ rest).
    rewrite (rmatch_lit_chars _ (str ":") [58%N]) by (by repeat constructor).
    erewrite star_greedy; [done|done| |].
    - intros c' [= <-]. simpl. by apply token_char_not_space.
    - rewrite is_token_char_mem by done.
      erewrite star_greedy; [done| | |].
      + eapply Forall_impl; [exact Htok|]. apply is_token_char_mem.
      + intros c' Hc'. specialize (Hrest c' Hc').
        destruct (cset_mem flags_i token_class c') eqn:Hmem; [|done].
        apply token_class_mem in Hmem. congruence.
      + do 2 f_equal.
        replace (length (c :: tok ++ rest) - length rest)%nat
          with (length (c :: tok)) by (simpl; rewrite length_app; lia).
        apply (take_app_length (c :: tok)). }
  unfold extractClaudeSessionId, CLAUDE_SESSION_PATTERNS. cbn [first_match].
  by rewrite Hexec.
Qed.

Lemma first_match_nonempty ps data sid :
  first_match ps data = Some sid → sid ≠ [].
Proof.
  induction ps as [|p ps IH]; simpl; [done|].
  destruct (exec flags_i p data) as [[[|c tok]|]|]; try done.
  by intros [= <-].
Qed.


(** ** The rate-limit store of the renderer *)

Section RateLimitStoreFacts.
Import RateLimitStore.
Context {RateLimitInfo : Type}.
Implicit Types (s : RateLimitState RateLimitInfo)
  (acts : list (Action RateLimitInfo)).

(** X6. After any sequence of calls of [showRateLimitModal] and
    [hideRateLimitModal] on the initial store, the modal is open exactly
    when the last call was a show, and [rateLimitInfo] is the argument of
    the last show, also while the modal is closed; it is null only as
    long as nothing was ever shown. *)
Theorem rate_limit_store_last_show acts :
  let s := foldl dispatch initial_state acts in
  isModalOpen s = (if last acts is Some (ShowModal _) then true else false)
  ∧ rateLimitInfo s = last (omap shown acts).
Proof.
  induction acts as [|a acts [IHopen IHinfo]] using rev_ind; [done|].
  cbv zeta in *. rewrite foldl_app, last_snoc, omap_app. simpl.
  destruct a as [info|]; simpl.
  - by rewrite last_snoc.
  - by rewrite app_nil_r.
Qed.
End RateLimitStoreFacts.


(** ** The shape of a rate-limit notice *)

(** Without the [i] flag a run of literal characters matches itself
    only. *)
Lemma lit_chars_exact cs w :
  Forall2 (fun p c => cset_mem flags_m (CChar p) c = true) cs w ↔ w = cs.
Proof.
  split.
  - induction 1 as [|p c cs w Hc _ IH]; [done|].
    apply N.eqb_eq in Hc. unfold canonicalize in Hc. simpl in Hc. by subst.
  - intros ->. induction cs as [|p cs IH]; constructor; [|done].
    simpl. apply N.eqb_refl.
Qed.

Lemma separator_mem c :
  cset_mem flags_m (CClass [IChar 183; IChar 8226]) c = true
  ↔ c = 183%N ∨ c = 8226%N.
Proof.
  simpl. unfold canonicalize. simpl.
  rewrite orb_false_r, orb_true_iff, !N.eqb_eq. split; intros [?|?]; auto.
Qed.

Lemma dot_mem (w : jstring) :
  Forall (fun c => cset_mem flags_m CDot c = true) w
  ↔ Forall (fun c => isLineTerminator c = false) w.
Proof.
  apply Forall_proper; [|done]. intros c. simpl.
  by destruct (isLineTerminator c).
Qed.

(** What the rate-limit pattern matches, spelled out. *)
Lemma rate_limit_matches w rest cap :
  matches flags_m RATE_LIMIT_PATTERN w rest None cap ↔
  ∃ ws1 sep ws2 ws3 text,
    w = str "Limit reached" ++ ws1 ++ [sep] ++ ws2 ++ str "resets" ++ ws3
        ++ text
    ∧ cap = Some text
    ∧ Forall (fun c => isWhiteSpace c = true) ws1
    ∧ (sep = 183%N ∨ sep = 8226%N)
    ∧ Forall (fun c => isWhiteSpace c = true) ws2
    ∧ ws3 ≠ [] ∧ Forall (fun c => isWhiteSpace c = true) ws3
    ∧ text ≠ [] ∧ Forall (fun c => isLineTerminator c = false) text
    ∧ at_eol flags_m rest = true.
Proof.
  unfold RATE_LIMIT_PATTERN, lit. split.
  - cbn [matches].
    intros (w1 & ? & c1 & -> & [-> ->%lit_chars_exact]%matches_lit_chars
            & ws1 & ? & c2 & -> & [Hws1 ->]
            & w3 & ? & c3 & -> & [(sep & -> & Hsep%separator_mem) ->]
            & ws2 & ? & c4 & -> & [Hws2 ->]
            & w5 & ? & c5 & -> & [-> ->%lit_chars_exact]%matches_lit_chars
            & ws3 & ? & c6 & -> & [[Hne3 Hws3] ->]
            & text & w8 & c7 & -> & [[c0 [[Hne Hdot%dot_mem] _]] ->]
            & [[-> Heol] ->]).
    exists ws1, sep, ws2, ws3, text. rewrite app_nil_r. by repeat split.
  - intros (ws1 & sep & ws2 & ws3 & text & -> & -> & Hws1 & Hsep & Hws2
            & Hne3 & Hws3 & Hne & Hdot & Heol).
    cbn [matches].
    exists (str "Limit reached"); eexists; exists None. split; [done|]. split.
    { apply matches_lit_chars. split; [done|]. by apply lit_chars_exact. }
    exists ws1; eexists; exists None. split; [done|]. split; [done|].
    exists [sep]; eexists; exists None. split; [done|]. split.
    { split; [|done]. exists sep. split; [done|]. by apply separator_mem. }
    exists ws2; eexists; exists None. split; [done|]. split; [done|].
    exists (str "resets"); eexists; exists None. split; [done|]. split.
    { apply matches_lit_chars. split; [done|]. by apply lit_chars_exact. }
    exists ws3; eexists; exists None. split; [done|]. split; [done|].
    exists text, [], (Some text). split; [by rewrite app_nil_r|]. split.
    { split; [|done]. exists None. split; [|done]. split; [done|].
      by apply dot_mem. }
    done.
Qed.

(** X7. Which chunks count as a rate-limit notice: exactly those that
    contain, somewhere, the text "Limit reached" in this very case, then
    white space or none, one of the two dots U+00B7 and U+2022, white
    space or none, the word "resets", at least one white-space character
    and at least one character that is no line terminator, the text
    ending at the end of the chunk or before a line terminator. *)
Theorem rate_limit_notice_shape data :
  is_Some (rateLimitResetTime data) ↔
  ∃ pre ws1 sep ws2 ws3 text rest,
    data = pre ++ str "Limit reached" ++ ws1 ++ [sep] ++ ws2 ++ str "resets"
           ++ ws3 ++ text ++ rest
    ∧ Forall (fun c => isWhiteSpace c = true) ws1
    ∧ (sep = 183%N ∨ sep = 8226%N)
    ∧ Forall (fun c => isWhiteSpace c = true) ws2
    ∧ ws3 ≠ [] ∧ Forall (fun c => isWhiteSpace c = true) ws3
    ∧ text ≠ [] ∧ Forall (fun c => isLineTerminator c = false) text
    ∧ at_eol flags_m rest = true.
Proof.
  unfold rateLimitResetTime. split.
  - destruct (exec flags_m RATE_LIMIT_PATTERN data) as [cap|] eqn:He;
      [|by intros [? ?]].
    intros _. apply exec_sound in He as (pre & w & rest & -> & Hm).
    apply rate_limit_matches in Hm
      as (ws1 & sep & ws2 & ws3 & text & -> & _ & Hrest).
    exists pre, ws1, sep, ws2, ws3, text, rest. split; [|done].
    by rewrite <- !app_assoc.
  - intros (pre & ws1 & sep & ws2 & ws3 & text & rest & -> & Hshape).
    destruct (exec_complete flags_m RATE_LIMIT_PATTERN pre
                (str "Limit reached" ++ ws1 ++ [sep] ++ ws2 ++ str "resets"
                 ++ ws3 ++ text) rest (Some text)) as [cap Hcap].
    { apply rate_limit_matches. exists ws1, sep, ws2, ws3, text.
      split; [done|]. by split. }
    rewrite <- !app_assoc in Hcap. rewrite Hcap. by destruct cap.
Qed.
Section Properties.
Context {S : Type} `{!SessionStore S}.
Implicit Types (st : Manager S) (e : Env) (r h : nat) (id : jstring).

(** *** What each building block does to the heap of terminal objects *)

Lemma heap_send e n st : heap (send e n st) = heap st.
Proof. unfold send. by destruct (window e). Qed.

Lemma heap_with_projectPath o f st : heap (with_projectPath o f st) = heap st.
Proof. unfold with_projectPath. by repeat case_match. Qed.

Lemma heap_captureClaudeSessionId e id pp t0 st :
  heap (captureClaudeSessionId e id pp t0 st) = heap st.
Proof. unfold captureClaudeSessionId. by case_match. Qed.

Lemma heap_pty_write h data st : heap (pty_write h data st) = heap st.
Proof. done. Qed.

Lemma heap_setTimeout d a e st : heap (setTimeout d a e st) = heap st.
Proof. done. Qed.

Lemma heap_update_terminal r f st :
  heap (update_terminal r f st) = alter f r (heap st).
Proof. done. Qed.

Lemma ptys_send e n st : ptys (send e n st) = ptys st.
Proof. unfold send. by destruct (window e). Qed.

Lemma ptys_with_projectPath o f st : ptys (with_projectPath o f st) = ptys st.
Proof. unfold with_projectPath. by repeat case_match. Qed.

Lemma ptys_captureClaudeSessionId e id pp t0 st :
  ptys (captureClaudeSessionId e id pp t0 st) = ptys st.
Proof. unfold captureClaudeSessionId. by case_match. Qed.

Lemma lookup_terminal_Some id st r t :
  lookup_terminal id st = Some (r, t) ↔
  Map_get id (terminals st) = Some r ∧ heap st !! r = Some t.
Proof.
  unfold lookup_terminal. destruct (Map_get id (terminals st)) as [r'|]; simpl.
  - destruct (heap st !! r') as [t'|] eqn:E; simpl.
    + split; [intros [= -> ->]; done | intros [[= ->] ?]; congruence].
    + split; [done | intros [[= ->] ?]; congruence].
  - split; [done | intros [? _]; done].
Qed.

Create Rewrite HintDb mgr.
#[local] Hint Rewrite heap_update_terminal heap_pty_write heap_setTimeout
  heap_send heap_with_projectPath heap_captureClaudeSessionId
  ptys_send ptys_with_projectPath ptys_captureClaudeSessionId : mgr.

(** *** How the handlers change the heap *)

Lemma alter_missing {A} (f : A → A) (l : list A) i :
  l !! i = None → alter f i l = l.
Proof.
  revert i. induction l as [|x l IH]; intros [|i] Hi; simplify_eq/=; [done..|].
  f_equal. by apply IH.
Qed.

Lemma evolves_lookup ok (hp hp' : list TerminalProcess) r t :
  (∀ t, ok t t) → (∀ a b c, ok a b → ok b c → ok a c) →
  evolves ok hp hp' → hp !! r = Some t →
  ∃ t', hp' !! r = Some t' ∧ ok t t'.
Proof.
  intros Hrefl Htrans Hev Hr. induction Hev as [hp|hp hp' r' f _ IH Hf|hp hp' t0 _ IH].
  - eauto.
  - destruct (IH Hr) as (t' & Ht' & Hok).
    rewrite list_lookup_alter. case_decide; [subst|eauto].
    rewrite Ht'. simpl. eauto.
  - destruct (IH Hr) as (t' & Ht' & Hok).
    exists t'. split; [|done]. by apply lookup_app_l_Some.
Qed.

Lemma evolves_trans ok (h1 h2 h3 : list TerminalProcess) :
  evolves ok h1 h2 → evolves ok h2 h3 → evolves ok h1 h3.
Proof.
  intros H12 H23. induction H23; [done| |]; by constructor; auto.
Qed.

Lemma evolves_alter1 ok (hp : list TerminalProcess) r f :
  (∀ t, hp !! r = Some t → ok t (f t)) → evolves ok hp (alter f r hp).
Proof. intros. apply evolves_alter; [constructor|done]. Qed.

Section Evolution.
Variable ok : TerminalProcess → TerminalProcess → Prop.
Hypothesis ok_title : ∀ s t, ok t (with_title s t).
Hypothesis ok_mode : ∀ t, ok t (with_isClaudeMode true t).
Hypothesis ok_adopt :
  ∀ o t, truthy (tp_claudeSessionId t) = false → ok t (with_claudeSessionId o t).
Hypothesis ok_trans : ∀ a b c, ok a b → ok b c → ok a c.

Local Hint Resolve evolves_refl evolves_alter1 : core.
Local Hint Constructors evolves : core.

Lemma evolves_create e o st : evolves ok (heap st) (heap (create e o st).1).
Proof.
  unfold create. repeat case_match; simpl; autorewrite with mgr; simpl; auto.
Qed.

Lemma evolves_restore e session cols rows st :
  evolves ok (heap st) (heap (restore e session cols rows st).1).
Proof.
  unfold restore.
  pose proof (evolves_create e (restore_options session cols rows) st) as Hc.
  destruct (create _ _ st) as [st1 result]. simpl in Hc.
  repeat case_match; simpl; auto.
  all: eapply evolves_trans; [exact Hc|]; auto.
Qed.

Lemma evolves_destroy e id st : evolves ok (heap st) (heap (destroy e id st).1).
Proof.
  unfold destroy. repeat case_match; simpl; autorewrite with mgr; auto.
Qed.

Lemma evolves_write id data st : evolves ok (heap st) (heap (write id data st)).
Proof. unfold write. repeat case_match; simpl; auto. Qed.

Lemma evolves_resize id cols rows st :
  evolves ok (heap st) (heap (resize id cols rows st)).
Proof. unfold resize. repeat case_match; simpl; auto. Qed.

Lemma evolves_setTitle id title st :
  evolves ok (heap st) (heap (setTitle id title st)).
Proof. unfold setTitle. repeat case_match; simpl; auto. Qed.

Lemma evolves_killAll e st : evolves ok (heap st) (heap (killAll e st)).
Proof. unfold killAll. repeat case_match; simpl; auto. Qed.

Lemma evolves_onExit e r code st : evolves ok (heap st) (heap (onExit e r code st)).
Proof.
  unfold onExit. repeat case_match; simpl; autorewrite with mgr; auto.
Qed.

Lemma evolves_onData_session e r data st :
  evolves ok (heap st) (heap (onData_session e r data st)).
Proof.
  unfold onData_session. repeat case_match; simpl; autorewrite with mgr; auto.
  simpl. apply evolves_alter1. intros t' Ht'. apply ok_adopt.
  simplify_eq. destruct (tp_isClaudeMode _); [|done].
  by destruct (truthy _).
Qed.

Lemma evolves_onData_rateLimit e r data st :
  evolves ok (heap st) (heap (onData_rateLimit e r data st)).
Proof.
  unfold onData_rateLimit. repeat case_match; simpl; autorewrite with mgr; auto.
Qed.

Lemma evolves_checkForSession e id pp t0 n st :
  evolves ok (heap st) (heap (checkForSession e id pp t0 n st)).
Proof.
  unfold checkForSession, adopt_session.
  repeat case_match; simpl; autorewrite with mgr; auto.
  simpl. apply evolves_alter1. intros t' Ht'. apply ok_adopt.
  match goal with H : lookup_terminal _ _ = Some _ |- _ =>
    apply lookup_terminal_Some in H as [_ ?] end.
  simplify_eq. by destruct (truthy _).
Qed.

Lemma evolves_resumeClaude_continue e id sessionId st :
  truthy sessionId = false →
  evolves ok (heap st) (heap (resumeClaude e id sessionId st)).
Proof.
  unfold resumeClaude. intros Hs.
  destruct (lookup_terminal id st) as [[r terminal]|]; [|auto].
  destruct sessionId as [[|c sid]|]; simplify_eq/=; autorewrite with mgr; auto.
Qed.

Lemma evolves_onData_after e r data st :
  evolves ok (alter (append_output data) r (heap st)) (heap (onData e r data st)).
Proof.
  unfold onData. destruct (heap st !! r) as [terminal|] eqn:Hr.
  - autorewrite with mgr.
    eapply evolves_trans; [|apply evolves_onData_rateLimit].
    eapply evolves_trans; [|apply evolves_onData_session].
    autorewrite with mgr. auto.
  - rewrite alter_missing by done. auto.
Qed.

(** The step function, for a relation that each event respects: the
    buffer update matters for data events only, and an unconditional
    assignment of the session id for the three events that make one. *)
Lemma evolves_step e (ev : Event) st :
  (is_data ev = false ∨ ∀ d t, ok t (append_output d t)) →
  (assigns_session ev st = false ∨ ∀ o t, ok t (with_claudeSessionId o t)) →
  evolves ok (heap st) (heap (step e ev st)).
Proof.
  intros Hdata Hsid. destruct ev; simpl in *.
  - apply evolves_create.
  - apply evolves_restore.
  - apply evolves_destroy.
  - apply evolves_write.
  - apply evolves_resize.
  - destruct Hsid as [?|Hsid]; [done|]. unfold invokeClaude.
    destruct (lookup_terminal id st) as [[r terminal]|]; [|auto].
    destruct (truthy _); autorewrite with mgr.
    all: apply evolves_alter1; intros; eapply ok_trans; [apply ok_mode|apply Hsid].
  - destruct Hsid as [?|Hsid]; [by apply evolves_resumeClaude_continue|].
    unfold resumeClaude.
    destruct (lookup_terminal id st) as [[r terminal]|]; [|auto].
    destruct sessionId as [[|c sid]|]; simpl; autorewrite with mgr; simpl; auto.
  - apply evolves_setTitle.
  - auto.
  - apply evolves_killAll.
  - destruct (ptys st !! pty) as [p|]; [|auto].
    destruct Hdata as [?|Hdata]; [done|].
    eapply evolves_trans; [|apply evolves_onData_after]. auto.
  - destruct (ptys st !! pty) as [p|]; [|auto]. apply evolves_onExit.
  - destruct (saveTimer st); auto.
  - unfold fire. destruct (timers st !! k) as [[d a]|] eqn:Hk; [|auto].
    simpl. destruct (d <=? now e); [|auto].
    destruct a as [terminalId projectPath startTime attempts|session r]; simpl.
    + apply (evolves_checkForSession _ _ _ _ _ (set_timers _ st)).
    + destruct Hsid as [?|Hsid]; [done|]. unfold restoreResume. simpl.
      destruct (heap st !! r) as [terminal|]; [|simpl; auto].
      destruct (_ && _); simpl; autorewrite with mgr.
      all: apply evolves_alter1; intros; eapply ok_trans; [apply ok_mode|apply Hsid].
Qed.
End Evolution.

(** *** The output buffer along a run *)

Lemma same_buffer_lookup (hp hp' : list TerminalProcess) r t :
  evolves same_buffer hp hp' → hp !! r = Some t →
  ∃ t', hp' !! r = Some t' ∧ tp_outputBuffer t' = tp_outputBuffer t.
Proof.
  apply evolves_lookup; unfold same_buffer; [done|congruence].
Qed.

Lemma step_buffer e (ev : Event) st r t :
  heap st !! r = Some t →
  Z.of_nat (length (tp_outputBuffer t)) ≤ 100000 →
  ∃ t', heap (step e ev st) !! r = Some t'
    ∧ tp_outputBuffer t' = slice (-100000) (tp_outputBuffer t ++ chunk_for r ev st).
Proof.
  intros Hr Hlen.
  assert (∀ ev', is_data ev' = false →
            ∃ t', heap (step e ev' st) !! r = Some t'
              ∧ tp_outputBuffer t' = tp_outputBuffer t) as Hquiet.
  { intros ev' Hev'. eapply same_buffer_lookup; [|done].
    apply evolves_step; unfold same_buffer; auto; congruence. }
  destruct (is_data ev) eqn:Hd.
  2: { destruct (Hquiet _ Hd) as (t' & ? & Hb). exists t'. split; [done|].
       replace (chunk_for r ev st) with (@nil N) by (by destruct ev).
       by rewrite Hb, app_nil_r, cap_short by lia. }
  destruct ev as [| | | | | | | | | |h data| | |]; try done.
  simpl. destruct (ptys st !! h) as [p|] eqn:Hp.
  - assert (evolves same_buffer
              (alter (append_output data) (pty_terminal p) (heap st))
              (heap (onData e (pty_terminal p) data st))) as Hev
      by (by apply evolves_onData_after).
    destruct (decide (pty_terminal p = r)) as [Heq|Hne].
    + rewrite Heq in Hev.
      destruct (same_buffer_lookup _ _ r (append_output data t) Hev)
        as (t' & Ht' & Hb); [by rewrite list_lookup_alter_eq, Hr|].
      exists t'. split; [by rewrite Heq|]. by rewrite Hb.
    + destruct (same_buffer_lookup _ _ r t Hev)
        as (t' & Ht' & Hb); [by rewrite list_lookup_alter_ne, Hr|].
      exists t'. split; [done|].
      by rewrite Hb, app_nil_r, cap_short by lia.
  - exists t. by rewrite app_nil_r, cap_short by lia.
Qed.

Lemma run_buffer (tr : list (Env * Event)) st r t :
  heap st !! r = Some t →
  Z.of_nat (length (tp_outputBuffer t)) ≤ 100000 →
  ∃ t', heap (run tr st) !! r = Some t'
    ∧ tp_outputBuffer t' = slice (-100000) (tp_outputBuffer t ++ received r tr st).
Proof.
  revert st t. induction tr as [|[e ev] tr IH]; intros st t Hr Hlen; simpl.
  - exists t. by rewrite app_nil_r, cap_short by lia.
  - destruct (step_buffer e ev st r t Hr Hlen) as (t1 & Hr1 & Hb1).
    destruct (IH _ t1 Hr1) as (t' & Hr' & Hb').
    { rewrite Hb1, cap_length. lia. }
    exists t'. split; [done|].
    by rewrite Hb', Hb1, cap_app, app_assoc.
Qed.

(** C1. After [create] has made a terminal, whatever happens next
    (commands, output of any pty, exits, timers), its [outputBuffer] is
    the trailing window of the concatenation of all chunks its pty
    delivered so far: the last 100000 characters when there are more, the
    whole output otherwise; its length never exceeds 100000. *)
Theorem outputBuffer_trailing_window e options st (tr : list (Env * Event)) :
  Map_has (opt_id options) (terminals st) = false →
  spawnThrows e = None →
  let st1 := (create e options st).1 in
  let r := length (heap st) in
  let full := received r tr st1 in
  buffer_of r (run tr st1)
    = drop (Z.to_nat (Z.of_nat (length full) - 100000)) full
  ∧ Z.of_nat (length (buffer_of r (run tr st1)))
    = Z.min (Z.of_nat (length full)) 100000
  ∧ Z.of_nat (length (buffer_of r (run tr st1))) ≤ 100000.
Proof.
  intros Hnew Hspawn st1 r full.
  assert (heap st1 !! r
          = Some (new_terminal e options (length (ptys st)) (length (terminals st))))
    as Hr.
  { subst st1 r. unfold create. rewrite Hnew, Hspawn. simpl.
    autorewrite with mgr. simpl. by apply list_lookup_middle. }
  destruct (run_buffer tr st1 r _ Hr) as (t' & Ht' & Hb); [simpl; lia|].
  simpl in Hb. fold full in Hb.
  unfold buffer_of, buf_at. rewrite Ht', Hb.
  rewrite cap_length. split; [apply cap_drop|]. split; lia.
Qed.

(** *** create *)

Lemma create_existing e options st :
  Map_has (opt_id options) (terminals st) = true →
  create e options st = (st, ok).
Proof. intros Hhas. unfold create. by rewrite Hhas. Qed.

Lemma create_spawn_failure e options st err :
  Map_has (opt_id options) (terminals st) = false →
  spawnThrows e = Some err →
  create e options st
  = (st, failure (message_or err (str "Failed to create terminal"))).
Proof. intros Hhas Hs. unfold create. by rewrite Hhas, Hs. Qed.

Lemma create_spawned e options st :
  Map_has (opt_id options) (terminals st) = false →
  spawnThrows e = None →
  let st1 := (create e options st).1 in
  (create e options st).2 = ok
  ∧ ptys st1 = ptys st ++ [new_pty e options (length (heap st))]
  ∧ heap st1
    = heap st ++ [new_terminal e options (length (ptys st)) (length (terminals st))]
  ∧ terminals st1 = Map_set (opt_id options) (length (heap st)) (terminals st).
Proof.
  intros Hhas Hs. unfold create. rewrite Hhas, Hs. simpl.
  autorewrite with mgr. simpl.
  repeat split; unfold with_projectPath; by repeat case_match.
Qed.

(** C9. [create] on an id that is already registered returns success and
    leaves the manager as it is (no second [pty.spawn]); so two calls with
    one id give two successes and one process. [create] fails exactly
    when the id is new and [pty.spawn] throws, and the failure carries the
    message of the thrown error (the fixed text when the thrown value is
    not an [Error]); nothing is registered then. *)
Theorem create_duplicate_is_success :
  (∀ e options st,
     Map_has (opt_id options) (terminals st) = true →
     create e options st = (st, ok))
  ∧ (∀ e1 e2 o1 o2 st,
       opt_id o2 = opt_id o1 →
       Map_has (opt_id o1) (terminals st) = false →
       spawnThrows e1 = None →
       let '(st1, result1) := create e1 o1 st in
       let '(st2, result2) := create e2 o2 st1 in
       success result1 = true ∧ success result2 = true
       ∧ st2 = st1
       ∧ ptys st2 = ptys st ++ [new_pty e1 o1 (length (heap st))]
       ∧ Map_get (opt_id o1) (terminals st2) = Some (length (heap st)))
  ∧ (∀ e options st,
       success (create e options st).2 = false ↔
       Map_has (opt_id options) (terminals st) = false
       ∧ is_Some (spawnThrows e))
  ∧ (∀ e options st err,
       Map_has (opt_id options) (terminals st) = false →
       spawnThrows e = Some err →
       (create e options st).1 = st
       ∧ error (create e options st).2
         = Some (message_or err (str "Failed to create terminal")))
  ∧ (∀ m, message_or (ErrorObj m) (str "Failed to create terminal") = m).
Proof.
  split; [apply create_existing|].
  split.
  { intros e1 e2 o1 o2 st Hid Hnew Hs.
    destruct (create_spawned e1 o1 st Hnew Hs) as (Hres & Hp & Hh & Ht).
    destruct (create e1 o1 st) as [st1 result1]. simpl in *.
    rewrite create_existing.
    - subst result1. repeat split; [done|].
      by rewrite Ht, Map_get_set_eq.
    - rewrite Hid, Ht. apply Map_has_get. rewrite Map_get_set_eq. by eexists. }
  split.
  { intros e options st. unfold create.
    destruct (Map_has _ _); simpl.
    - split; [done|]. by intros [? _].
    - destruct (spawnThrows e) as [err|]; simpl.
      + split; [|done]. intros _. split; [done|by eexists].
      + unfold with_projectPath. split.
        * by repeat case_match.
        * intros [_ [? ?]]. done. }
  split; [|done].
  intros e options st err Hnew Hs. by rewrite (create_spawn_failure _ _ _ err).
Qed.

(** *** destroy *)

Lemma destroy_unknown e id st :
  Map_get id (terminals st) = None →
  destroy e id st = (st, failure (str "Terminal not found")).
Proof. intros Hid. unfold destroy, lookup_terminal. by rewrite Hid. Qed.

Lemma store_with_projectPath o (f : jstring → S → S) st :
  store (with_projectPath o f st)
  = match o with
    | Some (c :: pp) => f (c :: pp) (store st)
    | _ => store st
    end.
Proof. unfold with_projectPath. by repeat case_match. Qed.

Lemma terminals_with_projectPath o (f : jstring → S → S) st :
  terminals (with_projectPath o f st) = terminals st.
Proof. unfold with_projectPath. by repeat case_match. Qed.

(** C2, as the code has it. An unknown id gives the "Terminal not found"
    failure and changes nothing. For a known id the persisted record is
    removed first (when the terminal has a project path); then, if [kill]
    returns, the pty is dead, the id leaves the map and the result is a
    success; if [kill] throws, the error is caught and comes back as a
    failure carrying its message, and the terminal stays in the map with
    its pty untouched. *)
Theorem destroy_outcomes :
  (∀ e id st,
     Map_get id (terminals st) = None →
     destroy e id st = (st, failure (str "Terminal not found")))
  ∧ (∀ e id st r t,
       lookup_terminal id st = Some (r, t) →
       killThrows e (tp_pty t) = None →
       let st' := (destroy e id st).1 in
       (destroy e id st).2 = ok
       ∧ store st' = match tp_projectPath t with
                     | Some (c :: pp) => removeSession (c :: pp) id (store st)
                     | _ => store st
                     end
       ∧ ptys st' = alter pty_dead (tp_pty t) (ptys st)
       ∧ terminals st' = Map_delete id (terminals st)
       ∧ Map_get id (terminals st') = None
       ∧ heap st' = heap st ∧ sent st' = sent st ∧ timers st' = timers st
       ∧ rateLimitNotifiedAt st' = rateLimitNotifiedAt st
       ∧ saveTimer st' = saveTimer st)
  ∧ (∀ e id st r t err,
       lookup_terminal id st = Some (r, t) →
       killThrows e (tp_pty t) = Some err →
       let st' := (destroy e id st).1 in
       (destroy e id st).2
         = failure (message_or err (str "Failed to destroy terminal"))
       ∧ store st' = match tp_projectPath t with
                     | Some (c :: pp) => removeSession (c :: pp) id (store st)
                     | _ => store st
                     end
       ∧ terminals st' = terminals st
       ∧ ptys st' = ptys st
       ∧ heap st' = heap st ∧ sent st' = sent st ∧ timers st' = timers st
       ∧ rateLimitNotifiedAt st' = rateLimitNotifiedAt st
       ∧ saveTimer st' = saveTimer st).
Proof.
  split; [apply destroy_unknown|]. split.
  - intros e id st r t Hl Hk. unfold destroy. rewrite Hl, Hk. simpl.
    rewrite store_with_projectPath, terminals_with_projectPath.
    autorewrite with mgr. rewrite Map_get_delete_eq.
    repeat split; unfold with_projectPath; by repeat case_match.
  - intros e id st r t err Hl Hk. unfold destroy. rewrite Hl, Hk. simpl.
    rewrite store_with_projectPath, terminals_with_projectPath.
    autorewrite with mgr.
    repeat split; unfold with_projectPath; by repeat case_match.
Qed.

(** *** invokeClaude and resumeClaude *)

Lemma sent_send e n st :
  sent (send e n st) = sent st ++ (if window e then [n] else []).
Proof. unfold send. destruct (window e); simpl; [done|by rewrite app_nil_r]. Qed.

Lemma sent_with_projectPath o (f : jstring → S → S) st :
  sent (with_projectPath o f st) = sent st.
Proof. unfold with_projectPath. by repeat case_match. Qed.

Lemma sent_captureClaudeSessionId e id pp t0 st :
  sent (captureClaudeSessionId e id pp t0 st) = sent st.
Proof. unfold captureClaudeSessionId. by case_match. Qed.

Lemma store_captureClaudeSessionId e id pp t0 st :
  store (captureClaudeSessionId e id pp t0 st) = store st.
Proof. unfold captureClaudeSessionId. by case_match. Qed.

Lemma store_send e n st : store (send e n st) = store st.
Proof. unfold send. by destruct (window e). Qed.

#[local] Hint Rewrite sent_send sent_with_projectPath
  sent_captureClaudeSessionId store_captureClaudeSessionId store_send
  store_with_projectPath terminals_with_projectPath : mgr.

(** The session that [invokeClaude] writes back: the stored one with the
    mode flag set and the activity date refreshed. *)
Lemma invokeClaude_store e id cwd st r t :
  lookup_terminal id st = Some (r, t) →
  store (invokeClaude e id cwd st)
  = match tp_projectPath t with
    | Some (c :: pp) =>
        match getSession (c :: pp) id (store st) with
        | Some session =>
            saveSession
              {| ts_id := ts_id session; ts_title := ts_title session;
                 ts_cwd := ts_cwd session;
                 ts_projectPath := ts_projectPath session;
                 ts_isClaudeMode := true;
                 ts_claudeSessionId := ts_claudeSessionId session;
                 ts_outputBuffer := ts_outputBuffer session;
                 ts_createdAt := ts_createdAt session;
                 ts_lastActiveAt := now e |} (store st)
        | None => store st
        end
    | _ => store st
    end.
Proof.
  intros Hl. unfold invokeClaude. rewrite Hl.
  destruct (truthy _); autorewrite with mgr; simpl; by repeat case_match.
Qed.

(** C10. On a known id, [invokeClaude] and [resumeClaude] send the title
    change "Claude" to the window but do not touch the [title] field of
    the terminal: of the record only [isClaudeMode] and [claudeSessionId]
    change, every other terminal object is as before, and the title that
    a later [persistAllSessions] snapshot carries, or that [invokeClaude]
    itself writes back to the store, is the one from before the call. *)
Theorem invoke_resume_keep_title e id st r t :
  lookup_terminal id st = Some (r, t) →
  (∀ cwd,
     let st' := invokeClaude e id cwd st in
     (∃ t', heap st' !! r = Some t'
        ∧ tp_title t' = tp_title t ∧ tp_id t' = tp_id t ∧ tp_pty t' = tp_pty t
        ∧ tp_projectPath t' = tp_projectPath t ∧ tp_cwd t' = tp_cwd t
        ∧ tp_outputBuffer t' = tp_outputBuffer t
        ∧ tp_isClaudeMode t' = true ∧ tp_claudeSessionId t' = None
        ∧ ∀ e' pp, ts_title (snapshot e' t' pp) = tp_title t)
     ∧ (∀ r', r' ≠ r → heap st' !! r' = heap st !! r')
     ∧ sent st' = sent st
                  ++ (if window e then [TERMINAL_TITLE_CHANGE id CLAUDE] else [])
     ∧ (store st' = store st
        ∨ ∃ pp session saved,
            tp_projectPath t = Some pp
            ∧ getSession pp id (store st) = Some session
            ∧ store st' = saveSession saved (store st)
            ∧ ts_title saved = ts_title session))
  ∧ (∀ sessionId,
       let st' := resumeClaude e id sessionId st in
       (∃ t', heap st' !! r = Some t'
          ∧ tp_title t' = tp_title t ∧ tp_id t' = tp_id t ∧ tp_pty t' = tp_pty t
          ∧ tp_projectPath t' = tp_projectPath t ∧ tp_cwd t' = tp_cwd t
          ∧ tp_outputBuffer t' = tp_outputBuffer t
          ∧ tp_isClaudeMode t' = true
          ∧ tp_claudeSessionId t'
            = (if truthy sessionId then sessionId else tp_claudeSessionId t)
          ∧ ∀ e' pp, ts_title (snapshot e' t' pp) = tp_title t)
       ∧ (∀ r', r' ≠ r → heap st' !! r' = heap st !! r')
       ∧ sent st' = sent st
                    ++ (if window e then [TERMINAL_TITLE_CHANGE id CLAUDE] else [])
       ∧ store st' = store st).
Proof.
  intros Hl. pose proof Hl as [_ Hr]%lookup_terminal_Some. split.
  - intros cwd st'. split; [|split; [|split]].
    + exists (with_claudeSessionId None (with_isClaudeMode true t)).
      split; [|done]. subst st'. unfold invokeClaude. rewrite Hl.
      destruct (truthy _); autorewrite with mgr;
        by rewrite list_lookup_alter_eq, Hr.
    + intros r' Hne. subst st'. unfold invokeClaude. rewrite Hl.
      destruct (truthy _); autorewrite with mgr;
        by rewrite list_lookup_alter_ne.
    + subst st'. unfold invokeClaude. rewrite Hl.
      destruct (truthy _); by autorewrite with mgr.
    + subst st'. rewrite (invokeClaude_store _ _ _ _ _ _ Hl).
      destruct (tp_projectPath t) as [[|c pp]|]; [by left..| |by left].
      destruct (getSession (c :: pp) id (store st)) as [session|] eqn:Hget;
        [|by left].
      right. by eexists _, _, _.
  - intros sessionId st'. split; [|split; [|split]].
    + subst st'. unfold resumeClaude. rewrite Hl.
      destruct sessionId as [[|c sid]|]; simpl; autorewrite with mgr;
        rewrite ?list_lookup_alter_eq, Hr; simpl; eexists; (split; [done|done]).
    + intros r' Hne. subst st'. unfold resumeClaude. rewrite Hl.
      destruct sessionId as [[|c sid]|]; simpl; autorewrite with mgr;
        by rewrite ?list_lookup_alter_ne.
    + subst st'. unfold resumeClaude. rewrite Hl.
      destruct sessionId as [[|c sid]|]; simpl; by autorewrite with mgr.
    + subst st'. unfold resumeClaude. rewrite Hl.
      destruct sessionId as [[|c sid]|]; simpl; by autorewrite with mgr.
Qed.

(** *** killAll *)

Lemma persistAllSessions_store e st :
  store (persistAllSessions e st)
  = foldl (fun s x => saveSession x s) (store st) (live_sessions e st).
Proof.
  unfold persistAllSessions, live_sessions. simpl.
  generalize (store st). induction (terminals st) as [|entry m IH]; intros s0.
  - done.
  - simpl. rewrite IH. unfold persist_one.
    destruct (heap st !! entry.2) as [t|]; simpl; [|done].
    by destruct (tp_projectPath t) as [[|c pp]|].
Qed.

Lemma kill_loop e hp (m : TerminalMap) (ps : list Pty) :
  foldl (kill_quietly e hp) ps m
  = foldl (fun ps h => alter pty_dead h ps) ps
      (omap (fun entry : jstring * nat =>
               t ← hp !! entry.2;
               match killThrows e (tp_pty t) with
               | None => Some (tp_pty t)
               | Some _ => None
               end) m).
Proof.
  revert ps. induction m as [|entry m IH]; intros ps; [done|].
  simpl. rewrite IH. unfold kill_quietly.
  destruct (hp !! entry.2) as [t|]; simpl; [|done].
  by destruct (killThrows e (tp_pty t)).
Qed.

Lemma kill_handles_lookup (hs : list nat) (ps : list Pty) h :
  foldl (fun ps h => alter pty_dead h ps) ps hs !! h
  = if decide (h ∈ hs) then pty_dead <$> ps !! h else ps !! h.
Proof.
  revert ps. induction hs as [|h' hs IH]; intros ps; cbn [foldl].
  - case_decide as Hin; [by apply elem_of_nil in Hin|done].
  - rewrite IH, list_lookup_alter.
    destruct (decide (h' = h)) as [->|Hne].
    + destruct (decide (h ∈ hs)) as [Hin|Hnin].
      * rewrite decide_True by apply list_elem_of_here.
        by destruct (ps !! h).
      * by rewrite decide_True by apply list_elem_of_here.
    + destruct (decide (h ∈ hs)) as [Hin|Hnin].
      * by rewrite decide_True by (by apply list_elem_of_further).
      * rewrite decide_False; [done|].
        intros [?|?]%elem_of_cons; [congruence|done].
Qed.

Lemma rateLimitNotifiedAt_with_projectPath o (f : jstring → S → S) st :
  rateLimitNotifiedAt (with_projectPath o f st) = rateLimitNotifiedAt st.
Proof. unfold with_projectPath. by repeat case_match. Qed.

Lemma rateLimitNotifiedAt_captureClaudeSessionId e id pp t0 st :
  rateLimitNotifiedAt (captureClaudeSessionId e id pp t0 st)
  = rateLimitNotifiedAt st.
Proof. unfold captureClaudeSessionId. by case_match. Qed.

Lemma rateLimitNotifiedAt_send e n st :
  rateLimitNotifiedAt (send e n st) = rateLimitNotifiedAt st.
Proof. unfold send. by destruct (window e). Qed.

#[local] Hint Rewrite rateLimitNotifiedAt_with_projectPath
  rateLimitNotifiedAt_captureClaudeSessionId rateLimitNotifiedAt_send : mgr.

(** *** The rate-limit notice *)

Lemma rate_limits_send e n st :
  rate_limits (sent (send e n st))
  = rate_limits (sent st) ++ (if window e then rate_limits [n] else []).
Proof.
  rewrite sent_send. unfold rate_limits. rewrite List.filter_app.
  by destruct (window e).
Qed.

Lemma rate_limits_send_other e n st :
  rate_limits [n] = [] →
  rate_limits (sent (send e n st)) = rate_limits (sent st).
Proof.
  intros Hn. rewrite rate_limits_send, Hn.
  destruct (window e); by rewrite app_nil_r.
Qed.

Lemma onData_session_quiet e r data st :
  rateLimitNotifiedAt (onData_session e r data st) = rateLimitNotifiedAt st
  ∧ rate_limits (sent (onData_session e r data st)) = rate_limits (sent st).
Proof.
  unfold onData_session. destruct (heap st !! r) as [t|]; [|done].
  destruct (_ && _); [|done].
  destruct (extractClaudeSessionId data) as [[|c sid]|]; [done| |done].
  split.
  - unfold send, with_projectPath. by repeat case_match.
  - rewrite rate_limits_send_other by done. by autorewrite with mgr.
Qed.

Lemma same_mode_lookup (hp hp' : list TerminalProcess) r t :
  evolves same_mode hp hp' → hp !! r = Some t →
  ∃ t', hp' !! r = Some t' ∧ same_mode t t'.
Proof.
  apply evolves_lookup; unfold same_mode; [done|].
  intros a b c [? ?] [? ?]. split; congruence.
Qed.

(** What one chunk does to the cool-down map and to the rate-limit
    notifications, for a terminal in Claude mode. *)
Lemma onData_rate_limit e r data st t :
  heap st !! r = Some t →
  let st' := onData e r data st in
  let last := default 0 (rateLimitNotifiedAt st !! tp_id t) in
  (∃ t', heap st' !! r = Some t' ∧ same_mode t t')
  ∧ match rateLimitResetTime data with
    | Some reset =>
        if tp_isClaudeMode t && (60000 <? now e - last) then
          rateLimitNotifiedAt st' = <[tp_id t := now e]> (rateLimitNotifiedAt st)
          ∧ rate_limits (sent st')
            = rate_limits (sent st)
              ++ (if window e
                  then [TERMINAL_RATE_LIMIT (tp_id t) reset (now e)] else [])
        else
          rateLimitNotifiedAt st' = rateLimitNotifiedAt st
          ∧ rate_limits (sent st') = rate_limits (sent st)
    | None =>
        rateLimitNotifiedAt st' = rateLimitNotifiedAt st
        ∧ rate_limits (sent st') = rate_limits (sent st)
    end.
Proof.
  intros Hr st' last.
  assert (evolves same_mode (heap st) (heap st')) as Hev.
  { eapply evolves_trans; [|by apply evolves_onData_after].
    by apply evolves_alter1. }
  split; [by eapply same_mode_lookup|].
  subst st'. unfold onData. rewrite Hr.
  set (st1 := update_terminal r (append_output data) st).
  destruct (onData_session_quiet e r data st1) as [Hmap Hsent].
  assert (∃ t2, heap (onData_session e r data st1) !! r = Some t2
                ∧ same_mode t t2) as (t2 & Hr2 & Hid & Hmode).
  { eapply same_mode_lookup; [|done].
    eapply evolves_trans; [|by apply evolves_onData_session].
    subst st1. autorewrite with mgr. by apply evolves_alter1. }
  set (st2 := onData_session e r data st1) in *.
  rewrite rate_limits_send_other, rateLimitNotifiedAt_send by done.
  change (rateLimitNotifiedAt st1) with (rateLimitNotifiedAt st) in Hmap.
  change (sent st1) with (sent st) in Hsent.
  unfold onData_rateLimit. rewrite Hr2, Hmode, Hid, Hmap.
  destruct (rateLimitResetTime data) as [reset|];
    destruct (tp_isClaudeMode t); simpl; try done.
  fold last. destruct (60000 <? now e - last); [|done].
  rewrite rate_limits_send, rateLimitNotifiedAt_send. simpl.
  by rewrite Hsent.
Qed.

(** C5. The notice of the documentation yields its reset text, trimmed;
    in general the reset text is the trimmed piece of the chunk that runs,
    after "resets", up to the end of that line. For a terminal in Claude
    mode and a chunk that matches the pattern: when more than 60000 ms
    separate the clock from the time recorded for this terminal id (0
    when none), the time is recorded and the notification is sent to the
    window; otherwise nothing is recorded or sent. Hence of two matching
    chunks the second is silent when it comes within 60 seconds of the
    first notification, and notifies again when it comes later. Outside
    Claude mode a chunk never notifies. *)
Theorem rate_limit_cooldown :
  rateLimitResetTime LIMIT_MESSAGE = Some (str "Dec 17 at 6am (Europe/Oslo)")
  ∧ (∀ data reset,
       rateLimitResetTime data = Some reset →
       ∃ pre head text rest,
         data = pre ++ head ++ text ++ rest
         ∧ reset = trim text
         ∧ text ≠ []
         ∧ Forall (fun c => isLineTerminator c = false) text
         ∧ at_eol flags_m rest = true)
  ∧ (∀ e r data st t reset,
       heap st !! r = Some t →
       tp_isClaudeMode t = true →
       rateLimitResetTime data = Some reset →
       let st' := onData e r data st in
       let last := default 0 (rateLimitNotifiedAt st !! tp_id t) in
       (60000 < now e - last →
        rateLimitNotifiedAt st' = <[tp_id t := now e]> (rateLimitNotifiedAt st)
        ∧ rate_limits (sent st')
          = rate_limits (sent st)
            ++ (if window e
                then [TERMINAL_RATE_LIMIT (tp_id t) reset (now e)] else []))
       ∧ (now e - last ≤ 60000 →
          rateLimitNotifiedAt st' = rateLimitNotifiedAt st
          ∧ rate_limits (sent st') = rate_limits (sent st)))
  ∧ (∀ e1 e2 r data st t reset,
       heap st !! r = Some t →
       tp_isClaudeMode t = true →
       rateLimitResetTime data = Some reset →
       window e1 = true → window e2 = true →
       60000 < now e1 - default 0 (rateLimitNotifiedAt st !! tp_id t) →
       let st2 := onData e2 r data (onData e1 r data st) in
       (now e2 - now e1 ≤ 60000 →
        rate_limits (sent st2)
        = rate_limits (sent st) ++ [TERMINAL_RATE_LIMIT (tp_id t) reset (now e1)])
       ∧ (60000 < now e2 - now e1 →
          rate_limits (sent st2)
          = rate_limits (sent st)
            ++ [TERMINAL_RATE_LIMIT (tp_id t) reset (now e1);
                TERMINAL_RATE_LIMIT (tp_id t) reset (now e2)]))
  ∧ (∀ e r data st t,
       heap st !! r = Some t →
       tp_isClaudeMode t = false →
       rateLimitNotifiedAt (onData e r data st) = rateLimitNotifiedAt st
       ∧ rate_limits (sent (onData e r data st)) = rate_limits (sent st)).
Proof.
  split; [by vm_compute|]. split; [apply rate_limit_capture|].
  assert (∀ e r data st t reset,
            heap st !! r = Some t → tp_isClaudeMode t = true →
            rateLimitResetTime data = Some reset →
            let st' := onData e r data st in
            let last := default 0 (rateLimitNotifiedAt st !! tp_id t) in
            (60000 < now e - last →
             rateLimitNotifiedAt st' = <[tp_id t := now e]> (rateLimitNotifiedAt st)
             ∧ rate_limits (sent st')
               = rate_limits (sent st)
                 ++ (if window e
                     then [TERMINAL_RATE_LIMIT (tp_id t) reset (now e)] else []))
            ∧ (now e - last ≤ 60000 →
               rateLimitNotifiedAt st' = rateLimitNotifiedAt st
               ∧ rate_limits (sent st') = rate_limits (sent st))) as Hone.
  { intros e r data st t reset Hr Hmode Hmatch st' last.
    destruct (onData_rate_limit e r data st t Hr) as [_ Hcase].
    rewrite Hmatch, Hmode in Hcase. simpl in Hcase. fold st' last in Hcase.
    destruct (Z.ltb_spec 60000 (now e - last)); split; intros; try lia; done. }
  split; [exact Hone|]. split.
  - intros e1 e2 r data st t reset Hr Hmode Hmatch Hw1 Hw2 Hfirst st2.
    destruct (Hone e1 r data st t reset Hr Hmode Hmatch) as [Hyes _].
    destruct (Hyes Hfirst) as [Hmap1 Hsent1]. rewrite Hw1 in Hsent1.
    destruct (onData_rate_limit e1 r data st t Hr)
      as [(t1 & Hr1 & Hid1 & Hmode1) _].
    rewrite Hmode in Hmode1.
    destruct (Hone e2 r data _ t1 reset Hr1 Hmode1 Hmatch) as [Hlate Hsoon].
    rewrite Hmap1, Hid1, lookup_insert_eq in Hlate, Hsoon.
    simpl in Hlate, Hsoon. rewrite Hw2 in Hlate. fold st2 in Hlate, Hsoon.
    split; intros Hgap.
    + destruct (Hsoon Hgap) as [_ ->]. by rewrite Hsent1.
    + destruct (Hlate Hgap) as [_ ->]. by rewrite Hsent1, <- app_assoc.
  - intros e r data st t Hr Hmode.
    destruct (onData_rate_limit e r data st t Hr) as [_ Hcase].
    rewrite Hmode in Hcase. by destruct (rateLimitResetTime data).
Qed.

(** No event removes an entry of the rate-limit map. *)
Lemma rateLimitNotifiedAt_grows e (ev : Event) st id :
  is_Some (rateLimitNotifiedAt st !! id) →
  is_Some (rateLimitNotifiedAt (step e ev st) !! id).
Proof.
  intros Hid.
  assert (∀ e r data st',
            rateLimitNotifiedAt st' = rateLimitNotifiedAt st →
            is_Some (rateLimitNotifiedAt (onData_rateLimit e r data st') !! id))
    as Hrl.
  { intros e' r data st' Heq. unfold onData_rateLimit.
    repeat case_match; simpl; autorewrite with mgr; simpl; rewrite ?Heq; try done.
    rewrite lookup_insert. by case_decide. }
  assert (∀ options,
            rateLimitNotifiedAt (create e options st).1 = rateLimitNotifiedAt st)
    as Hcreate.
  { intros options. unfold create.
    repeat case_match; simpl; by autorewrite with mgr. }
  destruct ev; simpl.
  - by rewrite Hcreate.
  - unfold restore.
    specialize (Hcreate (restore_options session cols rows)).
    destruct (create e _ st) as [st1 result]. simpl in Hcreate.
    repeat case_match; simpl; by rewrite Hcreate.
  - unfold destroy. repeat case_match; simpl; by autorewrite with mgr.
  - unfold write. by repeat case_match.
  - unfold resize. by repeat case_match.
  - unfold invokeClaude. destruct (lookup_terminal _ _) as [[r t]|]; [|done].
    destruct (truthy _); by autorewrite with mgr.
  - unfold resumeClaude. destruct (lookup_terminal _ _) as [[r t]|]; [|done].
    destruct sessionId as [[|c sid]|]; simpl; by autorewrite with mgr.
  - unfold setTitle. by repeat case_match.
  - done.
  - unfold killAll. by destruct (saveTimer _).
  - destruct (ptys st !! pty) as [p|]; [|done]. unfold onData.
    destruct (heap st !! pty_terminal p); [|done]. autorewrite with mgr.
    apply Hrl. by destruct (onData_session_quiet e (pty_terminal p) data
                             (update_terminal (pty_terminal p)
                                (append_output data) st)) as [-> _].
  - destruct (ptys st !! pty) as [p|]; [|done]. unfold onExit.
    destruct (heap st !! pty_terminal p); [|done]. simpl.
    by autorewrite with mgr.
  - by destruct (saveTimer st).
  - unfold fire. destruct (timers st !! k) as [[d a]|]; [|done]. simpl.
    destruct (d <=? now e); [|done]. destruct a; simpl.
    + unfold checkForSession, adopt_session.
      repeat case_match; simpl; by autorewrite with mgr.
    + unfold restoreResume. simpl. destruct (heap st !! terminal); [|done].
      destruct (_ && _); simpl; by autorewrite with mgr.
Qed.

(** C8, as the code has it. [killAll] saves a snapshot of every
    registered terminal that has a project path, stops the save interval
    (a later tick does nothing), kills every registered pty whose [kill]
    returns and skips, without stopping, those whose [kill] throws,
    and empties the map. The rate-limit map is not touched, nor are the
    terminal objects, the notifications sent, or the pending timeouts;
    and no event of the manager ever removes an entry of the rate-limit
    map. *)
Theorem killAll_teardown e st :
  let st' := killAll e st in
  store st' = foldl (fun s x => saveSession x s) (store st) (live_sessions e st)
  ∧ saveTimer st' = None
  ∧ (∀ e', step e' SaveTick st' = st')
  ∧ (∀ h, ptys st' !! h
          = if decide (h ∈ killed_handles e st)
            then pty_dead <$> ptys st !! h else ptys st !! h)
  ∧ (∀ id r t,
       (id, r) ∈ terminals st → heap st !! r = Some t →
       killThrows e (tp_pty t) = None → tp_pty t ∈ killed_handles e st)
  ∧ terminals st' = []
  ∧ rateLimitNotifiedAt st' = rateLimitNotifiedAt st
  ∧ heap st' = heap st ∧ sent st' = sent st ∧ timers st' = timers st
  ∧ (∀ e' (ev : Event) st0 id,
       is_Some (rateLimitNotifiedAt st0 !! id) →
       is_Some (rateLimitNotifiedAt (step e' ev st0) !! id)).
Proof.
  intros st'. subst st'. unfold killAll.
  pose proof rateLimitNotifiedAt_grows as Hgrows.
  pose proof (persistAllSessions_store e st) as Hstore.
  assert (∀ id r t,
            (id, r) ∈ terminals st → heap st !! r = Some t →
            killThrows e (tp_pty t) = None → tp_pty t ∈ killed_handles e st)
    as Hkilled.
  { intros id r t Hin Hr Hk. unfold killed_handles.
    apply list_elem_of_omap. exists (id, r). split; [done|].
    simpl. rewrite Hr. simpl. by rewrite Hk. }
  assert (∀ h, foldl (kill_quietly e (heap st)) (ptys st) (terminals st) !! h
               = if decide (h ∈ killed_handles e st)
                 then pty_dead <$> ptys st !! h else ptys st !! h) as Hptys.
  { intros h. by rewrite kill_loop, kill_handles_lookup. }
  destruct (saveTimer (persistAllSessions e st)) as [period|] eqn:Htimer;
    simpl; repeat split; try done.
  intros e'. simpl in *. by rewrite Htimer.
Qed.

(** *** Polling capture *)

Lemma timers_send e n st : timers (send e n st) = timers st.
Proof. unfold send. by destruct (window e). Qed.

Lemma timers_with_projectPath o (f : jstring → S → S) st :
  timers (with_projectPath o f st) = timers st.
Proof. unfold with_projectPath. by repeat case_match. Qed.

Lemma terminals_send e n st : terminals (send e n st) = terminals st.
Proof. unfold send. by destruct (window e). Qed.

#[local] Hint Rewrite timers_send timers_with_projectPath terminals_send : mgr.

(** A probe leaves the pending timeouts alone, or adds the next probe,
    one second later, with the counter one higher and below ten. *)
Lemma timers_checkForSession e id pp t0 n st :
  timers (checkForSession e id pp t0 n st) = timers st
  ∨ ((Datatypes.S n < maxAttempts)%nat
     ∧ timers (checkForSession e id pp t0 n st)
       = timers st ++ [{| due := now e + 1000;
                          action := CheckForSession id pp t0 (Datatypes.S n) |}]).
Proof.
  unfold checkForSession, adopt_session.
  destruct (lookup_terminal id st) as [[r t]|]; [|by left].
  destruct (negb _); [by left|]. destruct (truthy _); [by left|].
  destruct (findClaudeSessionAfter e pp t0) as [[|c sid]|].
  2: { left. by autorewrite with mgr. }
  all: destruct (Nat.ltb_spec (Datatypes.S n) maxAttempts); [by right|by left].
Qed.

Lemma next_attempt_checkForSession e id pp t0 n st n' :
  next_attempt st (checkForSession e id pp t0 n st) = Some n' →
  n' = Datatypes.S n ∧ (n' < maxAttempts)%nat.
Proof.
  unfold next_attempt.
  destruct (timers_checkForSession e id pp t0 n st) as [->|[Hlt ->]].
  - by rewrite lookup_ge_None_2.
  - rewrite list_lookup_middle by done. by intros [= <-].
Qed.

Lemma probes_run_bound id pp t0 n (meets : list (Env * Manager S)) :
  (n < maxAttempts)%nat →
  (probes_run id pp t0 n meets ≤ maxAttempts - n)%nat.
Proof.
  revert n. induction meets as [|[e st] rest IH]; intros n Hn; simpl; [lia|].
  destruct (next_attempt _ _) as [n'|] eqn:Hnext; [|lia].
  apply next_attempt_checkForSession in Hnext as [-> Hlt].
  specialize (IH _ Hlt). lia.
Qed.

Lemma checkForSession_abort e id pp t0 n st :
  match lookup_terminal id st with
  | None => True
  | Some (_, t) => tp_isClaudeMode t = false ∨ truthy (tp_claudeSessionId t) = true
  end →
  checkForSession e id pp t0 n st = st.
Proof.
  unfold checkForSession. destruct (lookup_terminal id st) as [[r t]|]; [|done].
  intros [->| ->]; [done|]. by destruct (negb _).
Qed.

Lemma checkForSession_not_found e id pp t0 n st r t :
  lookup_terminal id st = Some (r, t) →
  tp_isClaudeMode t = true →
  truthy (tp_claudeSessionId t) = false →
  truthy (findClaudeSessionAfter e pp t0) = false →
  checkForSession e id pp t0 n st
  = if (Datatypes.S n <? maxAttempts)%nat
    then setTimeout 1000 (CheckForSession id pp t0 (Datatypes.S n)) e st
    else st.
Proof.
  intros Hl Hmode Hsid Hscan. unfold checkForSession.
  rewrite Hl, Hmode, Hsid. simpl.
  by destruct (findClaudeSessionAfter e pp t0) as [[|c sid]|].
Qed.

Lemma checkForSession_found e id pp t0 n st r t sessionId :
  lookup_terminal id st = Some (r, t) →
  tp_isClaudeMode t = true →
  truthy (tp_claudeSessionId t) = false →
  findClaudeSessionAfter e pp t0 = Some sessionId →
  truthy (Some sessionId) = true →
  let st' := checkForSession e id pp t0 n st in
  heap st' = alter (with_claudeSessionId (Some sessionId)) r (heap st)
  ∧ store st' = match tp_projectPath t with
                | Some (c :: p) =>
                    updateClaudeSessionId (c :: p) id sessionId (store st)
                | _ => store st
                end
  ∧ sent st' = sent st
               ++ (if window e then [TERMINAL_CLAUDE_SESSION id sessionId] else [])
  ∧ timers st' = timers st ∧ terminals st' = terminals st.
Proof.
  intros Hl Hmode Hsid Hscan Htruthy st'. subst st'. unfold checkForSession.
  rewrite Hl, Hmode, Hsid, Hscan. simpl.
  destruct sessionId as [|c sid]; [done|].
  unfold adopt_session. by autorewrite with mgr.
Qed.

(** C6. One capture runs at most ten probes, whatever states its probes
    meet. The first probe is due 2000 ms after the capture starts, and
    [invokeClaude] starts it at its own clock reading, which is also the
    anchor; a timeout does not run before it is due. A probe changes
    nothing when the terminal is gone, has left Claude mode, or has a
    session id. Otherwise it scans: an absent or unreadable directory, or
    one without a log file modified strictly after the anchor, gives no
    id, and an id found is that of a most recently modified such file. An
    id found is adopted; without one, the next probe is due 1000 ms
    later while fewer than ten probes have run, and after the tenth the
    probe leaves the manager exactly as it was. *)
Theorem polling_capture_bounded :
  (∀ id pp t0 (meets : list (Env * Manager S)),
     (probes_run id pp t0 0 meets ≤ 10)%nat)
  ∧ (∀ e id pp t0 st,
       Map_has id (terminals st) = true →
       captureClaudeSessionId e id pp t0 st
       = set_timers (timers st ++ [{| due := now e + 2000;
                                      action := CheckForSession id pp t0 0 |}]) st)
  ∧ (∀ e id cwd st r t,
       lookup_terminal id st = Some (r, t) →
       let projectPath :=
         or_else cwd (or_else (tp_projectPath t) (tp_cwd t)) in
       truthy (Some projectPath) = true →
       timers (invokeClaude e id cwd st)
       = timers st ++ [{| due := now e + 2000;
                          action := CheckForSession id projectPath (now e) 0 |}])
  ∧ (∀ e k st tm,
       timers st !! k = Some tm → now e < due tm → fire e k st = st)
  ∧ (∀ e id pp t0 n st,
       match lookup_terminal id st with
       | None => True
       | Some (_, t) =>
           tp_isClaudeMode t = false ∨ truthy (tp_claudeSessionId t) = true
       end →
       checkForSession e id pp t0 n st = st)
  ∧ (∀ e pp t0,
       match findClaudeSessionAfter e pp t0 with
       | None =>
           claudeProjectDir e pp = DirMissing
           ∨ claudeProjectDir e pp = DirError
           ∨ ∃ fs, claudeProjectDir e pp = DirFiles fs
                   ∧ ∀ f, f ∈ fs → ¬ qualifies t0 f
       | Some sessionId =>
           ∃ fs f, claudeProjectDir e pp = DirFiles fs
                   ∧ f ∈ fs ∧ qualifies t0 f
                   ∧ sessionId = replace JSONL [] (name f)
                   ∧ ∀ g, g ∈ fs → qualifies t0 g → mtime g ≤ mtime f
       end)
  ∧ (∀ e id pp t0 n st r t sessionId,
       lookup_terminal id st = Some (r, t) →
       tp_isClaudeMode t = true →
       truthy (tp_claudeSessionId t) = false →
       findClaudeSessionAfter e pp t0 = Some sessionId →
       truthy (Some sessionId) = true →
       let st' := checkForSession e id pp t0 n st in
       getClaudeSessionId id st' = Some sessionId
       ∧ sent st' = sent st
                    ++ (if window e
                        then [TERMINAL_CLAUDE_SESSION id sessionId] else [])
       ∧ timers st' = timers st)
  ∧ (∀ e id pp t0 n st r t,
       lookup_terminal id st = Some (r, t) →
       tp_isClaudeMode t = true →
       truthy (tp_claudeSessionId t) = false →
       truthy (findClaudeSessionAfter e pp t0) = false →
       ((n + 1 < 10)%nat →
        checkForSession e id pp t0 n st
        = set_timers (timers st
                      ++ [{| due := now e + 1000;
                             action := CheckForSession id pp t0 (n + 1) |}]) st)
       ∧ ((10 ≤ n + 1)%nat → checkForSession e id pp t0 n st = st)).
Proof.
  split.
  { intros id pp t0 meets.
    pose proof (probes_run_bound id pp t0 0 meets) as Hb.
    unfold maxAttempts in Hb. lia. }
  split.
  { intros e id pp t0 st [r Hr]%Map_has_get. unfold captureClaudeSessionId.
    by rewrite Hr. }
  split.
  { intros e id cwd st r t Hl projectPath Htruthy. unfold invokeClaude.
    rewrite Hl. fold projectPath. rewrite Htruthy.
    unfold captureClaudeSessionId. autorewrite with mgr. simpl.
    apply lookup_terminal_Some in Hl as [-> _]. simpl.
    by autorewrite with mgr. }
  split.
  { intros e k st tm Hk Hdue. unfold fire. rewrite Hk.
    destruct (Z.leb_spec (due tm) (now e)); [lia|done]. }
  split; [apply checkForSession_abort|].
  split; [apply findClaudeSessionAfter_spec|].
  split.
  { intros e id pp t0 n st r t sessionId Hl Hmode Hsid Hscan Htruthy st'.
    destruct (checkForSession_found e id pp t0 n st r t sessionId)
      as (Hheap & _ & Hsent & Htimers & Hterms); try done.
    fold st' in Hheap, Hsent, Htimers, Hterms. split; [|done].
    apply lookup_terminal_Some in Hl as [Hid Hr].
    unfold getClaudeSessionId, lookup_terminal.
    rewrite Hterms, Hid, Hheap. simpl.
    by rewrite list_lookup_alter_eq, Hr. }
  intros e id pp t0 n st r t Hl Hmode Hsid Hscan.
  rewrite (checkForSession_not_found e id pp t0 n st r t) by done.
  unfold maxAttempts. replace (Datatypes.S n) with (n + 1)%nat by lia.
  split; intros Hn.
  - by destruct (Nat.ltb_spec (n + 1) 10); [|lia].
  - by destruct (Nat.ltb_spec (n + 1) 10); [lia|].
Qed.

(** *** restore *)

Lemma timers_create e options st : timers (create e options st).1 = timers st.
Proof.
  unfold create. repeat case_match; simpl; by autorewrite with mgr.
Qed.

Lemma terminals_captureClaudeSessionId e id pp t0 st :
  terminals (captureClaudeSessionId e id pp t0 st) = terminals st.
Proof. unfold captureClaudeSessionId. by case_match. Qed.

(** C7, as the code has it. [restore] of a session in Claude mode sets a
    timeout due 1000 ms after its own clock reading and returns nothing
    yet. The timeout does not run before it is due. When it runs, for a
    session without a session id, the capture it starts is anchored at
    the clock reading of that moment, which is at least 1000 ms after the
    start of [restore], and the first probe is due 2000 ms after the
    anchor. A log file modified at or before the anchor, so also one
    written during the delay, does not qualify. *)
Theorem restore_capture_anchor :
  (∀ e0 session cols rows st r t,
     success (create e0 (restore_options session cols rows) st).2 = true →
     lookup_terminal (ts_id session)
       (create e0 (restore_options session cols rows) st).1 = Some (r, t) →
     ts_isClaudeMode session = true →
     (restore e0 session cols rows st).2 = None
     ∧ timers (restore e0 session cols rows st).1
       = timers st ++ [{| due := now e0 + 1000;
                          action := RestoreResume session r |}])
  ∧ (∀ e1 k st session r t d,
       timers st !! k = Some {| due := d; action := RestoreResume session r |} →
       heap st !! r = Some t →
       Map_has (ts_id session) (terminals st) = true →
       truthy (ts_claudeSessionId session) = false →
       let projectDir := or_else (Some (ts_cwd session)) (ts_projectPath session) in
       truthy (Some projectDir) = true →
       (now e1 < d → fire e1 k st = st)
       ∧ (d ≤ now e1 →
          timers (fire e1 k st)
          = delete k (timers st)
            ++ [{| due := now e1 + 2000;
                   action := CheckForSession (ts_id session) projectDir
                               (now e1) 0 |}]))
  ∧ (∀ anchor f, mtime f ≤ anchor → ¬ qualifies anchor f)
  ∧ (∀ e pp anchor fs,
       claudeProjectDir e pp = DirFiles fs →
       (∀ f, f ∈ fs → mtime f ≤ anchor) →
       findClaudeSessionAfter e pp anchor = None).
Proof.
  split.
  { intros e0 session cols rows st r t Hok Hl Hmode. unfold restore.
    pose proof (timers_create e0 (restore_options session cols rows) st) as Ht.
    destruct (create e0 _ st) as [st1 result]. simpl in *.
    rewrite Hok, Hl, Hmode. simpl. by rewrite Ht. }
  split.
  { intros e1 k st session r t d Hk Hr Hhas Hsid projectDir Hdir.
    subst projectDir. unfold fire. rewrite Hk. cbn [due action]. split.
    - intros Hlt. by destruct (Z.leb_spec d (now e1)); [lia|].
    - intros Hle. destruct (Z.leb_spec d (now e1)); [|lia].
      unfold run_timer, restoreResume. cbn [heap set_timers]. rewrite Hr.
      cbv zeta. rewrite Hsid, Hdir. cbn [negb andb fst].
      apply Map_has_get in Hhas as [r' Hr'].
      unfold captureClaudeSessionId. autorewrite with mgr.
      cbn [terminals pty_write update_terminal set_ptys set_heap set_timers].
      rewrite Hr'. unfold setTimeout. cbn [timers set_timers].
      by autorewrite with mgr. }
  assert (∀ anchor f, mtime f ≤ anchor → ¬ qualifies anchor f) as Hq.
  { intros anchor f Hle [_ Hlt]. lia. }
  split; [exact Hq|].
  intros e pp anchor fs Hdir Hold.
  pose proof (findClaudeSessionAfter_spec e pp anchor) as Hspec.
  destruct (findClaudeSessionAfter e pp anchor) as [sid|]; [|done].
  destruct Hspec as (fs' & f & Hdir' & Hin & Hqual & _).
  rewrite Hdir in Hdir'. injection Hdir' as <-.
  exfalso. by apply (Hq anchor f); [apply Hold|].
Qed.

(** *** The session id *)

Lemma keeps_session_lookup (hp hp' : list TerminalProcess) r t :
  evolves keeps_session hp hp' → hp !! r = Some t →
  ∃ t', hp' !! r = Some t' ∧ keeps_session t t'.
Proof.
  apply evolves_lookup; unfold keeps_session; [done|].
  intros a b c Hab Hbc Ha. rewrite Hbc; [by apply Hab|].
  by rewrite Hab.
Qed.

Lemma keeps_session_adopt o t :
  truthy (tp_claudeSessionId t) = false →
  keeps_session t (with_claudeSessionId o t).
Proof. unfold keeps_session. congruence. Qed.

Lemma keeps_session_trans a b c :
  keeps_session a b → keeps_session b c → keeps_session a c.
Proof.
  unfold keeps_session. intros Hab Hbc Ha. rewrite Hbc; [by apply Hab|].
  by rewrite Hab.
Qed.

(** C3, as the code has it. A populated [claudeSessionId] survives every
    event other than [invokeClaude], [resumeClaude] with a session id,
    and the delayed part of [restore]; in particular neither a chunk of
    output nor a probe of the polling capture replaces it. Of those
    three, [resumeClaude] stores the id it is given, [invokeClaude]
    clears the id, and the delayed part of [restore] stores the id of the
    persisted session, which may be absent. *)
Theorem session_id_set_once :
  (∀ e (ev : Event) st r t,
     heap st !! r = Some t →
     truthy (tp_claudeSessionId t) = true →
     assigns_session ev st = false →
     ∃ t', heap (step e ev st) !! r = Some t'
           ∧ tp_claudeSessionId t' = tp_claudeSessionId t)
  ∧ (∀ e r0 data st r t,
       heap st !! r = Some t →
       truthy (tp_claudeSessionId t) = true →
       ∃ t', heap (onData e r0 data st) !! r = Some t'
             ∧ tp_claudeSessionId t' = tp_claudeSessionId t)
  ∧ (∀ e id pp t0 n st r t,
       heap st !! r = Some t →
       truthy (tp_claudeSessionId t) = true →
       ∃ t', heap (checkForSession e id pp t0 n st) !! r = Some t'
             ∧ tp_claudeSessionId t' = tp_claudeSessionId t)
  ∧ (∀ e id sessionId st r t,
       lookup_terminal id st = Some (r, t) →
       truthy sessionId = true →
       getClaudeSessionId id (resumeClaude e id sessionId st) = sessionId)
  ∧ (∀ e id cwd st r t,
       lookup_terminal id st = Some (r, t) →
       getClaudeSessionId id (invokeClaude e id cwd st) = None)
  ∧ (∀ e session st r t,
       heap st !! r = Some t →
       ∃ t', heap (restoreResume e session r st).1 !! r = Some t'
             ∧ tp_claudeSessionId t' = ts_claudeSessionId session).
Proof.
  split.
  { intros e ev st r t Hr Hsid Hev.
    destruct (keeps_session_lookup (heap st) (heap (step e ev st)) r t)
      as (t' & Hr' & Hkeep); [|done|by eauto].
    apply evolves_step.
    - by unfold keeps_session.
    - by unfold keeps_session.
    - apply keeps_session_adopt.
    - apply keeps_session_trans.
    - right. by unfold keeps_session.
    - by left. }
  split.
  { intros e r0 data st r t Hr Hsid.
    destruct (keeps_session_lookup (heap st) (heap (onData e r0 data st)) r t)
      as (t' & Hr' & Hkeep); [|done|by eauto].
    eapply evolves_trans;
      [|apply evolves_onData_after; auto using keeps_session_adopt].
    by apply evolves_alter1. }
  split.
  { intros e id pp t0 n st r t Hr Hsid.
    destruct (keeps_session_lookup (heap st)
                (heap (checkForSession e id pp t0 n st)) r t)
      as (t' & Hr' & Hkeep); [|done|by eauto].
    apply evolves_checkForSession; auto using keeps_session_adopt. }
  split.
  { intros e id sessionId st r t Hl Hs.
    pose proof Hl as [Hid Hr]%lookup_terminal_Some.
    unfold getClaudeSessionId, lookup_terminal, resumeClaude. rewrite Hl.
    destruct sessionId as [[|c sid]|]; try done. simpl.
    autorewrite with mgr. simpl. rewrite Hid. simpl.
    by rewrite !list_lookup_alter_eq, Hr. }
  split.
  { intros e id cwd st r t Hl.
    pose proof Hl as [Hid Hr]%lookup_terminal_Some.
    unfold getClaudeSessionId, lookup_terminal, invokeClaude. rewrite Hl.
    destruct (truthy _); rewrite ?terminals_captureClaudeSessionId,
      ?heap_captureClaudeSessionId; autorewrite with mgr; simpl;
      rewrite Hid; simpl; by rewrite list_lookup_alter_eq, Hr. }
  intros e session st r t Hr. unfold restoreResume. rewrite Hr.
  destruct (_ && _); simpl; autorewrite with mgr;
    rewrite list_lookup_alter_eq, Hr; by eexists.
Qed.


(** ** What is fixed at creation *)

#[local] Hint Rewrite terminals_captureClaudeSessionId : mgr.

Lemma fmap_alter_fixed {A B} (f : A → B) (g : A → A) (l : list A) i :
  (∀ x, f (g x) = f x) → f <$> alter g i l = f <$> l.
Proof.
  intros Hfg. revert i. induction l as [|x l IH]; intros [|i]; simpl; [done..| |].
  - by rewrite Hfg.
  - f_equal. apply IH.
Qed.

Lemma Map_set_absent id r (m : TerminalMap) :
  Map_get id m = None → Map_set id r m = m ++ [(id, r)].
Proof.
  induction m as [|[k r'] m IH]; simpl; [done|].
  destruct (decide (k = id)); [done|]. intros Hm. by rewrite IH.
Qed.

Lemma Map_has_false id (m : TerminalMap) :
  Map_has id m = false ↔ Map_get id m = None.
Proof. unfold Map_has. by destruct (Map_get id m). Qed.

(** What [create] does to the heap, the ptys and the map. *)
Lemma create_shape e options st :
  let st' := (create e options st).1 in
  if Map_has (opt_id options) (terminals st) then st' = st
  else match spawnThrows e with
       | Some _ => st' = st
       | None =>
           Map_get (opt_id options) (terminals st) = None
           ∧ heap st'
             = heap st ++ [new_terminal e options (length (ptys st))
                             (length (terminals st))]
           ∧ ptys st' = ptys st ++ [new_pty e options (length (heap st))]
           ∧ terminals st'
             = terminals st ++ [(opt_id options, length (heap st))]
       end.
Proof.
  unfold create. destruct (Map_has _ _) eqn:Hhas; [done|].
  destruct (spawnThrows e); [done|]. simpl.
  apply Map_has_false in Hhas. autorewrite with mgr. simpl.
  by rewrite Map_set_absent.
Qed.

(** After its call of [create], [restore] only sets the title and a
    timeout. *)
Lemma restore_after_create e session cols rows st :
  let st' := (restore e session cols rows st).1 in
  let st1 := (create e (restore_options session cols rows) st).1 in
  identity <$> heap st' = identity <$> heap st1
  ∧ ptys st' = ptys st1 ∧ terminals st' = terminals st1.
Proof.
  unfold restore. destruct (create e _ st) as [st1 result]. simpl.
  destruct (negb _); [done|].
  destruct (lookup_terminal _ st1) as [[r t]|]; [|done].
  destruct (ts_isClaudeMode session); simpl; by rewrite fmap_alter_fixed.
Qed.

Lemma spawned_kill_loop e hp (m : TerminalMap) (ps : list Pty) :
  spawned <$> foldl (kill_quietly e hp) ps m = spawned <$> ps.
Proof.
  revert ps. induction m as [|entry m IH]; intros ps; [done|].
  simpl. rewrite IH. unfold kill_quietly.
  destruct (hp !! entry.2) as [t|]; [|done].
  destruct (killThrows e (tp_pty t)); [done|]. by rewrite fmap_alter_fixed.
Qed.

Lemma onData_skeleton e r data st :
  identity <$> heap (onData e r data st) = identity <$> heap st
  ∧ ptys (onData e r data st) = ptys st
  ∧ terminals (onData e r data st) = terminals st.
Proof.
  unfold onData. destruct (heap st !! r) as [t|]; [|done].
  assert (∀ st0, identity <$> heap (onData_session e r data st0)
                 = identity <$> heap st0
                 ∧ ptys (onData_session e r data st0) = ptys st0
                 ∧ terminals (onData_session e r data st0) = terminals st0)
    as Hsession.
  { intros st0. unfold onData_session. destruct (heap st0 !! r); [|done].
    destruct (_ && _); [|done].
    destruct (extractClaudeSessionId data) as [[|c sid]|]; [done| |done].
    autorewrite with mgr. simpl. by rewrite fmap_alter_fixed. }
  assert (∀ st0, heap (onData_rateLimit e r data st0) = heap st0
                 ∧ ptys (onData_rateLimit e r data st0) = ptys st0
                 ∧ terminals (onData_rateLimit e r data st0) = terminals st0)
    as Hlimit.
  { intros st0. unfold onData_rateLimit. destruct (heap st0 !! r); [|done].
    destruct (tp_isClaudeMode _); [|done].
    destruct (rateLimitResetTime data); [|done].
    destruct (_ <? _); [|done]. by autorewrite with mgr. }
  autorewrite with mgr.
  destruct (Hlimit (onData_session e r data
                      (update_terminal r (append_output data) st)))
    as (-> & -> & ->).
  destruct (Hsession (update_terminal r (append_output data) st))
    as (-> & -> & ->).
  simpl. by rewrite fmap_alter_fixed.
Qed.

Lemma checkForSession_skeleton e id pp t0 n st :
  identity <$> heap (checkForSession e id pp t0 n st) = identity <$> heap st
  ∧ ptys (checkForSession e id pp t0 n st) = ptys st
  ∧ terminals (checkForSession e id pp t0 n st) = terminals st.
Proof.
  unfold checkForSession, adopt_session.
  destruct (lookup_terminal id st) as [[r t]|]; [|done].
  destruct (negb _); [done|]. destruct (truthy _); [done|].
  destruct (findClaudeSessionAfter e pp t0) as [[|c sid]|].
  2: { autorewrite with mgr. simpl. by rewrite fmap_alter_fixed. }
  all: by destruct (_ <? _)%nat.
Qed.

Lemma restoreResume_skeleton e session r st :
  identity <$> heap (restoreResume e session r st).1 = identity <$> heap st
  ∧ spawned <$> ptys (restoreResume e session r st).1 = spawned <$> ptys st
  ∧ terminals (restoreResume e session r st).1 = terminals st.
Proof.
  unfold restoreResume, pty_write. destruct (heap st !! r) as [t|]; [|done].
  destruct (_ && _); simpl; autorewrite with mgr; simpl;
    by rewrite !fmap_alter_fixed.
Qed.

Ltac skeleton :=
  simpl; autorewrite with mgr; simpl;
  rewrite ?fmap_alter_fixed by done;
  first [done | by repeat split; eauto].

(** An event that makes a terminal appends one terminal object, one pty
    and one entry of the map; every other event leaves the identities of
    the terminal objects and the spawn parameters of the ptys alone, and
    at most removes entries from the map. *)
Lemma step_skeleton e (ev : Event) st :
  let st' := step e ev st in
  match creating e ev st with
  | Some options =>
      Map_get (opt_id options) (terminals st) = None
      ∧ identity <$> heap st'
        = (identity <$> heap st)
          ++ [identity (new_terminal e options (length (ptys st))
                          (length (terminals st)))]
      ∧ spawned <$> ptys st'
        = (spawned <$> ptys st) ++ [spawned (new_pty e options (length (heap st)))]
      ∧ terminals st' = terminals st ++ [(opt_id options, length (heap st))]
  | None =>
      identity <$> heap st' = identity <$> heap st
      ∧ spawned <$> ptys st' = spawned <$> ptys st
      ∧ (terminals st' = terminals st
         ∨ (∃ id, terminals st' = Map_delete id (terminals st))
         ∨ terminals st' = [])
  end.
Proof.
  destruct ev; simpl.
  - pose proof (create_shape e options st) as Hcreate. simpl in Hcreate.
    destruct (Map_has _ _); [rewrite Hcreate; auto|].
    destruct (spawnThrows e); [rewrite Hcreate; auto|].
    destruct Hcreate as (? & -> & -> & ->). by rewrite !fmap_app.
  - pose proof (create_shape e (restore_options session cols rows) st) as Hcreate.
    destruct (restore_after_create e session cols rows st) as (-> & -> & ->).
    simpl in Hcreate.
    destruct (Map_has _ _); [rewrite Hcreate; auto|].
    destruct (spawnThrows e); [rewrite Hcreate; auto|].
    destruct Hcreate as (? & -> & -> & ->). by rewrite !fmap_app.
  - unfold destroy. destruct (lookup_terminal id st) as [[r t]|]; [|auto].
    destruct (killThrows e (tp_pty t)); skeleton.
  - unfold write, pty_write.
    destruct (lookup_terminal id st) as [[r t]|]; skeleton.
  - unfold resize. destruct (lookup_terminal id st) as [[r t]|]; skeleton.
  - unfold invokeClaude, pty_write.
    destruct (lookup_terminal id st) as [[r t]|]; [|auto].
    destruct (truthy _); skeleton.
  - unfold resumeClaude, pty_write.
    destruct (lookup_terminal id st) as [[r t]|]; [|auto].
    destruct sessionId as [[|c sid]|]; skeleton.
  - unfold setTitle. destruct (lookup_terminal id st) as [[r t]|]; skeleton.
  - auto.
  - unfold killAll.
    destruct (saveTimer _); simpl; by rewrite spawned_kill_loop; auto.
  - destruct (ptys st !! pty) as [p|]; [|auto].
    destruct (onData_skeleton e (pty_terminal p) data st) as (-> & -> & ->).
    auto.
  - destruct (ptys st !! pty) as [p|]; [|auto]. unfold onExit.
    destruct (heap st !! pty_terminal p) as [t|]; [|auto]. skeleton.
  - destruct (saveTimer st); auto.
  - unfold fire. destruct (timers st !! k) as [[d a]|]; [|auto]. simpl.
    destruct (d <=? now e); [|auto]. destruct a; simpl.
    + destruct (checkForSession_skeleton e terminalId projectPath startTime
                  attempts (set_timers (delete k (timers st)) st))
        as (-> & -> & ->). auto.
    + destruct (restoreResume_skeleton e session terminal
                  (set_timers (delete k (timers st)) st)) as (-> & -> & ->).
      auto.
Qed.

(** ** The shape of the manager's data *)

Lemma Map_get_None id (m : TerminalMap) : Map_get id m = None ↔ id ∉ m.*1.
Proof.
  induction m as [|[k r] m IH]; simpl.
  - split; [intros _ []%elem_of_nil|done].
  - rewrite not_elem_of_cons. destruct (decide (k = id)) as [->|Hne].
    + split; [done|]. by intros [? _].
    + rewrite IH. split; [by intros; split; [congruence|]|by intros [_ ?]].
Qed.

Lemma Map_get_elem_of id r (m : TerminalMap) :
  Map_get id m = Some r → (id, r) ∈ m.
Proof.
  induction m as [|[k r'] m IH]; simpl; [done|].
  destruct (decide (k = id)) as [->|].
  - intros [= ->]. apply list_elem_of_here.
  - intros Hm. apply list_elem_of_further. by apply IH.
Qed.

Lemma skeleton_lookup {A B} (f : A → B) (l l' : list A) more i x' :
  f <$> l' = (f <$> l) ++ more → l' !! i = Some x' →
  (∃ x, l !! i = Some x ∧ f x' = f x)
  ∨ ((length l ≤ i)%nat ∧ more !! (i - length l)%nat = Some (f x')).
Proof.
  intros Heq Hx'. apply (list_lookup_fmap_Some_2 f) in Hx'. rewrite Heq in Hx'.
  apply lookup_app_Some in Hx' as [Hold|[Hle Hnew]].
  - left. apply list_lookup_fmap_Some in Hold as (x & Hfx & Hx). eauto.
  - right. by rewrite length_fmap in Hle, Hnew.
Qed.

Lemma skeleton_lookup_old {A B} (f : A → B) (l l' : list A) more i x :
  f <$> l' = (f <$> l) ++ more → l !! i = Some x →
  ∃ x', l' !! i = Some x' ∧ f x' = f x.
Proof.
  intros Heq Hx. apply (list_lookup_fmap_Some_2 f) in Hx.
  apply (lookup_app_l_Some _ more) in Hx. rewrite <- Heq in Hx.
  apply list_lookup_fmap_Some in Hx as (x' & Hfx & Hx'). eauto.
Qed.

Lemma skeleton_length {A B} (f : A → B) (l l' : list A) more :
  f <$> l' = (f <$> l) ++ more → length l' = (length l + length more)%nat.
Proof.
  intros Heq. apply (f_equal length) in Heq.
  by rewrite length_app, !length_fmap in Heq.
Qed.

(** A state whose skeleton extends that of a well-formed state by at
    most one pair that fits is well formed. *)
Lemma well_formed_extend st st' (mi : list _) (ms : list _) :
  well_formed st →
  identity <$> heap st' = (identity <$> heap st) ++ mi →
  spawned <$> ptys st' = (spawned <$> ptys st) ++ ms →
  NoDup (getActiveTerminalIds st') →
  (∀ id r, (id, r) ∈ terminals st' →
     (id, r) ∈ terminals st
     ∨ ∃ t', heap st' !! r = Some t' ∧ tp_id t' = id) →
  Forall2 (fun (i : jstring * nat * option jstring * jstring)
               (s : jstring * list jstring * jstring * nat) =>
             i.1.1.2 = length (heap st) ∧ s.2 = length (heap st)
             ∧ s.1.2 = i.2) mi ms →
  (length mi ≤ 1)%nat →
  well_formed st'.
Proof.
  intros (Hdup & Hreg & Hlen & Hpty & Hpair) Hheap Hptys Hdup' Hreg' Hfit Hone.
  split; [done|]. split; [|split; [|split]].
  - intros id r [Hin|Hnew]%Hreg'; [|done].
    destruct (Hreg _ _ Hin) as (t & Ht & Hid).
    destruct (skeleton_lookup_old _ _ _ _ _ _ Hheap Ht) as (t' & Ht' & [= ? _ _ _]).
    exists t'. split; [done|congruence].
  - rewrite (skeleton_length _ _ _ _ Hheap), (skeleton_length _ _ _ _ Hptys).
    apply Forall2_length in Hfit. lia.
  - intros r t' Ht'.
    destruct (skeleton_lookup _ _ _ _ _ _ Hheap Ht')
      as [(t & Ht & [= _ Hp _ _])|[Hle Hnew]].
    + rewrite Hp. by apply Hpty.
    + destruct mi as [|i [|? ?]]; simpl in Hone; [done| |lia].
      apply Forall2_cons_inv_l in Hfit as (s & ms' & (Hi & _) & _ & ->).
      apply list_lookup_singleton_Some in Hnew as [Hr ->]. simpl in Hi. lia.
  - intros r t' p' Ht' Hp'.
    destruct (skeleton_lookup _ _ _ _ _ _ Hheap Ht')
      as [(t & Ht & [= _ _ _ Hcwd])|[Hle Hnew]];
    destruct (skeleton_lookup _ _ _ _ _ _ Hptys Hp')
      as [(p & Hp & [= _ _ Hpcwd Hterm])|[Hle' Hnew']].
    + rewrite Hterm, Hpcwd, Hcwd. by apply (Hpair r t p).
    + apply lookup_lt_Some in Ht. lia.
    + apply lookup_lt_Some in Hp. lia.
    + destruct mi as [|i [|? ?]]; simpl in Hone; [done| |lia].
      apply Forall2_cons_inv_l in Hfit as (s & ms' & (Hi & Hs & Hc) & Hfit & ->).
      apply Forall2_nil_inv_l in Hfit as ->.
      apply list_lookup_singleton_Some in Hnew as [Hr ->].
      apply list_lookup_singleton_Some in Hnew' as [Hr' ->].
      simpl in *. split; [lia|done].
Qed.

Lemma well_formed_step e (ev : Event) st :
  well_formed st → well_formed (step e ev st).
Proof.
  intros Hwf. pose proof Hwf as (Hdup & Hreg & Hlen & _).
  pose proof (step_skeleton e ev st) as Hstep. cbv zeta in Hstep.
  destruct (creating e ev st) as [options|].
  - destruct Hstep as (Hnew & Hheap & Hptys & Hterm).
    eapply well_formed_extend; [done|exact Hheap|exact Hptys| | | |done].
    + unfold getActiveTerminalIds. rewrite Hterm, fmap_app.
      apply NoDup_app. split; [done|]. split; [|apply NoDup_singleton].
      intros id Hid ->%list_elem_of_singleton. by apply Map_get_None in Hnew.
    + intros id r. rewrite Hterm, elem_of_app, list_elem_of_singleton.
      intros [?|[= -> ->]]; [by left|right].
      assert ((identity <$> heap (step e ev st)) !! length (heap st)
              = Some (identity (new_terminal e options (length (ptys st))
                                  (length (terminals st))))) as Hlast.
      { rewrite Hheap. apply list_lookup_middle. by rewrite length_fmap. }
      apply list_lookup_fmap_Some in Hlast as (t' & [= Hid _ _ _] & Ht').
      by exists t'.
    + repeat constructor; simpl; lia.
  - destruct Hstep as (Hheap & Hptys & Hterm).
    assert (terminals (step e ev st) `sublist_of` terminals st) as Hsub.
    { destruct Hterm as [->|[[id ->]| ->]];
        [done|apply sublist_filter|apply sublist_nil_l]. }
    eapply (well_formed_extend _ _ [] []); [done|by rewrite app_nil_r..| | |done|].
    + unfold getActiveTerminalIds. eapply sublist_NoDup; [exact Hdup|].
      by apply fmap_sublist.
    + intros id r Hin. left. by eapply elem_of_sublist.
    + simpl. lia.
Qed.

Lemma well_formed_new (s : S) : well_formed (new_manager s).
Proof.
  split; [constructor|]. split; [by intros ? ? ?%elem_of_nil|].
  split; [done|]. by split.
Qed.
Lemma run_skeleton (tr : list (Env * Event)) st :
  ∃ mi ms,
    identity <$> heap (run tr st) = (identity <$> heap st) ++ mi
    ∧ spawned <$> ptys (run tr st) = (spawned <$> ptys st) ++ ms.
Proof.
  revert st. induction tr as [|[e ev] tr IH]; intros st; simpl.
  - exists [], []. by rewrite !app_nil_r.
  - destruct (IH (step e ev st)) as (mi & ms & -> & ->).
    pose proof (step_skeleton e ev st) as Hstep. cbv zeta in Hstep.
    destruct (creating e ev st).
    + destruct Hstep as (_ & -> & -> & _). rewrite <- !app_assoc. by eexists _, _.
    + destruct Hstep as (-> & -> & _). by eexists _, _.
Qed.

(** X8. Whatever happens after a terminal object and its pty exist
    (commands, output, exits, timers), the object keeps its id, its pty,
    its project path and its working directory, and the pty keeps the
    shell, the arguments and the directory it was spawned with and the
    terminal object that its callbacks captured. In particular
    [invokeClaude] with a directory does not change the recorded working
    directory. *)
Theorem identity_fixed_at_creation (tr : list (Env * Event)) st :
  (∀ r t, heap st !! r = Some t →
     ∃ t', heap (run tr st) !! r = Some t'
       ∧ tp_id t' = tp_id t ∧ tp_pty t' = tp_pty t
       ∧ tp_projectPath t' = tp_projectPath t ∧ tp_cwd t' = tp_cwd t)
  ∧ (∀ h p, ptys st !! h = Some p →
       ∃ p', ptys (run tr st) !! h = Some p'
         ∧ pty_file p' = pty_file p ∧ pty_args p' = pty_args p
         ∧ pty_cwd p' = pty_cwd p ∧ pty_terminal p' = pty_terminal p).
Proof.
  destruct (run_skeleton tr st) as (mi & ms & Hheap & Hptys). split.
  - intros r t Ht.
    destruct (skeleton_lookup_old _ _ _ _ _ _ Hheap Ht) as (t' & Ht' & [= ? ? ? ?]).
    by exists t'.
  - intros h p Hp.
    destruct (skeleton_lookup_old _ _ _ _ _ _ Hptys Hp) as (p' & Hp' & [= ? ? ? ?]).
    by exists p'.
Qed.

Lemma well_formed_run (tr : list (Env * Event)) st :
  well_formed st → well_formed (run tr st).
Proof.
  revert st. induction tr as [|[e ev] tr IH]; intros st Hwf; [done|].
  simpl. by apply IH, well_formed_step.
Qed.

Lemma well_formed_lookup st id :
  well_formed st → Map_has id (terminals st) = true →
  ∃ r t p, lookup_terminal id st = Some (r, t)
    ∧ tp_id t = id ∧ tp_pty t = r
    ∧ ptys st !! r = Some p ∧ pty_terminal p = r ∧ pty_cwd p = tp_cwd t.
Proof.
  intros (_ & Hreg & Hlen & Hpty & Hpair) [r Hr]%Map_has_get.
  destruct (Hreg id r) as (t & Ht & Hid); [by apply Map_get_elem_of|].
  destruct (lookup_lt_is_Some_2 (ptys st) r) as [p Hp].
  { rewrite Hlen. by eapply lookup_lt_Some. }
  destruct (Hpair r t p Ht Hp) as [? ?].
  exists r, t, p. split; [by apply lookup_terminal_Some|]. auto using Hpty.
Qed.

(** X9. The data of the manager stays well formed: the registered ids
    are distinct, each is bound to a terminal object that carries this
    id, each terminal object owns the pty that was spawned with it, the
    callbacks of that pty captured this very object, and the two agree on
    the working directory. This holds after the constructor and is kept
    by every event; so in every state that a run reaches from the
    constructor, an id that is registered is found by [terminals.get]
    with all of this. *)
Theorem registry_is_well_formed :
  (∀ e (ev : Event) st, well_formed st → well_formed (step e ev st))
  ∧ (∀ (s : S) (tr : list (Env * Event)),
       let st := run tr (new_manager s) in
       well_formed st
       ∧ ∀ id, Map_has id (terminals st) = true →
           ∃ r t p, lookup_terminal id st = Some (r, t)
             ∧ tp_id t = id ∧ tp_pty t = r
             ∧ ptys st !! r = Some p ∧ pty_terminal p = r
             ∧ pty_cwd p = tp_cwd t).
Proof.
  split; [apply well_formed_step|].
  intros s tr st.
  assert (well_formed st) as Hwf by apply well_formed_run, well_formed_new.
  split; [done|]. intros id. by apply well_formed_lookup.
Qed.

Lemma Map_delete_ids id (m : TerminalMap) :
  (Map_delete id m).*1 = filter (fun k => k ≠ id) m.*1.
Proof.
  unfold Map_delete. induction m as [|[k r] m IH]; [done|].
  rewrite fmap_cons, !filter_cons. simpl.
  destruct (decide (k ≠ id)); rewrite ?fmap_cons; simpl; by rewrite <- IH.
Qed.

(** X10. [getActiveTerminalIds] lists the ids in the order of their
    creation: an event that makes a terminal appends its id, which was
    not in the list, at the end; every other event leaves the list as it
    is, or removes one id from it, or empties it. *)
Theorem active_ids_in_creation_order e (ev : Event) st :
  let ids := getActiveTerminalIds st in
  let ids' := getActiveTerminalIds (step e ev st) in
  match creating e ev st with
  | Some options => (opt_id options ∉ ids) ∧ ids' = ids ++ [opt_id options]
  | None =>
      ids' = ids ∨ (∃ id, ids' = filter (fun k => k ≠ id) ids) ∨ ids' = []
  end.
Proof.
  intros ids ids'. subst ids ids'. unfold getActiveTerminalIds.
  pose proof (step_skeleton e ev st) as Hstep. cbv zeta in Hstep.
  destruct (creating e ev st).
  - destruct Hstep as (Hnew & _ & _ & ->). split; [by apply Map_get_None|].
    by rewrite fmap_app.
  - destruct Hstep as (_ & _ & [->|[[id ->]| ->]]); [by left| |by right; right].
    right; left. exists id. apply Map_delete_ids.
Qed.
(** ** The exit of a pty *)

(** X11. When a pty exits, its callback sends the exit code under the id
    of the terminal object it captured, removes the persisted record of
    that id (when the object has a project path) and deletes that id
    from the map, whatever object the map binds to the id by then; the
    other ids stay, and so do the terminal objects, the ptys, the
    timeouts and the rate-limit map. *)
Theorem pty_exit_unregisters e h exitCode st p t :
  ptys st !! h = Some p →
  heap st !! pty_terminal p = Some t →
  let st' := step e (PtyExit h exitCode) st in
  Map_get (tp_id t) (terminals st') = None
  ∧ (∀ id, id ≠ tp_id t →
       Map_get id (terminals st') = Map_get id (terminals st))
  ∧ sent st'
    = sent st ++ (if window e then [TERMINAL_EXIT (tp_id t) exitCode] else [])
  ∧ store st' = match tp_projectPath t with
                | Some (c :: pp) => removeSession (c :: pp) (tp_id t) (store st)
                | _ => store st
                end
  ∧ heap st' = heap st ∧ ptys st' = ptys st ∧ timers st' = timers st
  ∧ rateLimitNotifiedAt st' = rateLimitNotifiedAt st
  ∧ saveTimer st' = saveTimer st.
Proof.
  intros Hp Ht. simpl. rewrite Hp. unfold onExit. rewrite Ht.
  cbn [terminals set_terminals heap ptys timers store sent rateLimitNotifiedAt
       saveTimer].
  autorewrite with mgr. split; [apply Map_get_delete_eq|].
  split; [intros id Hne; by apply Map_get_delete_ne|].
  repeat split; unfold with_projectPath, send; by repeat case_match.
Qed.
(** ** Notifications *)

Lemma sends_none e st st' : sent st' = sent st → sends e st st' [].
Proof. unfold sends. intros ->. destruct (window e); by rewrite app_nil_r. Qed.

Lemma sends_send e n st : sends e st (send e n st) [n].
Proof. unfold sends. by autorewrite with mgr. Qed.

Lemma sends_trans e st1 st2 st3 ns ms :
  sends e st1 st2 ns → sends e st2 st3 ms → sends e st1 st3 (ns ++ ms).
Proof.
  unfold sends. intros H12 ->. rewrite H12, <- app_assoc.
  destruct (window e); by rewrite ?app_nil_r.
Qed.

Lemma sends_create e options st : sends e st (create e options st).1 [].
Proof.
  apply sends_none. unfold create. repeat case_match; simpl; by autorewrite with mgr.
Qed.

Lemma sends_restore e session cols rows st :
  sends e st (restore e session cols rows st).1 [].
Proof.
  apply sends_none. unfold restore.
  pose proof (sends_create e (restore_options session cols rows) st) as Hc.
  destruct (create e _ st) as [st1 result]. unfold sends in Hc. simpl in Hc.
  assert (sent st1 = sent st) as <-
    by (rewrite Hc; destruct (window e); by rewrite app_nil_r).
  by repeat case_match.
Qed.

Lemma sends_onData_session e r data st :
  ∃ ns, sends e st (onData_session e r data st) ns
        ∧ output_notifications ns = [] ∧ rate_limits ns = [].
Proof.
  unfold onData_session. destruct (heap st !! r) as [t|].
  2: { exists []. split; [by apply sends_none|done]. }
  destruct (_ && _).
  2: { exists []. split; [by apply sends_none|done]. }
  destruct (extractClaudeSessionId data) as [[|c sid]|].
  1,3: exists []; split; [by apply sends_none|done].
  eexists [_]. split; [unfold sends; by autorewrite with mgr|done].
Qed.

Lemma sends_onData_rateLimit e r data st :
  ∃ ns, sends e st (onData_rateLimit e r data st) ns
        ∧ output_notifications ns = [].
Proof.
  unfold onData_rateLimit. destruct (heap st !! r) as [t|].
  2: { exists []. split; [by apply sends_none|done]. }
  destruct (tp_isClaudeMode t).
  2: { exists []. split; [by apply sends_none|done]. }
  destruct (rateLimitResetTime data).
  2: { exists []. split; [by apply sends_none|done]. }
  destruct (_ <? _).
  2: { exists []. split; [by apply sends_none|done]. }
  eexists [_]. split; [unfold sends; by autorewrite with mgr|done].
Qed.

Lemma sends_onData e r data st t :
  heap st !! r = Some t →
  ∃ ns, sends e st (onData e r data st) (ns ++ [TERMINAL_OUTPUT (tp_id t) data])
        ∧ output_notifications ns = [].
Proof.
  intros Hr. unfold onData. rewrite Hr.
  set (st1 := update_terminal r (append_output data) st).
  destruct (sends_onData_session e r data st1) as (ns1 & H1 & Ho1 & _).
  destruct (sends_onData_rateLimit e r data (onData_session e r data st1))
    as (ns2 & H2 & Ho2).
  exists (ns1 ++ ns2). split.
  - eapply sends_trans; [|apply sends_send].
    eapply (sends_trans _ st); [apply H1|apply H2].
  - unfold output_notifications in *. by rewrite List.filter_app, Ho1, Ho2.
Qed.

Lemma sends_checkForSession e id pp t0 n st :
  ∃ ns, sends e st (checkForSession e id pp t0 n st) ns
        ∧ output_notifications ns = [] ∧ rate_limits ns = [].
Proof.
  unfold checkForSession, adopt_session.
  destruct (lookup_terminal id st) as [[r t]|].
  2: { exists []. split; [by apply sends_none|done]. }
  destruct (negb _). { exists []. split; [by apply sends_none|done]. }
  destruct (truthy _). { exists []. split; [by apply sends_none|done]. }
  destruct (findClaudeSessionAfter e pp t0) as [[|c sid]|].
  2: { eexists [_]. split; [unfold sends; by autorewrite with mgr|done]. }
  all: destruct (_ <? _)%nat; exists []; (split; [by apply sends_none|done]).
Qed.

Lemma sends_restoreResume e session r st :
  ∃ ns, sends e st (restoreResume e session r st).1 ns
        ∧ output_notifications ns = [] ∧ rate_limits ns = [].
Proof.
  unfold restoreResume. destruct (heap st !! r) as [t|].
  2: { exists []. split; [by apply sends_none|done]. }
  eexists [_]. split.
  - unfold sends. destruct (_ && _); simpl; by autorewrite with mgr.
  - done.
Qed.

(** What one event sends: nothing without a window, and of output
    notifications exactly its [delivery]. *)
Lemma sends_step e (ev : Event) st :
  ∃ ns, sends e st (step e ev st) ns
        ∧ output_notifications ns = delivery ev st
        ∧ (is_data ev = false → rate_limits ns = []).
Proof.
  destruct ev; simpl.
  - exists []. split; [apply sends_create|done].
  - exists []. split; [apply sends_restore|done].
  - exists []. split; [|done]. apply sends_none. unfold destroy.
    repeat case_match; simpl; by autorewrite with mgr.
  - exists []. split; [|done]. apply sends_none. unfold write.
    by repeat case_match.
  - exists []. split; [|done]. apply sends_none. unfold resize.
    by repeat case_match.
  - unfold invokeClaude. destruct (lookup_terminal id st) as [[r t]|].
    2: { exists []. split; [by apply sends_none|done]. }
    eexists [_]. split.
    + unfold sends. destruct (truthy _); by autorewrite with mgr.
    + done.
  - unfold resumeClaude. destruct (lookup_terminal id st) as [[r t]|].
    2: { exists []. split; [by apply sends_none|done]. }
    eexists [_]. split.
    + unfold sends.
      destruct sessionId as [[|c sid]|]; simpl; by autorewrite with mgr.
    + done.
  - exists []. split; [|done]. apply sends_none. unfold setTitle.
    by repeat case_match.
  - exists []. by split; [apply sends_none|].
  - exists []. split; [|done]. apply sends_none. unfold killAll.
    by destruct (saveTimer _).
  - destruct (ptys st !! pty) as [p|].
    2: { exists []. split; [by apply sends_none|done]. }
    destruct (heap st !! pty_terminal p) as [t|] eqn:Ht.
    + destruct (sends_onData e _ data st t Ht) as (ns & Hs & Ho).
      eexists. split; [exact Hs|]. split; [|done].
      unfold output_notifications in *. by rewrite List.filter_app, Ho.
    + exists []. split; [|done]. apply sends_none. unfold onData. by rewrite Ht.
  - destruct (ptys st !! pty) as [p|].
    2: { exists []. split; [by apply sends_none|done]. }
    unfold onExit. destruct (heap st !! pty_terminal p) as [t|].
    2: { exists []. split; [by apply sends_none|done]. }
    eexists [_]. split; [unfold sends; simpl; by autorewrite with mgr|done].
  - exists []. split; [|done]. apply sends_none. by destruct (saveTimer st).
  - unfold fire. destruct (timers st !! k) as [[d a]|].
    2: { exists []. split; [by apply sends_none|done]. }
    simpl. destruct (d <=? now e).
    2: { exists []. split; [by apply sends_none|done]. }
    destruct a; simpl.
    + destruct (sends_checkForSession e terminalId projectPath startTime
                  attempts (set_timers (delete k (timers st)) st))
        as (ns & Hs & Ho & Hl). by exists ns.
    + destruct (sends_restoreResume e session terminal
                  (set_timers (delete k (timers st)) st))
        as (ns & Hs & Ho & Hl). by exists ns.
Qed.

(** X12. Without a window nothing is sent: whatever the event, the list
    of notifications handed to the renderer is as before (a notification
    is dropped then, not kept for later). *)
Theorem notifications_need_window e (ev : Event) st :
  window e = false → sent (step e ev st) = sent st.
Proof.
  intros Hw. destruct (sends_step e ev st) as (ns & Hs & _ & _).
  unfold sends in Hs. by rewrite Hs, Hw, app_nil_r.
Qed.

(** X13. The output notifications of a run are exactly the chunks that
    the ptys delivered while there was a window, in order, each under the
    id of the terminal object that the callback of its pty captured; no
    other event produces an output notification. *)
Theorem output_is_forwarded (tr : list (Env * Event)) st :
  output_notifications (sent (run tr st))
  = output_notifications (sent st) ++ forwarded tr st.
Proof.
  revert st. induction tr as [|[e ev] tr IH]; intros st; simpl.
  - by rewrite app_nil_r.
  - rewrite IH. destruct (sends_step e ev st) as (ns & Hs & Ho & _).
    unfold sends in Hs. rewrite Hs. unfold output_notifications at 1.
    rewrite List.filter_app, <- app_assoc. fold (output_notifications (sent st)).
    do 2 f_equal. destruct (window e); [exact Ho|done].
Qed.
(** ** restore *)

(** X14. The outcomes of [restore], for an id whose map entry, if any,
    refers to a terminal object. When its [create] fails, [restore]
    returns that failure and changes nothing. Otherwise the terminal of
    this id (the one just made, whose buffer is empty, or the one that
    was registered already) gets the title of the session and nothing
    else of it changes; nothing is sent, and the store is as [create]
    left it. For a session that was not in Claude mode the result is a
    success that carries the persisted buffer, and no timeout is set;
    for one in Claude mode the result is pending. *)
Theorem restore_outcomes e session cols rows st :
  (∀ r, Map_get (ts_id session) (terminals st) = Some r →
        is_Some (heap st !! r)) →
  let options := restore_options session cols rows in
  let created := create e options st in
  let restored := restore e session cols rows st in
  let replay :=
    {| success := true; error := None;
       res_outputBuffer := Some (ts_outputBuffer session) |} in
  (success created.2 = false → restored = (st, Some created.2))
  ∧ (success created.2 = true →
       (∃ r t, lookup_terminal (ts_id session) created.1 = Some (r, t)
          ∧ heap restored.1
            = alter (with_title (ts_title session)) r (heap created.1)
          ∧ (Map_has (ts_id session) (terminals st) = false →
             r = length (heap st)
             ∧ t = new_terminal e options (length (ptys st))
                     (length (terminals st))))
       ∧ terminals restored.1 = terminals created.1
       ∧ ptys restored.1 = ptys created.1
       ∧ store restored.1 = store created.1
       ∧ sent restored.1 = sent st
       ∧ (if ts_isClaudeMode session
          then restored.2 = None
          else restored.2 = Some replay ∧ timers restored.1 = timers st)).
Proof.
  intros Hlive options created restored replay.
  subst created restored. unfold restore.
  pose proof (timers_create e options st) as Htimers.
  pose proof (sends_create e options st) as Hsent.
  assert (success (create e options st).2 = true →
          ∃ r t, lookup_terminal (ts_id session) (create e options st).1
                 = Some (r, t)
            ∧ (Map_has (ts_id session) (terminals st) = false →
               r = length (heap st)
               ∧ t = new_terminal e options (length (ptys st))
                       (length (terminals st)))) as Hfound.
  { destruct (Map_has (opt_id options) (terminals st)) eqn:Hhas.
    - rewrite create_existing by done. intros _.
      apply Map_has_get in Hhas as [r Hr]. destruct (Hlive r Hr) as [t Ht].
      exists r, t. split; [by apply lookup_terminal_Some|].
      simpl in Hr. unfold Map_has. by rewrite Hr.
    - destruct (spawnThrows e) as [err|] eqn:Hspawn.
      + by rewrite (create_spawn_failure _ _ _ err).
      + destruct (create_spawned e options st Hhas Hspawn)
          as (_ & _ & Hheap & Hterm).
        intros _. eexists _, _. split; [|done].
        apply lookup_terminal_Some. rewrite Hterm, Hheap. split.
        * apply Map_get_set_eq.
        * by apply list_lookup_middle. }
  assert (success (create e options st).2 = false →
          (create e options st).1 = st) as Hsame.
  { unfold create. destruct (Map_has _ _); [done|].
    by destruct (spawnThrows e). }
  fold options. destruct (create e options st) as [st1 result]. simpl in *.
  assert (sent st1 = sent st) as Hsent'.
  { unfold sends in Hsent. rewrite Hsent. destruct (window e); apply app_nil_r. }
  split.
  - intros Hfail. rewrite Hfail. simpl. by rewrite Hsame.
  - intros Hok. rewrite Hok. simpl.
    destruct (Hfound Hok) as (r & t & Hl & Hnew). rewrite Hl.
    split; [exists r, t; by destruct (ts_isClaudeMode session)|].
    destruct (ts_isClaudeMode session); simpl; by rewrite ?Htimers.
Qed.

(** ** Commands on an id that is not registered *)

(** X15. On an id that is not registered, [write], [resize],
    [invokeClaude], [resumeClaude], [setTitle], the start of a capture
    and a probe of a capture change nothing; [isClaudeMode] is false,
    [getClaudeSessionId] is undefined, the id is not among the active
    ids, and [destroy] fails with "Terminal not found". *)
Theorem unregistered_id_is_ignored e id st :
  Map_get id (terminals st) = None →
  (∀ data, write id data st = st)
  ∧ (∀ cols rows, resize id cols rows st = st)
  ∧ (∀ cwd, invokeClaude e id cwd st = st)
  ∧ (∀ sessionId, resumeClaude e id sessionId st = st)
  ∧ (∀ title, setTitle id title st = st)
  ∧ (∀ pp t0, captureClaudeSessionId e id pp t0 st = st)
  ∧ (∀ pp t0 n, checkForSession e id pp t0 n st = st)
  ∧ isClaudeMode id st = false
  ∧ getClaudeSessionId id st = None
  ∧ (id ∉ getActiveTerminalIds st)
  ∧ destroy e id st = (st, failure (str "Terminal not found")).
Proof.
  intros Hid.
  assert (lookup_terminal id st = None) as Hl
    by (unfold lookup_terminal; by rewrite Hid).
  unfold write, resize, invokeClaude, resumeClaude, setTitle,
    captureClaudeSessionId, checkForSession, isClaudeMode, getClaudeSessionId,
    destroy.
  rewrite Hl, Hid. repeat split. by apply Map_get_None.
Qed.

(** ** A terminal and its pty *)

Lemma alter_as_insert {A} (f : A → A) (l : list A) i x :
  l !! i = Some x → alter f i l = <[i := f x]> l.
Proof.
  intros Hx. apply list_eq. intros j. destruct (decide (i = j)) as [<-|Hne].
  - rewrite list_lookup_alter_eq, Hx, list_lookup_insert_eq; [done|].
    by eapply lookup_lt_Some.
  - by rewrite list_lookup_alter_ne, list_lookup_insert_ne.
Qed.

Lemma set_ptys_back (ps : list Pty) st : set_ptys (ptys st) (set_ptys ps st) = st.
Proof. by destruct st. Qed.

(** X16. In a well-formed state a registered terminal talks to its own
    pty: [write] appends the data to the input of the pty of this
    terminal and [resize] sets the size of that pty, and neither changes
    anything else; a chunk of output of that pty lands, capped, in the
    buffer of this terminal, leaves the other buffers alone, and is
    forwarded under the id of this terminal. *)
Theorem terminal_talks_to_its_own_pty e id st r t :
  well_formed st →
  lookup_terminal id st = Some (r, t) →
  ∃ p, ptys st !! tp_pty t = Some p
    ∧ pty_terminal p = r
    ∧ (∀ data,
         ptys (write id data st) = <[tp_pty t := pty_written data p]> (ptys st)
         ∧ set_ptys (ptys st) (write id data st) = st)
    ∧ (∀ cols rows,
         ptys (resize id cols rows st)
         = <[tp_pty t := pty_resized cols rows p]> (ptys st)
         ∧ set_ptys (ptys st) (resize id cols rows st) = st)
    ∧ (∀ data,
         let st' := step e (PtyData (tp_pty t) data) st in
         buffer_of r st' = slice (-100000) (tp_outputBuffer t ++ data)
         ∧ (∀ r', r' ≠ r → buffer_of r' st' = buffer_of r' st)
         ∧ output_notifications (sent st')
           = output_notifications (sent st)
             ++ (if window e then [TERMINAL_OUTPUT id data] else [])).
Proof.
  intros Hwf Hl. pose proof Hl as [Hid Hr]%lookup_terminal_Some.
  destruct (well_formed_lookup st id Hwf)
    as (r' & t' & p & Hl' & Hidt & Hpty & Hp & Hterm & _).
  { apply Map_has_get. by eexists. }
  rewrite Hl in Hl'. injection Hl' as <- <-. rewrite Hpty.
  exists p. split; [done|]. split; [done|]. split; [|split].
  - intros data. unfold write. rewrite Hl, Hpty. unfold pty_write. simpl.
    split; [|apply set_ptys_back].
    by apply alter_as_insert.
  - intros cols rows. unfold resize. rewrite Hl, Hpty. simpl.
    split; [|apply set_ptys_back].
    by apply alter_as_insert.
  - intros data st'.
    destruct (sends_step e (PtyData r data) st) as (ns & Hs & Ho & _).
    simpl in Ho. rewrite Hp, Hterm, Hr, Hidt in Ho.
    assert (evolves same_buffer
              (alter (append_output data) r (heap st))
              (heap (onData e r data st))) as Hev
      by (by apply evolves_onData_after).
    assert (st' = onData e r data st) as ->.
    { subst st'. simpl. by rewrite Hp, Hterm. }
    split; [|split].
    + destruct (same_buffer_lookup _ _ r (append_output data t) Hev)
        as (t' & Ht' & Hb); [by rewrite list_lookup_alter_eq, Hr|].
      unfold buffer_of, buf_at. by rewrite Ht', Hb.
    + intros r' Hne. unfold buffer_of, buf_at.
      destruct (heap st !! r') as [t0|] eqn:Hr'.
      * destruct (same_buffer_lookup _ _ r' t0 Hev)
          as (t' & Ht' & Hb); [by rewrite list_lookup_alter_ne, Hr'|].
        by rewrite Ht', Hb.
      * destruct (onData_skeleton e r data st) as (Hsk & _ & _).
        apply (f_equal (.!! r')) in Hsk.
        rewrite !list_lookup_fmap, Hr' in Hsk. apply fmap_None in Hsk.
        by rewrite Hsk.
    + unfold sends in Hs. simpl in Hs. rewrite Hp, Hterm in Hs. rewrite Hs.
      unfold output_notifications at 1. rewrite List.filter_app.
      fold (output_notifications (sent st)). f_equal.
      destruct (window e); [exact Ho|done].
Qed.
(** ** Pending timeouts *)

Lemma timers_captureClaudeSessionId e id pp t0 st :
  (length (timers (captureClaudeSessionId e id pp t0 st))
   ≤ length (timers st) + 1)%nat.
Proof.
  unfold captureClaudeSessionId. destruct (Map_get _ _); simpl; [|lia].
  rewrite length_app. simpl. lia.
Qed.

Lemma timers_onData e r data st : timers (onData e r data st) = timers st.
Proof.
  unfold onData. destruct (heap st !! r) as [t|]; [|done].
  autorewrite with mgr.
  assert (∀ st0, timers (onData_rateLimit e r data st0) = timers st0) as ->.
  { intros st0. unfold onData_rateLimit. repeat case_match; try done.
    by autorewrite with mgr. }
  unfold onData_session. cbn [heap update_terminal set_heap].
  repeat case_match; try done. by autorewrite with mgr.
Qed.

Lemma timers_step e (ev : Event) st :
  (length (timers (step e ev st)) ≤ length (timers st) + arms ev)%nat.
Proof.
  destruct ev; simpl.
  - rewrite timers_create. lia.
  - unfold restore.
    pose proof (timers_create e (restore_options session cols rows) st) as Hc.
    destruct (create e _ st) as [st1 result]. simpl in Hc.
    repeat case_match; simpl; rewrite ?length_app, Hc; simpl; lia.
  - unfold destroy. repeat case_match; simpl; autorewrite with mgr; lia.
  - unfold write. repeat case_match; simpl; lia.
  - unfold resize. repeat case_match; simpl; lia.
  - unfold invokeClaude. destruct (lookup_terminal id st) as [[r t]|]; [|lia].
    destruct (truthy _).
    + etrans; [apply timers_captureClaudeSessionId|].
      autorewrite with mgr. simpl. lia.
    + autorewrite with mgr. simpl. lia.
  - unfold resumeClaude. destruct (lookup_terminal id st) as [[r t]|]; [|lia].
    destruct sessionId as [[|c sid]|]; simpl; autorewrite with mgr; simpl; lia.
  - unfold setTitle. repeat case_match; simpl; lia.
  - lia.
  - unfold killAll. destruct (saveTimer _); simpl; lia.
  - destruct (ptys st !! pty); [rewrite timers_onData|]; lia.
  - destruct (ptys st !! pty) as [p|]; [|lia]. unfold onExit.
    destruct (heap st !! pty_terminal p); [|lia]. simpl.
    autorewrite with mgr. lia.
  - destruct (saveTimer st); simpl; lia.
  - unfold fire. destruct (timers st !! k) as [[d a]|] eqn:Hk; [|lia].
    simpl. destruct (d <=? now e); [|lia].
    assert (length (delete k (timers st)) + 1 = length (timers st))%nat as Hdel.
    { rewrite length_delete by (by eexists). apply lookup_lt_Some in Hk. lia. }
    destruct a as [id pp t0 n|session r]; simpl.
    + destruct (timers_checkForSession e id pp t0 n
                  (set_timers (delete k (timers st)) st))
        as [->|[_ ->]]; simpl; rewrite ?length_app; simpl; lia.
    + unfold restoreResume. cbn [heap set_timers].
      destruct (heap st !! r) as [t|]; simpl; [|lia].
      destruct (_ && _).
      * etrans; [apply timers_captureClaudeSessionId|].
        autorewrite with mgr. simpl. lia.
      * autorewrite with mgr. simpl. lia.
Qed.

(** X17. Timeouts do not pile up: along any run, the number of pending
    timeouts is at most the number that was pending at the start plus
    the number of [invokeClaude] and [restore] events of the run. A
    timeout that fires is consumed, and leaves at most one behind. *)
Theorem pending_timeouts_bounded (tr : list (Env * Event)) st :
  (length (timers (run tr st))
   ≤ length (timers st) + sum_list (arms <$> tr.*2))%nat.
Proof.
  revert st. induction tr as [|[e ev] tr IH]; intros st; [simpl; lia|].
  change (sum_list (arms <$> ((e, ev) :: tr).*2))
    with (arms ev + sum_list (arms <$> tr.*2))%nat.
  specialize (IH (step e ev st)). pose proof (timers_step e ev st).
  simpl. lia.
Qed.
(** ** The session id found in the output *)

(** The rate-limit part of [onData] leaves the terminal objects and the
    store alone and sends no session notification. *)
Lemma onData_rateLimit_frame e r data st :
  heap (onData_rateLimit e r data st) = heap st
  ∧ store (onData_rateLimit e r data st) = store st
  ∧ session_notifications (sent (onData_rateLimit e r data st))
    = session_notifications (sent st).
Proof.
  unfold onData_rateLimit. destruct (heap st !! r) as [t|]; [|done].
  destruct (tp_isClaudeMode t); [|done].
  destruct (rateLimitResetTime data); [|done].
  destruct (_ <? _); [|done]. autorewrite with mgr. simpl.
  split; [done|]. split; [done|].
  unfold session_notifications. rewrite List.filter_app.
  destruct (window e); simpl; by rewrite app_nil_r.
Qed.

(** X18. A chunk of output and the session id. For a terminal object
    in Claude mode that has no session id yet, a chunk in which the
    extractor finds an id sets this id on the object, hands it to the
    store under the project path and the id of the terminal (when there
    is a project path), and sends one session notification. In every
    other case (not in Claude mode, an id already there, nothing found)
    the chunk leaves the session id, the mode and the store alone and
    sends no session notification. *)
Theorem output_announces_session e r data st t :
  heap st !! r = Some t →
  let st' := onData e r data st in
  (∀ sessionId,
     tp_isClaudeMode t = true →
     truthy (tp_claudeSessionId t) = false →
     extractClaudeSessionId data = Some sessionId →
     (∃ t', heap st' !! r = Some t'
        ∧ tp_claudeSessionId t' = Some sessionId
        ∧ tp_isClaudeMode t' = true)
     ∧ store st' = match tp_projectPath t with
                   | Some (c :: pp) =>
                       updateClaudeSessionId (c :: pp) (tp_id t) sessionId
                         (store st)
                   | _ => store st
                   end
     ∧ session_notifications (sent st')
       = session_notifications (sent st)
         ++ (if window e
             then [TERMINAL_CLAUDE_SESSION (tp_id t) sessionId] else []))
  ∧ (tp_isClaudeMode t = false ∨ truthy (tp_claudeSessionId t) = true
     ∨ extractClaudeSessionId data = None →
     (∃ t', heap st' !! r = Some t'
        ∧ tp_claudeSessionId t' = tp_claudeSessionId t
        ∧ tp_isClaudeMode t' = tp_isClaudeMode t)
     ∧ store st' = store st
     ∧ session_notifications (sent st') = session_notifications (sent st)).
Proof.
  intros Hr st'. subst st'. unfold onData. rewrite Hr.
  set (st1 := update_terminal r (append_output data) st).
  assert (heap st1 !! r = Some (append_output data t)) as Hr1
    by (subst st1; simpl; by rewrite list_lookup_alter_eq, Hr).
  destruct (onData_rateLimit_frame e r data (onData_session e r data st1))
    as (Hheap & Hstore & Hsent).
  assert (∀ n st0, session_notifications [n] = [] →
            session_notifications (sent (send e n st0))
            = session_notifications (sent st0)) as Hother.
  { intros n st0 Hn. autorewrite with mgr. unfold session_notifications in *.
    rewrite List.filter_app. destruct (window e); [|by rewrite app_nil_r].
    by rewrite Hn, app_nil_r. }
  rewrite Hother by done. autorewrite with mgr. rewrite Hheap, Hstore, Hsent.
  unfold onData_session. rewrite Hr1. simpl. split.
  - intros sessionId Hmode Hsid Hextract. rewrite Hmode, Hsid. simpl.
    rewrite Hextract.
    pose proof (first_match_nonempty _ _ _ Hextract) as Hne.
    destruct sessionId as [|c sid]; [done|].
    autorewrite with mgr. simpl. split.
    + rewrite !list_lookup_alter_eq, Hr. simpl.
      eexists. split; [done|]. by split.
    + split; [done|]. unfold session_notifications.
      rewrite List.filter_app. by destruct (window e).
  - intros Hno.
    assert ((if tp_isClaudeMode t && negb (truthy (tp_claudeSessionId t))
             then match extractClaudeSessionId data with
                  | Some (c :: sid) =>
                      send e (TERMINAL_CLAUDE_SESSION (tp_id t) (c :: sid))
                        (with_projectPath (tp_projectPath t)
                           (fun pp =>
                              updateClaudeSessionId pp (tp_id t) (c :: sid))
                           (update_terminal r
                              (with_claudeSessionId (Some (c :: sid))) st1))
                  | _ => st1
                  end
             else st1) = st1) as ->.
    { destruct (tp_isClaudeMode t); [|done].
      destruct (truthy (tp_claudeSessionId t)); [done|].
      by destruct Hno as [?|[?| ->]]. }
    split; [by exists (append_output data t)|done].
Qed.
(** ** The save pass *)

Lemma Map_get_elem_of_NoDup id r (m : TerminalMap) :
  NoDup m.*1 → (id, r) ∈ m → Map_get id m = Some r.
Proof.
  induction m as [|[k r'] m IH]; simpl; [by intros _ ?%elem_of_nil|].
  intros [Hk Hm]%NoDup_cons [[= -> ->]|Hin]%elem_of_cons.
  - by rewrite decide_True.
  - rewrite decide_False; [by apply IH|]. intros ->. apply Hk.
    by apply (list_elem_of_fmap_2 fst) in Hin.
Qed.

Lemma omap_ids_sublist {A} (f : jstring * nat → option A) (key : A → jstring)
    (m : TerminalMap) :
  (∀ id r a, (id, r) ∈ m → f (id, r) = Some a → key a = id) →
  key <$> omap f m `sublist_of` m.*1.
Proof.
  induction m as [|[id r] m IH]; intros Hkey; [done|]. simpl.
  assert (key <$> omap f m `sublist_of` m.*1) as Hrest.
  { apply IH. intros id' r' a Hin. apply Hkey. by apply list_elem_of_further. }
  destruct (f (id, r)) as [a|] eqn:Hf; simpl.
  - rewrite (Hkey id r a); [by apply sublist_skip|apply list_elem_of_here|done].
  - by apply sublist_cons.
Qed.

(** X19. A save pass over a well-formed state hands the store one
    snapshot for each registered terminal that has a project path, and
    none for the others: the snapshots are those of the terminals found
    under their own id, no two of them have the same id, and a tick of
    the save interval stores them in map order while the interval runs
    and does nothing once it is stopped. *)
Theorem save_pass_snapshots e st :
  well_formed st →
  NoDup (ts_id <$> live_sessions e st)
  ∧ (∀ s, s ∈ live_sessions e st ↔
          ∃ r t c pp,
            lookup_terminal (ts_id s) st = Some (r, t)
            ∧ tp_projectPath t = Some (c :: pp)
            ∧ s = snapshot e t (c :: pp))
  ∧ store (step e SaveTick st)
    = (if saveTimer st is Some _
       then foldl (fun s x => saveSession x s) (store st) (live_sessions e st)
       else store st).
Proof.
  intros (Hdup & Hreg & _).
  assert (∀ id r s,
            (id, r) ∈ terminals st →
            (heap st !! r ≫= fun t =>
               match tp_projectPath t with
               | Some (c :: pp) => Some (snapshot e t (c :: pp))
               | _ => None
               end) = Some s →
            ∃ t c pp, heap st !! r = Some t ∧ tp_id t = id
              ∧ tp_projectPath t = Some (c :: pp)
              ∧ s = snapshot e t (c :: pp)) as Hentry.
  { intros id r s Hin Hs. destruct (Hreg id r Hin) as (t & Ht & Hid).
    rewrite Ht in Hs. simpl in Hs.
    destruct (tp_projectPath t) as [[|c pp]|] eqn:Hpp; try done.
    injection Hs as <-. by exists t, c, pp. }
  split; [|split].
  - eapply sublist_NoDup; [exact Hdup|]. unfold live_sessions.
    apply omap_ids_sublist. intros id r s Hin Hs.
    by destruct (Hentry id r s Hin Hs) as (t & c & pp & _ & <- & _ & ->).
  - intros s. unfold live_sessions. rewrite list_elem_of_omap. split.
    + intros ([id r] & Hin & Hs).
      destruct (Hentry id r s Hin Hs) as (t & c & pp & Ht & Hid & Hpp & ->).
      exists r, t, c, pp. split; [|done]. apply lookup_terminal_Some.
      simpl. rewrite Hid. split; [|done]. by apply Map_get_elem_of_NoDup.
    + intros (r & t & c & pp & [Hid Ht]%lookup_terminal_Some & Hpp & ->).
      exists (ts_id (snapshot e t (c :: pp)), r).
      split; [by apply Map_get_elem_of|]. simpl. rewrite Ht. simpl.
      by rewrite Hpp.
  - simpl. destruct (saveTimer st); [|done]. apply persistAllSessions_store.
Qed.
(** ** The cool-down along a run *)





(** ** Claude mode *)

Lemma stays_claude_lookup (hp hp' : list TerminalProcess) r t :
  evolves stays_claude hp hp' → hp !! r = Some t →
  ∃ t', hp' !! r = Some t' ∧ stays_claude t t'.
Proof. apply evolves_lookup; unfold stays_claude; auto. Qed.

(** X21. Claude mode is never left: a terminal object that is in Claude
    mode is in Claude mode after any run. No event sets the flag back,
    also not the exit of the pty or a [destroy]; the object only leaves
    the map. *)
Theorem claude_mode_is_never_left (tr : list (Env * Event)) st r t :
  heap st !! r = Some t →
  tp_isClaudeMode t = true →
  ∃ t', heap (run tr st) !! r = Some t' ∧ tp_isClaudeMode t' = true.
Proof.
  revert st t. induction tr as [|[e ev] tr IH]; intros st t Hr Hmode; simpl.
  - by exists t.
  - destruct (stays_claude_lookup (heap st) (heap (step e ev st)) r t)
      as (t1 & Hr1 & Hkeep); [|done|by eauto].
    apply evolves_step.
    + by unfold stays_claude.
    + by unfold stays_claude.
    + by unfold stays_claude.
    + unfold stays_claude. auto.
    + right. by unfold stays_claude.
    + right. by unfold stays_claude.
Qed.

(** ** The save interval *)

Lemma saveTimer_send e n st : saveTimer (send e n st) = saveTimer st.
Proof. unfold send. by destruct (window e). Qed.

Lemma saveTimer_with_projectPath o (f : jstring → S → S) st :
  saveTimer (with_projectPath o f st) = saveTimer st.
Proof. unfold with_projectPath. by repeat case_match. Qed.

Lemma saveTimer_captureClaudeSessionId e id pp t0 st :
  saveTimer (captureClaudeSessionId e id pp t0 st) = saveTimer st.
Proof. unfold captureClaudeSessionId. by case_match. Qed.

#[local] Hint Rewrite saveTimer_send saveTimer_with_projectPath
  saveTimer_captureClaudeSessionId : mgr.

(** Only [killAll] touches the save interval. *)
Lemma saveTimer_step e (ev : Event) st :
  saveTimer (step e ev st) = if stops_saving ev then None else saveTimer st.
Proof.
  assert (∀ options, saveTimer (create e options st).1 = saveTimer st)
    as Hcreate.
  { intros options. unfold create.
    repeat case_match; simpl; by autorewrite with mgr. }
  destruct ev; simpl.
  - apply Hcreate.
  - unfold restore.
    specialize (Hcreate (restore_options session cols rows)).
    destruct (create e _ st) as [st1 result]. simpl in Hcreate.
    repeat case_match; simpl; by rewrite Hcreate.
  - unfold destroy. repeat case_match; simpl; by autorewrite with mgr.
  - unfold write. by repeat case_match.
  - unfold resize. by repeat case_match.
  - unfold invokeClaude. destruct (lookup_terminal _ _) as [[r t]|]; [|done].
    destruct (truthy _); by autorewrite with mgr.
  - unfold resumeClaude. destruct (lookup_terminal _ _) as [[r t]|]; [|done].
    destruct sessionId as [[|c sid]|]; simpl; by autorewrite with mgr.
  - unfold setTitle. by repeat case_match.
  - done.
  - unfold killAll. simpl. by destruct (saveTimer st) eqn:Htimer.
  - destruct (ptys st !! pty) as [p|]; [|done]. unfold onData.
    destruct (heap st !! pty_terminal p); [|done]. autorewrite with mgr.
    unfold onData_rateLimit.
    assert (∀ st0, saveTimer (onData_session e (pty_terminal p) data st0)
                   = saveTimer st0) as Hsession.
    { intros st0. unfold onData_session.
      repeat case_match; simpl; by autorewrite with mgr. }
    repeat case_match; simpl; autorewrite with mgr; simpl; by rewrite ?Hsession.
  - destruct (ptys st !! pty) as [p|]; [|done]. unfold onExit.
    destruct (heap st !! pty_terminal p); [|done]. simpl.
    by autorewrite with mgr.
  - by destruct (saveTimer st) eqn:Htimer.
  - unfold fire. destruct (timers st !! k) as [[d a]|]; [|done]. simpl.
    destruct (d <=? now e); [|done]. destruct a; simpl.
    + unfold checkForSession, adopt_session.
      repeat case_match; simpl; by autorewrite with mgr.
    + unfold restoreResume. simpl. destruct (heap st !! terminal); [|done].
      destruct (_ && _); simpl; by autorewrite with mgr.
Qed.

(** X22. The save interval stops for good: it runs exactly until the
    first [killAll] of a run, and no other event stops or restarts it;
    once it is stopped, a tick changes nothing, also when terminals are
    created afterwards. *)
Theorem save_interval_stops_for_good (tr : list (Env * Event)) st :
  saveTimer (run tr st)
  = (if existsb stops_saving tr.*2 then None else saveTimer st)
  ∧ (saveTimer (run tr st) = None →
     ∀ e, step e SaveTick (run tr st) = run tr st).
Proof.
  split.
  - revert st. induction tr as [|[e ev] tr IH]; intros st; [done|].
    rewrite fmap_cons. cbn [run existsb snd]. rewrite IH, saveTimer_step.
    by destruct (stops_saving ev), (existsb stops_saving tr.*2).
  - intros Hnone e. simpl. by rewrite Hnone.
Qed.

(** ** The title *)

Lemma same_title_lookup (hp hp' : list TerminalProcess) r t :
  evolves same_title hp hp' → hp !! r = Some t →
  ∃ t', hp' !! r = Some t' ∧ tp_title t' = tp_title t.
Proof.
  apply evolves_lookup; unfold same_title; [done|congruence].
Qed.

(** X23. The title of a terminal object changes only through
    [setTitle] and [restore], and only for the object that they find
    under the id: every other event, and these two for every other
    object, leave the title as it is; [setTitle] on a registered id sets
    the title of its object and nothing else of it. *)
Theorem title_set_by_setTitle_and_restore e (ev : Event) st r t :
  heap st !! r = Some t →
  (retitled e ev st ≠ Some r →
   ∃ t', heap (step e ev st) !! r = Some t' ∧ tp_title t' = tp_title t)
  ∧ (∀ id title,
       ev = SetTitle id title → Map_get id (terminals st) = Some r →
       ∃ t', heap (step e ev st) !! r = Some t' ∧ tp_title t' = title
             ∧ with_title (tp_title t) t' = t).
Proof.
  intros Hr. split.
  2: { intros id title -> Hid. simpl. unfold setTitle, lookup_terminal.
       rewrite Hid. simpl. rewrite Hr. simpl.
       rewrite list_lookup_alter_eq, Hr. simpl.
       eexists. split; [done|]. split; [done|]. by destruct t. }
  intros Hnot.
  assert (evolves same_title (heap st) (heap (step e ev st)) →
          ∃ t', heap (step e ev st) !! r = Some t' ∧ tp_title t' = tp_title t)
    as Hframe by (intros Hev; by eapply same_title_lookup).
  assert (∀ (f : TerminalProcess → TerminalProcess) r0 hp,
            (∀ t0, tp_title (f t0) = tp_title t0) →
            evolves same_title hp (alter f r0 hp)) as Halter.
  { intros f r0 hp Hf. apply evolves_alter1. intros t0 _. apply Hf. }
  destruct ev; simpl in *.
  - apply Hframe, evolves_create.
  - unfold restore.
    pose proof (evolves_create same_title e
                  (restore_options session cols rows) st) as Hc.
    destruct (create e _ st) as [st1 result]. simpl in *.
    destruct (same_title_lookup _ _ r t Hc Hr) as (t1 & Hr1 & Ht1).
    destruct (success result); simpl; [|by exists t1].
    unfold lookup_terminal.
    destruct (Map_get (ts_id session) (terminals st1)) as [r0|]; simpl;
      [|by exists t1].
    destruct (heap st1 !! r0) as [t0|]; simpl; [|by exists t1].
    assert (r0 ≠ r) as Hne by congruence.
    destruct (ts_isClaudeMode session); simpl;
      rewrite list_lookup_alter_ne by done; by exists t1.
  - apply Hframe, evolves_destroy.
  - apply Hframe, evolves_write.
  - apply Hframe, evolves_resize.
  - apply Hframe. unfold invokeClaude.
    destruct (lookup_terminal id st) as [[r0 t0]|]; [|constructor].
    destruct (truthy _); autorewrite with mgr; by apply Halter.
  - apply Hframe. unfold resumeClaude.
    destruct (lookup_terminal id st) as [[r0 t0]|]; [|constructor].
    destruct sessionId as [[|c sid]|]; simpl; autorewrite with mgr; simpl.
    1,3: by apply Halter.
    eapply evolves_trans; by apply Halter.
  - unfold setTitle, lookup_terminal.
    destruct (Map_get id (terminals st)) as [r0|]; simpl; [|by exists t].
    destruct (heap st !! r0) as [t0|]; simpl; [|by exists t].
    assert (r0 ≠ r) as Hne by congruence.
    rewrite list_lookup_alter_ne by done. by exists t.
  - by exists t.
  - apply Hframe, evolves_killAll.
  - apply Hframe. destruct (ptys st !! pty) as [p|]; [|constructor].
    eapply evolves_trans; [|by apply evolves_onData_after].
    by apply Halter.
  - apply Hframe. destruct (ptys st !! pty) as [p|]; [|constructor].
    apply evolves_onExit.
  - apply Hframe. destruct (saveTimer st); constructor.
  - apply Hframe. unfold fire.
    destruct (timers st !! k) as [[d a]|]; [|constructor]. simpl.
    destruct (d <=? now e); [|constructor]. destruct a; simpl.
    + by apply (evolves_checkForSession same_title (fun _ _ _ => eq_refl)
                  _ _ _ _ _ (set_timers _ st)).
    + unfold restoreResume. simpl.
      destruct (heap st !! terminal); [|constructor].
      destruct (_ && _); simpl; autorewrite with mgr; by apply Halter.
Qed.

(** ** create and destroy *)

Lemma Map_get_last id r (m : TerminalMap) :
  Map_get id m = None → Map_get id (m ++ [(id, r)]) = Some r.
Proof.
  induction m as [|[k r'] m IH]; simpl; [by rewrite decide_True|].
  by destruct (decide (k = id)).
Qed.

Lemma Map_delete_last id r (m : TerminalMap) :
  Map_get id m = None → Map_delete id (m ++ [(id, r)]) = m.
Proof.
  unfold Map_delete. intros Hm. rewrite filter_app, filter_cons. simpl.
  rewrite decide_False; [|by intros ?]. rewrite filter_nil, app_nil_r.
  induction m as [|[k r'] m IH]; [done|]. simpl in Hm.
  destruct (decide (k = id)); [done|].
  rewrite filter_cons. simpl. rewrite decide_True by done. by rewrite IH.
Qed.

(** X24. [destroy] undoes [create] in the map: when an id that is not
    registered is created and then destroyed, and neither [pty.spawn] nor
    [kill] throws, [destroy] succeeds and the map of terminals is what it
    was before the [create], entries and order. The terminal object made
    in between stays as it was left, out of reach of the map; its pty is
    the one that is killed, and the ptys that existed before are as they
    were. *)
Theorem create_then_destroy e e' options st :
  Map_has (opt_id options) (terminals st) = false →
  spawnThrows e = None →
  killThrows e' (length (ptys st)) = None →
  let st1 := (create e options st).1 in
  let destroyed := destroy e' (opt_id options) st1 in
  destroyed.2 = ok
  ∧ terminals destroyed.1 = terminals st
  ∧ heap destroyed.1 = heap st1
  ∧ ptys destroyed.1
    = ptys st ++ [pty_dead (new_pty e options (length (heap st)))].
Proof.
  intros Hhas Hspawn Hkill st1 destroyed.
  pose proof (create_shape e options st) as Hc. simpl in Hc.
  rewrite Hhas, Hspawn in Hc. destruct Hc as (Hget & Hheap & Hptys & Hmap).
  fold st1 in Hheap, Hptys, Hmap.
  assert (lookup_terminal (opt_id options) st1
          = Some (length (heap st),
                  new_terminal e options (length (ptys st))
                    (length (terminals st)))) as Hl.
  { apply lookup_terminal_Some. rewrite Hmap, Hheap. split.
    - by apply Map_get_last.
    - by rewrite lookup_app_r, Nat.sub_diag. }
  subst destroyed. unfold destroy. rewrite Hl. simpl. rewrite Hkill. simpl.
  autorewrite with mgr. rewrite Hmap, Hptys. repeat split.
  - by apply Map_delete_last.
  - rewrite alter_app_r_alt by done. by rewrite Nat.sub_diag.
Qed.
End Properties.








Lemma create_duplicate_is_success_witness :
  let '(st1, result1) := create (host 1700000000000) t1_options fresh in
  let '(st2, result2) := create (host 1700000000100) t1_options st1 in
  success result1 = true ∧ success result2 = true
  ∧ st2 = st1
  ∧ ptys st2 = ptys fresh ++ [new_pty (host 1700000000000) t1_options 0]
  ∧ Map_get T1 (terminals st2) = Some (length (heap fresh)).
Proof.
  exact (proj1 (proj2 create_duplicate_is_success)
           (host 1700000000000) (host 1700000000100) t1_options t1_options
           fresh eq_refl eq_refl eq_refl).
Defined.


Lemma outputBuffer_trailing_window_witness :
  let tr := [(host 1700000000500, PtyData 0 (str "$ ls"));
             (host 1700000000900, PtyData 0 (str " -la"))] in
  buffer_of 0 (run tr one_terminal) = str "$ ls -la"
  ∧ Z.of_nat (length (buffer_of 0 (run tr one_terminal))) = 8
  ∧ Z.of_nat (length (buffer_of 0 (run tr one_terminal))) ≤ 100000.
Proof.
  exact (outputBuffer_trailing_window (host 1700000000000) t1_options fresh
           [(host 1700000000500, PtyData 0 (str "$ ls"));
            (host 1700000000900, PtyData 0 (str " -la"))]
           eq_refl eq_refl).
Defined.

(** C2, the claim as stated fails: the terminal is found, [kill] throws,
    and [destroy] reports a failure and keeps the terminal. *)
Lemma destroy_reports_kill_failure :
  Map_has T1 (terminals one_terminal) = true
  ∧ (destroy (host_kill_fails 1700000001000) T1 one_terminal).2
    = failure (str "kill EPERM")
  ∧ Map_has T1 (terminals (destroy (host_kill_fails 1700000001000) T1
                             one_terminal).1) = true.
Proof. vm_compute. done. Qed.

Lemma destroy_outcomes_witness :
  let st' := (destroy (host_kill_fails 1700000001000) T1 one_terminal).1 in
  (destroy (host_kill_fails 1700000001000) T1 one_terminal).2
    = failure (str "kill EPERM")
  ∧ store st' = removeSession (str "/proj") T1 (store one_terminal)
  ∧ terminals st' = terminals one_terminal
  ∧ ptys st' = ptys one_terminal
  ∧ heap st' = heap one_terminal ∧ sent st' = sent one_terminal
  ∧ timers st' = timers one_terminal
  ∧ rateLimitNotifiedAt st' = rateLimitNotifiedAt one_terminal
  ∧ saveTimer st' = saveTimer one_terminal.
Proof.
  exact (proj2 (proj2 destroy_outcomes) (host_kill_fails 1700000001000) T1
           one_terminal 0%nat
           (new_terminal (host 1700000000000) t1_options 0 0)
           (ErrorObj (str "kill EPERM")) eq_refl eq_refl).
Defined.

Lemma invoke_resume_keep_title_witness :
  sent (invokeClaude (host 1700000001000) T1 None one_terminal)
    = sent one_terminal ++ [TERMINAL_TITLE_CHANGE T1 CLAUDE]
  ∧ store (resumeClaude (host 1700000001000) T1 (Some (str "s-42")) one_terminal)
    = store one_terminal.
Proof.
  pose proof (invoke_resume_keep_title (host 1700000001000) T1 one_terminal
                0%nat (new_terminal (host 1700000000000) t1_options 0 0)
                eq_refl) as [Hi Hr].
  split.
  - exact (proj1 (proj2 (proj2 (Hi None)))).
  - exact (proj2 (proj2 (proj2 (Hr (Some (str "s-42")))))).
Defined.

(** C8, the claim as stated fails: the cool-down entry recorded for "t1"
    is still there after [killAll], while the map of terminals is empty
    and the save interval is stopped. *)
Lemma killAll_keeps_cooldown_map :
  rateLimitNotifiedAt limited !! T1 = Some 1700000002000
  ∧ rateLimitNotifiedAt (killAll (host 1700000003000) limited) !! T1
    = Some 1700000002000
  ∧ terminals (killAll (host 1700000003000) limited) = []
  ∧ saveTimer (killAll (host 1700000003000) limited) = None.
Proof. vm_compute. done. Qed.

Lemma rate_limit_cooldown_witness :
  rate_limits (sent (onData (host 1700000030000) 0 LIMIT_MESSAGE
                       (onData (host 1700000002000) 0 LIMIT_MESSAGE in_claude)))
  = rate_limits (sent in_claude)
    ++ [TERMINAL_RATE_LIMIT T1 (str "Dec 17 at 6am (Europe/Oslo)")
          1700000002000].
Proof.
  refine (proj1 (proj1 (proj2 (proj2 (proj2 (@rate_limit_cooldown SpecStore _))))
                   (host 1700000002000) (host 1700000030000) 0%nat LIMIT_MESSAGE
                   in_claude
                   (with_claudeSessionId None
                      (with_isClaudeMode true
                         (new_terminal (host 1700000000000) t1_options 0 0)))
                   (str "Dec 17 at 6am (Europe/Oslo)")
                   eq_refl eq_refl eq_refl eq_refl eq_refl _) _);
    by vm_compute.
Defined.

(** C7, the claim as stated fails: [restore] starts at 1700000000000,
    its timeout fires one second later, and the capture it starts is
    anchored at the time of firing. The log written during the delay
    would qualify for the time before the delay; it does not for the
    anchor, and the first probe adopts nothing. *)
Lemma restore_anchor_is_after_delay :
  timers restoring
    = [{| due := 1700000001000; action := RestoreResume t1_session 0 |}]
  ∧ timers restored
    = [{| due := 1700000003000;
          action := CheckForSession T1 (str "/tmp") 1700000001000 0 |}]
  ∧ findClaudeSessionAfter (host_with_log 1700000003000) (str "/tmp")
      1700000000000 = Some (str "abc")
  ∧ findClaudeSessionAfter (host_with_log 1700000003000) (str "/tmp")
      1700000001000 = None
  ∧ getClaudeSessionId T1
      (step (host_with_log 1700000003000) (Timeout 0) restored) = None.
Proof. vm_compute. done. Qed.

(** C3, the claim as stated fails: the id found in the output of "t1" is
    replaced, with no call of [resumeClaude] or [invokeClaude], by a
    [restore] of a session of the same id. *)
Lemma restore_overwrites_session_id :
  getClaudeSessionId T1 discovered = Some (str "abc-123")
  ∧ getClaudeSessionId T1
      (run [(host 1700000005000, Restore t1_session None None);
            (host 1700000006000, Timeout 1)] discovered) = None.
Proof. vm_compute. done. Qed.

Lemma restore_capture_anchor_witness :
  timers (fire (host_with_log 1700000001000) 0 restoring)
  = delete 0%nat (timers restoring)
    ++ [{| due := 1700000001000 + 2000;
           action := CheckForSession T1 (str "/tmp") 1700000001000 0 |}].
Proof.
  refine (proj2 (proj1 (proj2 (@restore_capture_anchor SpecStore _))
                   (host_with_log 1700000001000) 0%nat restoring t1_session
                   0%nat
                   (with_title (str "Claude")
                      (new_terminal (host_with_log 1700000000000)
                         (restore_options t1_session None None) 0 0))
                   1700000001000 eq_refl eq_refl eq_refl eq_refl eq_refl) _).
  by vm_compute.
Defined.

Lemma session_id_set_once_witness :
  ∃ t', heap (step (host 1700000003000) (PtyData 0 (str "Session: zzz-9"))
                discovered) !! 0%nat = Some t'
        ∧ tp_claudeSessionId t' = Some (str "abc-123").
Proof.
  exact (proj1 (@session_id_set_once SpecStore _) (host 1700000003000)
           (PtyData 0 (str "Session: zzz-9")) discovered 0%nat
           (with_claudeSessionId (Some (str "abc-123"))
              (append_output (str "Session: abc-123")
                 (with_claudeSessionId None
                    (with_isClaudeMode true
                       (new_terminal (host 1700000000000) t1_options 0 0)))))
           eq_refl eq_refl eq_refl).
Defined.

Lemma polling_capture_bounded_witness :
  checkForSession (host 1700000012000) T1 (str "/proj") 1700000001000 9
    in_claude = in_claude.
Proof.
  refine (proj2
            (proj2 (proj2 (proj2 (proj2 (proj2 (proj2 (proj2
               (@polling_capture_bounded SpecStore _)))))))
               (host 1700000012000) T1 (str "/proj") 1700000001000 9%nat
               in_claude 0%nat
               (with_claudeSessionId None
                  (with_isClaudeMode true
                     (new_terminal (host 1700000000000) t1_options 0 0)))
               eq_refl eq_refl eq_refl eq_refl) _).
  by vm_compute.
Defined.

Lemma killAll_teardown_witness :
  0%nat ∈ killed_handles (host 1700000003000) limited.
Proof.
  exact (proj1 (proj2 (proj2 (proj2 (proj2
           (killAll_teardown (host 1700000003000) limited)))))
           T1 0%nat
           (with_outputBuffer LIMIT_MESSAGE
              (with_claudeSessionId None
                 (with_isClaudeMode true
                    (new_terminal (host 1700000000000) t1_options 0 0))))
           (list_elem_of_here (T1, 0%nat) []) eq_refl eq_refl).
Defined.

(** The scenario end to end: [create] persists a record that is not in
    Claude mode; [invokeClaude] sets the mode, sends the title change and
    arms the first probe; the chunk "Session: s-42" sets the id, and the
    same chunk again leaves one session notification in all. *)
Example end_to_end :
  (ts_isClaudeMode <$> getSession (str "/proj") T1 (store one_terminal))
    = Some false
  ∧ isClaudeMode T1 in_claude = true
  ∧ sent in_claude = [TERMINAL_TITLE_CHANGE T1 CLAUDE]
  ∧ timers in_claude
    = [{| due := 1700000003000;
          action := CheckForSession T1 (str "/proj") 1700000001000 0 |}]
  ∧ (let st := run [(host 1700000002000, PtyData 0 (str "Session: s-42"));
                    (host 1700000002500, PtyData 0 (str "Session: s-42"))]
                 in_claude in
     getClaudeSessionId T1 st = Some (str "s-42")
     ∧ session_notifications (sent st)
       = [TERMINAL_CLAUDE_SESSION T1 (str "s-42")]).
Proof. vm_compute. done. Qed.

(** ** The further properties on the scenario *)

Lemma session_id_of_log_name_witness :
  replace JSONL [] (str "0b5e-4c1a.jsonl") = str "0b5e-4c1a".
Proof.
  refine (proj2 (proj2 (session_id_of_log_name (str "0b5e-4c1a.jsonl") eq_refl))
            (str "0b5e-4c1a") eq_refl _).
  by repeat constructor.
Defined.

Lemma reset_time_is_trimmed_witness :
  Forall (fun c => isLineTerminator c = false) (str "Dec 17 at 6am (Europe/Oslo)").
Proof.
  exact (proj2 (proj2 (proj2
           (reset_time_is_trimmed LIMIT_MESSAGE
              (str "Dec 17 at 6am (Europe/Oslo)") eq_refl)))).
Defined.

Lemma labelled_session_is_captured_witness :
  extractClaudeSessionId
    ([27%N] ++ str "Session:" ++ str "  " ++ str "0b5e-4c1a" ++ str " (new)")
  = Some (str "0b5e-4c1a").
Proof.
  refine (labelled_session_is_captured [27%N] (str "  ") (str "0b5e-4c1a")
            (str " (new)") _ _ _ _ _).
  - by repeat constructor.
  - by repeat constructor.
  - done.
  - by repeat constructor.
  - by intros c [= <-].
Defined.

(** The exit of the first pty of "t1" arrives after "t1" has been
    created again: it takes the second terminal out of the map. *)
Lemma pty_exit_unregisters_witness :
  Map_get T1 (terminals recreated) = Some 1%nat
  ∧ Map_get T1
      (terminals (step (host 1700000001200) (PtyExit 0 0) recreated)) = None.
Proof.
  split; [done|].
  exact (proj1 (pty_exit_unregisters (host 1700000001200) 0%nat 0 recreated
                  (pty_dead (new_pty (host 1700000000000) t1_options 0))
                  (new_terminal (host 1700000000000) t1_options 0 0)
                  eq_refl eq_refl)).
Defined.

Lemma notifications_need_window_witness :
  sent (step (host_no_window 1700000001000) (InvokeClaude T1 None) one_terminal)
  = sent one_terminal.
Proof.
  exact (notifications_need_window (host_no_window 1700000001000)
           (InvokeClaude T1 None) one_terminal eq_refl).
Defined.

Lemma restore_outcomes_witness :
  (restore (host 1700000004000) t2_session None None one_terminal).2
  = Some {| success := true; error := None;
            res_outputBuffer := Some (str "$ make") |}.
Proof.
  assert (∀ r, Map_get (ts_id t2_session) (terminals one_terminal) = Some r →
               is_Some (heap one_terminal !! r)) as Hlive
    by (intros r Hr; by vm_compute in Hr).
  destruct (proj2 (restore_outcomes (host 1700000004000) t2_session None None
                     one_terminal Hlive) eq_refl)
    as (_ & _ & _ & _ & _ & Hresult).
  exact (proj1 Hresult).
Defined.

Lemma unregistered_id_is_ignored_witness :
  write T1 (str "ls") (destroy (host 1700000001000) T1 one_terminal).1
  = (destroy (host 1700000001000) T1 one_terminal).1.
Proof.
  exact (proj1 (unregistered_id_is_ignored (host 1700000001000) T1
                  (destroy (host 1700000001000) T1 one_terminal).1 eq_refl)
           (str "ls")).
Defined.

Lemma terminal_talks_to_its_own_pty_witness :
  ∃ p, ptys one_terminal !! 0%nat = Some p ∧ pty_terminal p = 0%nat.
Proof.
  destruct (terminal_talks_to_its_own_pty (host 1700000001000) T1 one_terminal
              0%nat (new_terminal (host 1700000000000) t1_options 0 0)
              (well_formed_step (host 1700000000000) (Create t1_options) fresh
                 (well_formed_new ∅))
              eq_refl) as (p & Hp & Hterm & _).
  by exists p.
Defined.

Lemma output_announces_session_witness :
  session_notifications
    (sent (onData (host 1700000002000) 0 (str "Session: abc-123") in_claude))
  = session_notifications (sent in_claude)
    ++ [TERMINAL_CLAUDE_SESSION T1 (str "abc-123")].
Proof.
  exact (proj2 (proj2
           (proj1 (output_announces_session (host 1700000002000) 0%nat
                     (str "Session: abc-123") in_claude
                     (with_claudeSessionId None
                        (with_isClaudeMode true
                           (new_terminal (host 1700000000000) t1_options 0 0)))
                     eq_refl)
              (str "abc-123") eq_refl eq_refl eq_refl))).
Defined.

Lemma save_pass_snapshots_witness :
  NoDup (ts_id <$> live_sessions (host 1700000005000) one_terminal).
Proof.
  exact (proj1 (save_pass_snapshots (host 1700000005000) one_terminal
                  (well_formed_step (host 1700000000000) (Create t1_options)
                     fresh (well_formed_new ∅)))).
Defined.


(** The terminal object of "t1" is still in Claude mode after its pty
    has exited and the manager has shut down. *)
Lemma claude_mode_is_never_left_witness :
  ∃ t', heap (run [(host 1700000004000, PtyExit 0 0);
                   (host 1700000005000, KillAll)] in_claude) !! 0%nat = Some t'
        ∧ tp_isClaudeMode t' = true.
Proof.
  exact (claude_mode_is_never_left
           [(host 1700000004000, PtyExit 0 0); (host 1700000005000, KillAll)]
           in_claude 0%nat
           (with_claudeSessionId None
              (with_isClaudeMode true
                 (new_terminal (host 1700000000000) t1_options 0 0)))
           eq_refl eq_refl).
Defined.

(** [restore] of "t2" leaves the title of the terminal of "t1". *)
Lemma title_set_by_setTitle_and_restore_witness :
  ∃ t', heap (step (host 1700000004000) (Restore t2_session None None)
                one_terminal) !! 0%nat = Some t'
        ∧ tp_title t' = str "Terminal 1".
Proof.
  refine (proj1 (title_set_by_setTitle_and_restore (host 1700000004000)
                   (Restore t2_session None None) one_terminal 0%nat
                   (new_terminal (host 1700000000000) t1_options 0 0)
                   eq_refl) _).
  by vm_compute.
Defined.

(** [destroy] of "t1" right after its [create] on the fresh manager. *)
Lemma create_then_destroy_witness :
  terminals (destroy (host 1700000001000) T1 one_terminal).1 = terminals fresh.
Proof.
  exact (proj1 (proj2 (create_then_destroy (host 1700000000000)
                         (host 1700000001000) t1_options fresh
                         eq_refl eq_refl eq_refl))).
Defined.
